(** * vtkplotter: a shallow embedding of [actors.py], [plotter.py] and
    [analysis.py], and the properties of its scene nodes.

    Python objects that are shared by reference (the native poly-data
    buffers) live in an explicit store; methods that print on the console or
    raise are written in a small state-and-exception monad.  Coordinates,
    colours and opacities are exact rationals, and real numbers where a
    method takes a square root: the floating-point rounding of the
    interpreter is not part of the model.  The native rendering library is
    not part of the sources; its filters are either written out from their
    documented behaviour or left as the fields of the class [Native]. *)

From Stdlib Require Import ZArith QArith Qabs Qminmax Reals Lia Psatz Ascii String.
From stdpp Require Import base gmap list strings.

Local Open Scope Q_scope.
Local Open Scope nat_scope.

(** ** Console output and exceptions *)

Inductive exn : Type :=
  | RuntimeError
  | IndexError
  | AttributeError
  | ZeroDivisionError
  | OverflowError
  | ValueError.

Inductive outcome (A : Type) : Type :=
  | Returned (a : A)
  | Raised (e : exn).
Arguments Returned {A} a.
Arguments Raised {A} e.

(** One run of a method: how it ended, the state it left behind, and the
    lines it passed to [colors.printc]. *)
Record run (S A : Type) : Type := Run {
  result : outcome A;
  final : S;
  console : list string
}.
Arguments Run {S A} _ _ _.
Arguments result {S A} _.
Arguments final {S A} _.
Arguments console {S A} _.

Definition M (S A : Type) : Type := S → run S A.

Definition ret {S A} (a : A) : M S A := fun s => Run (Returned a) s [].

Definition bind {S A B} (k : A → M S B) (m : M S A) : M S B :=
  fun s =>
    let r := m s in
    match result r with
    | Returned a =>
        let r' := k a (final r) in
        Run (result r') (final r') (console r ++ console r')
    | Raised e => Run (Raised e) (final r) (console r)
    end.

#[global] Instance M_ret {S} : MRet (M S) := @ret S.
#[global] Instance M_bind {S} : MBind (M S) := @bind S.

Definition raise {S A} (e : exn) : M S A := fun s => Run (Raised e) s [].
Definition printc {S} (msg : string) : M S unit :=
  fun s => Run (Returned tt) s [msg].
Definition get {S} : M S S := fun s => Run (Returned s) s [].
Definition put {S} (s' : S) : M S unit := fun _ => Run (Returned tt) s' [].

(** ** Strings: [str.lower] and the [in] operator *)

Definition lower_ascii (a : ascii) : ascii :=
  let n := nat_of_ascii a in
  if (65 <=? n) && (n <=? 90) then ascii_of_nat (n + 32) else a.

Fixpoint lower (s : string) : string :=
  match s with
  | EmptyString => EmptyString
  | String a t => String (lower_ascii a) (lower t)
  end.

Fixpoint starts_with (sub s : string) : bool :=
  match sub, s with
  | EmptyString, _ => true
  | String _ _, EmptyString => false
  | String a sub', String b s' => if ascii_dec a b then starts_with sub' s' else false
  end.

(** [sub in s] of Python. *)
Fixpoint str_in (sub s : string) : bool :=
  starts_with sub s ||
  match s with
  | EmptyString => false
  | String _ t => str_in sub t
  end.

(** ** The native mesh buffer, mapper and surface property *)

Definition Point : Type := Q * Q * Q.
Definition Color : Type := Q * Q * Q.
Definition loc : Type := positive.

(** A named data array of a mesh; [GetName] is [None] for an array that was
    never given a name. *)
Record DataArray : Type := mkArray {
  GetName : option string;
  GetRange : Q * Q
}.

(** [GetPoints] is [None] for a mesh that was never given a points object,
    as [vtk.vtkPolyData()] is. *)
Record vtkPolyData : Type := mkPolyData {
  GetPoints : option (list Point);
  Verts : list (list nat);
  Lines : list (list nat);
  Polys : list (list nat);
  Strips : list (list nat);
  PointData : list DataArray;
  PointScalars : option string;
  CellData : list DataArray;
  CellScalars : option string
}.

(** [vtk.vtkPolyData()] *)
Definition emptyPolyData : vtkPolyData :=
  mkPolyData None [] [] [] [] [] None [] None.

(** The points of a mesh, none when it has no points object. *)
Definition Points (pd : vtkPolyData) : list Point := default [] (GetPoints pd).
Arguments Points : simpl never.

#[global] Instance vtkPolyData_inhabited : Inhabited vtkPolyData :=
  populate emptyPolyData.

Definition GetNumberOfPoints (pd : vtkPolyData) : nat := length (Points pd).
Definition GetNumberOfCells (pd : vtkPolyData) : nat :=
  length (Verts pd) + length (Lines pd) + length (Polys pd) + length (Strips pd).

Definition SetVerts (carr : list (list nat)) (pd : vtkPolyData) : vtkPolyData :=
  mkPolyData (GetPoints pd) carr (Lines pd) (Polys pd) (Strips pd)
             (PointData pd) (PointScalars pd) (CellData pd) (CellScalars pd).

Definition SetActivePointScalars (n : string) (pd : vtkPolyData) : vtkPolyData :=
  mkPolyData (GetPoints pd) (Verts pd) (Lines pd) (Polys pd) (Strips pd)
             (PointData pd) (Some n) (CellData pd) (CellScalars pd).

Definition SetActiveCellScalars (n : string) (pd : vtkPolyData) : vtkPolyData :=
  mkPolyData (GetPoints pd) (Verts pd) (Lines pd) (Polys pd) (Strips pd)
             (PointData pd) (PointScalars pd) (CellData pd) (Some n).

Inductive ScalarMode : Type := ScalarModeDefault | UsePointData | UseCellData.

(** The mapper's input is always the object [poly] of its actor (each path
    of the constructor and [updateMesh] set both), so it has no field here. *)
Record vtkPolyDataMapper : Type := mkMapper {
  ScalarVisibility : bool;
  GetScalarMode : ScalarMode;
  ScalarRange : Q * Q;
  InterpolateScalarsBeforeMapping : bool
}.

Definition newMapper : vtkPolyDataMapper :=
  mkMapper true ScalarModeDefault (0, 1)%Q false.

Record vtkProperty : Type := mkProperty {
  GetColor : Color;
  Ambient : Q;
  Diffuse : Q;
  Specular : Q;
  SpecularPower : Q;
  Opacity : Q;
  RenderPointsAsSpheres : bool;
  RenderLinesAsTubes : bool
}.

Definition newProperty : vtkProperty :=
  mkProperty (1, 1, 1)%Q 0 1 0 1 1 false false.

(** [vtkProperty::SetOpacity] clamps its argument to [0, 1]. *)
Definition clamp01 (x : Q) : Q :=
  if Qle_bool x 0 then 0%Q else if Qle_bool 1 x then 1%Q else x.

Definition SetOpacity (x : Q) (p : vtkProperty) : vtkProperty :=
  mkProperty (GetColor p) (Ambient p) (Diffuse p) (Specular p) (SpecularPower p)
             (clamp01 x) (RenderPointsAsSpheres p) (RenderLinesAsTubes p).

Definition SetLook (c : Color) (amb dif spe pow : Q) (p : vtkProperty) : vtkProperty :=
  mkProperty c amb dif spe pow (Opacity p)
             (RenderPointsAsSpheres p) (RenderLinesAsTubes p).

Definition SetRenderAs (spheres tubes : bool) (p : vtkProperty) : vtkProperty :=
  mkProperty (GetColor p) (Ambient p) (Diffuse p) (Specular p) (SpecularPower p)
             (Opacity p)
             (spheres || RenderPointsAsSpheres p) (tubes || RenderLinesAsTubes p).

(** The module-level [settings] the constructor reads. *)
Record Settings : Type := mkSettings {
  computeNormals : option bool;
  renderPointsAsSpheres : bool;
  renderLinesAsTubes : bool;
  visibleGridEdges : bool
}.

Inductive ColorSpec : Type :=
  | ColorName (name : string)
  | ColorRGB (rgb : Color).

(** Modelled from the spec: the colour of the name "gold" in the table of
    [colors.getColor]; the [colors] module is not among the sources. *)
Definition gold : Color := (1, 0.843, 0)%Q.

(** ** The 4 x 4 matrix of an actor *)

Definition Row4 : Type := Q * Q * Q * Q.
Definition vtkMatrix4x4 : Type := Row4 * Row4 * Row4 * Row4.

(** [vtk.vtkMatrix4x4()] *)
Definition identity4x4 : vtkMatrix4x4 :=
  ((1, 0, 0, 0), (0, 1, 0, 0), (0, 0, 1, 0), (0, 0, 0, 1))%Q.

Definition row_element (r : Row4) (j : nat) : Q :=
  let '(a, b, c, d) := r in
  match j with 0 => a | 1 => b | 2 => c | _ => d end.

Definition GetElement (M : vtkMatrix4x4) (i j : nat) : Q :=
  let '(r0, r1, r2, r3) := M in
  row_element (match i with 0 => r0 | 1 => r1 | 2 => r2 | _ => r3 end) j.

(** Modelled from the spec: [utils.isIdentity], "exact/near check for a
    4 x 4 transform being the identity"; [tol] is how near, 0 for exact.
    The [utils] module is not among the sources. *)
Definition isIdentity (tol : Q) (M : vtkMatrix4x4) : bool :=
  forallb (fun i =>
    forallb (fun j =>
      let e := GetElement M i j in
      if i =? j then Qle_bool (Qabs (e - 1)) tol else Qle_bool (Qabs e) tol)
      [0; 1; 2; 3])
    [0; 1; 2; 3].

(** A transform filter with a matrix moves each point by the affine map
    of the first three rows. *)
Definition transform_point (M : vtkMatrix4x4) (p : Point) : Point :=
  let '(x, y, z) := p in
  let co i := (GetElement M i 0 * x + GetElement M i 1 * y +
               GetElement M i 2 * z + GetElement M i 3)%Q in
  (co 0, co 1, co 2).

(** The scalar types of images that the model covers: the integer types
    of at most 32 bits. *)
Inductive ScalarType : Type :=
  | VTK_SIGNED_CHAR
  | VTK_UNSIGNED_CHAR
  | VTK_SHORT
  | VTK_UNSIGNED_SHORT
  | VTK_INT
  | VTK_UNSIGNED_INT.

Definition GetScalarTypeMin (ty : ScalarType) : Z :=
  match ty with
  | VTK_SIGNED_CHAR => -128
  | VTK_SHORT => -32768
  | VTK_INT => -2147483648
  | VTK_UNSIGNED_CHAR | VTK_UNSIGNED_SHORT | VTK_UNSIGNED_INT => 0
  end.

Definition GetScalarTypeMax (ty : ScalarType) : Z :=
  match ty with
  | VTK_SIGNED_CHAR => 127
  | VTK_UNSIGNED_CHAR => 255
  | VTK_SHORT => 32767
  | VTK_UNSIGNED_SHORT => 65535
  | VTK_INT => 2147483647
  | VTK_UNSIGNED_INT => 4294967295
  end.

(** The native image buffer of a volume: its dimensions, the type of its
    scalars and the scalar of each voxel. *)
Record vtkImageData : Type := mkImage {
  GetDimensions : Z * Z * Z;
  GetScalarType : ScalarType;
  Voxels : list Z
}.

(** [(xmin, xmax, ymin, ymax, zmin, zmax)] *)
Definition Extent : Type := Z * Z * Z * Z * Z * Z.

(** The native filters and the helpers of modules [utils] and [colors] that
    the constructor calls and whose code is elsewhere. *)
Class Native : Type := {
  Grid : Type;
  Trimesh : Type;
  vtkPolyDataNormals : vtkPolyData → vtkPolyData;
  vtkExtractEdges : Grid → vtkPolyData;
  vtkGeometryFilter : Grid → vtkPolyData;
  trimesh2vtk : Trimesh → vtkPolyData;
  pair_as_mesh : Point → Point → vtkPolyData;
  named_color : string → Color;
  vtkImageDataGeometryFilter : vtkImageData → Extent → vtkPolyData;
  vtkQuadricDecimation : Q → vtkPolyData → vtkPolyData;
  vtkDecimatePro : bool → Q → vtkPolyData → vtkPolyData;
  BasisFunctions : Type;
  vtkThinPlateSplineWarp :
    option BasisFunctions → list Point → list Point → vtkPolyData → vtkPolyData;
  identity_tolerance : Q;
  identity_tolerance_nonneg : (0 <= identity_tolerance)%Q
}.

(** Modelled from the spec: [colors.getColor] resolves a name or an RGB
    triple to an RGB triple; the table of names is not among the sources,
    only its entry for "gold" is fixed above. *)
Definition getColor `{Native} (c : ColorSpec) : Color :=
  match c with
  | ColorRGB rgb => rgb
  | ColorName n => if String.eqb n "gold" then gold else named_color n
  end.

(** Modelled from the spec: [utils.buildPolyData] builds a mesh buffer from
    vertices and faces, and a point cloud with one single-point cell for
    each vertex when the faces are absent. *)
Definition buildPolyData (vertices : list Point) (faces : option (list (list nat)))
  : vtkPolyData :=
  match faces with
  | Some f => mkPolyData (Some vertices) [] [] f [] [] None [] None
  | None =>
      mkPolyData (Some vertices) (map (fun i => [i]) (seq 0 (length vertices)))
                 [] [] [] [] None [] None
  end.

(** ** [Actor.__init__] *)

Record Actor : Type := mkActor {
  poly : loc;
  mapper : vtkPolyDataMapper;
  property : vtkProperty;
  _bfprop : option vtkProperty;
  _scals_idx : nat;
  matrix : vtkMatrix4x4;
  backface : option vtkProperty;
  pickable : bool
}.

(** What [inputobj] can be, in the order in which the constructor tests
    the name of its type. *)
Inductive InputObj `{Native} : Type :=
  | InNone
  | InActor (a : Actor)
  | InPolyData (l : loc)
  | InGrid (g : Grid)
  | InTrimesh (t : Trimesh)
  | InVerticesFaces (vertices : list Point) (faces : list (list nat))
  | InVertices (vertices : list Point)
  | InOther (inputtype : string).

Abbreviation store := (gmap loc vtkPolyData).

Definition alloc (pd : vtkPolyData) : M store loc :=
  fun σ => let l := fresh (dom σ) in Run (Returned l) (<[l := pd]> σ) [].
Definition load (l : loc) : M store vtkPolyData :=
  fun σ => Run (Returned (σ !!! l)) σ [].
Definition update (l : loc) (f : vtkPolyData → vtkPolyData) : M store unit :=
  fun σ => Run (Returned tt) (<[l := f (σ !!! l)]> σ) [].

Definition exclude : list string := ["normals"; "tcoord"]%string.

(** [icname and all(s not in icname.lower() for s in exclude)] *)
Definition qualifies (iarr : DataArray) : bool :=
  match GetName iarr with
  | None => false
  | Some icname =>
      negb (String.eqb icname "") &&
      forallb (fun s => negb (str_in s (lower icname))) exclude
  end.

(** The [for ... break] loops over the arrays: the first one that
    qualifies. *)
Fixpoint first_qualifying (arrs : list DataArray) : option DataArray :=
  match arrs with
  | [] => None
  | iarr :: rest => if qualifies iarr then Some iarr else first_qualifying rest
  end.

Definition name_of (iarr : DataArray) : string := default ""%string (GetName iarr).

(** The block "set the color by c or by scalar". *)
Definition set_color `{Native} (c : option ColorSpec) (l : loc)
    (m : vtkPolyDataMapper) (prp : vtkProperty)
  : M store (vtkPolyDataMapper * vtkProperty) :=
  pd ← load l;
  '(m1, arrexists1) ←
    match c, first_qualifying (CellData pd)
    return M store (vtkPolyDataMapper * bool) with
    | None, Some iarr =>
        update l (SetActiveCellScalars (name_of iarr));;
        mret (mkMapper true UseCellData (GetRange iarr)
                       (InterpolateScalarsBeforeMapping m), true)
    | _, _ => mret (m, false)
    end;
  '(m2, arrexists2) ←
    match c, first_qualifying (PointData pd)
    return M store (vtkPolyDataMapper * bool) with
    | None, Some iarr =>
        update l (SetActivePointScalars (name_of iarr));;
        mret (mkMapper true UsePointData (GetRange iarr)
                       (InterpolateScalarsBeforeMapping m1), true)
    | _, _ => mret (m1, arrexists1)
    end;
  if (arrexists2 : bool) then mret (m2, prp)
  else
    let c' := getColor (default (ColorName "gold") c) in
    mret (mkMapper false (GetScalarMode m2) (ScalarRange m2)
                   (InterpolateScalarsBeforeMapping m2),
          SetLook c' 0.1 1 0.05 5 prp).

Definition InterpolateScalarsBeforeMappingOn (m : vtkPolyDataMapper) :=
  mkMapper (ScalarVisibility m) (GetScalarMode m) (ScalarRange m) true.

(** The constructor after the dispatch on the type of [inputobj]: normals,
    rendering flags, colour and opacity. *)
Definition Actor_finish `{Native} (settings : Settings)
    (c : option ColorSpec) (alpha : option Q) (computeNormals_arg : bool)
    (made : loc * vtkPolyDataMapper * vtkProperty) : M store Actor :=
  let '(l, m, prp) := made in
  let m := InterpolateScalarsBeforeMappingOn m in
  let computeNormals := default computeNormals_arg (computeNormals settings) in
  l ← (if computeNormals
       then pd ← load l; alloc (vtkPolyDataNormals pd)
       else mret l);
  let prp := SetRenderAs (renderPointsAsSpheres settings)
                         (renderLinesAsTubes settings) prp in
  '(m, prp) ← set_color c l m prp;
  let prp := match alpha with Some a => SetOpacity a prp | None => prp end in
  mret (mkActor l m prp None 0 identity4x4 None true).

Definition Actor_init `{Native} (settings : Settings) (inputobj : InputObj)
    (c : option ColorSpec) (alpha : option Q) (computeNormals_arg : bool)
  : M store Actor :=
  made ←
    match inputobj return M store (loc * vtkPolyDataMapper * vtkProperty) with
    | InNone =>
        l ← alloc emptyPolyData; mret (l, newMapper, newProperty)
    | InActor a =>
        pd ← load (poly a);
        polyCopy ← alloc pd;
        mret (polyCopy,
              mkMapper (ScalarVisibility (mapper a)) ScalarModeDefault (0, 1)%Q false,
              property a)
    | InPolyData l =>
        pd ← load l;
        (if GetNumberOfCells pd =? 0
         then update l (SetVerts (map (fun i => [i]) (seq 0 (GetNumberOfPoints pd))))
         else mret tt);;
        mret (l, newMapper, newProperty)
    | InGrid g =>
        l ← alloc (if visibleGridEdges settings
                   then vtkExtractEdges g else vtkGeometryFilter g);
        mret (l, newMapper, newProperty)
    | InTrimesh t =>
        l ← alloc (trimesh2vtk t); mret (l, newMapper, newProperty)
    | InVerticesFaces v f =>
        l ← alloc (buildPolyData v (Some f)); mret (l, newMapper, newProperty)
    | InVertices v =>
        l ← alloc (match v with
                   | [p0; p1] => pair_as_mesh p0 p1
                   | _ => buildPolyData v None
                   end);
        mret (l, newMapper, newProperty)
    | InOther inputtype =>
        printc ("Error: cannot build Actor from type:" +:+ inputtype);;
        raise RuntimeError
    end;
  Actor_finish settings c alpha computeNormals_arg made.

(** ** Which arrays count for the default colouring *)

(** An array counts when it is named and its lower-cased name contains
    none of the excluded words. *)
Definition named_without_excluded (iarr : DataArray) : Prop :=
  ∃ n : string, GetName iarr = Some n ∧ n ≠ ""%string ∧
    ∀ s : string, s ∈ exclude → ¬ ∃ pre post, lower n = pre +:+ s +:+ post.

(** [iarr] is the first array of [arrs] that counts. *)
Definition first_such (arrs : list DataArray) (iarr : DataArray) : Prop :=
  ∃ i : nat, arrs !! i = Some iarr ∧ named_without_excluded iarr ∧
    ∀ (j : nat) (b : DataArray),
      j < i → arrs !! j = Some b → ¬ named_without_excluded b.

Definition no_such (arrs : list DataArray) : Prop :=
  ∀ b : DataArray, b ∈ arrs → ¬ named_without_excluded b.


(** ** Methods of [Actor] *)

Definition SetPoints (pts : list Point) (pd : vtkPolyData) : vtkPolyData :=
  mkPolyData (Some pts) (Verts pd) (Lines pd) (Polys pd) (Strips pd)
             (PointData pd) (PointScalars pd) (CellData pd) (CellScalars pd).

Definition PokeMatrix (M : vtkMatrix4x4) (self : Actor) : Actor :=
  mkActor (poly self) (mapper self) (property self) (_bfprop self)
          (_scals_idx self) M (backface self) (pickable self).

Definition updateMesh (polydata : loc) (self : Actor) : Actor :=
  mkActor polydata (mapper self) (property self) (_bfprop self)
          (_scals_idx self) (matrix self) (backface self) (pickable self).

(** The output of the transform filter: the mesh with its points moved.
    On a mesh without a points object the filter stops and its output
    stays empty. *)
Definition vtkTransformPolyDataFilter (M : vtkMatrix4x4) (pd : vtkPolyData)
  : vtkPolyData :=
  match GetPoints pd with
  | Some pts => SetPoints (map (transform_point M) pts) pd
  | None => emptyPolyData
  end.

(** [polydata(transformed)]: the actor's own mesh object, or, when the
    actor is moved, a new object holding the mesh at its place in space. *)
Definition polydata `{Native} (transformed : bool) (self : Actor) : M store loc :=
  if negb transformed then mret (poly self)
  else if isIdentity identity_tolerance (matrix self) then mret (poly self)
  else
    pd ← load (poly self);
    alloc (vtkTransformPolyDataFilter (matrix self) pd).

(** [poly.GetPoints().GetData()]: there is no such method on [None]. *)
Definition GetPoints_GetData {S} (pd : vtkPolyData) : M S (list Point) :=
  match GetPoints pd with
  | Some pts => mret pts
  | None => raise AttributeError
  end.

Definition coordinates `{Native} (transformed copy : bool) (self : Actor)
  : M store (list Point) :=
  l ← polydata transformed self;
  pd ← load l;
  GetPoints_GetData pd.

(** [vpts = self.poly.GetPoints(); vpts.SetData(...)] raises on a mesh
    without a points object, before anything is changed. *)
Definition setPoints (pts : list Point) (self : Actor) : M store Actor :=
  pd ← load (poly self);
  match GetPoints pd with
  | Some _ =>
      update (poly self) (SetPoints pts);;
      mret (PokeMatrix identity4x4 self)
  | None => raise AttributeError
  end.

(** The round trip as claimed: for every actor and every array of as many
    points as its mesh has, [setPoints] returns, the matrix is then the
    identity and [coordinates()] returns the array. *)
Definition coordinates_roundtrip_claim : Prop :=
  ∀ (H : Native) (self : Actor) (newCoords : list Point) (σ : store),
    poly self ∈ dom σ →
    length newCoords = GetNumberOfPoints (σ !!! poly self) →
    ∃ self' σ1,
      setPoints newCoords self σ = Run (Returned self') σ1 [] ∧
      matrix self' = identity4x4 ∧
      coordinates true false self' σ1 = Run (Returned newCoords) σ1 [].

(** [float(n)] of an integer is its nearest double; there is none, and
    the conversion raises [OverflowError], from [2^1024 - 2^970] on, the
    first integer that rounds up to [2^1024]. *)
Definition float_fits (n : Z) : bool := (Z.abs n <? 2 ^ 1024 - 2 ^ 970)%Z.

(** [N] is an integer or [None]; [if N:] is taken for an integer other
    than zero.  [float(N) / Np] converts [N] first and then divides, which
    raises on a point count of zero. *)
Definition decimate `{Native} (fraction : Q) (N : option Z) (method : string)
    (boundaries : bool) (self : Actor) : M store Actor :=
  l ← polydata true self;
  pd ← load l;
  let run_filter (fraction : Q) : M store Actor :=
    let out :=
      if str_in "quad" method
      then vtkQuadricDecimation (1 - fraction) pd
      else vtkDecimatePro boundaries (1 - fraction) pd in
    l' ← alloc out;
    mret (updateMesh l' self) in
  match N with
  | Some n =>
      if (n =? 0)%Z then run_filter fraction
      else
        let Np := GetNumberOfPoints pd in
        if negb (float_fits n) then raise OverflowError
        else if Np =? 0 then raise ZeroDivisionError
        else
          let fraction := (inject_Z n / inject_Z (Z.of_nat Np))%Q in
          if Qle_bool 1 fraction then mret self else run_filter fraction
  | None => run_filter fraction
  end.

(** The no-op as claimed: on every actor, with [P] the number of points of
    its mesh, [decimate(N=2*P)] returns the actor as it is, on the mesh as
    it is. *)
Definition decimate_noop_claim : Prop :=
  ∀ (H : Native) (self : Actor) (σ : store) (fraction : Q) (method : string)
    (boundaries : bool),
    poly self ∈ dom σ →
    let P := GetNumberOfPoints (σ !!! poly self) in
    ∃ σ',
      decimate fraction (Some (2 * Z.of_nat P)%Z) method boundaries self σ
        = Run (Returned self) σ' [] ∧
      σ' !!! poly self = σ !!! poly self.

(** ** [analysis.thinPlateSpline] *)

(** [seq[i]] of Python for an index that is not negative. *)
Definition getitem {S A} (l : list A) (i : nat) : M S A :=
  match l !! i with
  | Some x => mret x
  | None => raise IndexError
  end.

(** [for i in range(n): pts.SetPoint(i, seq[i])] *)
Fixpoint set_landmarks {S} (seq : list Point) (indices : list nat)
  : M S (list Point) :=
  match indices with
  | [] => mret []
  | i :: rest =>
      p ← getitem seq i;
      ps ← set_landmarks seq rest;
      mret (p :: ps)
  end.

Record vtkThinPlateSplineTransform `{Native} : Type := mkThinPlate {
  Basis : option BasisFunctions;
  Sigma : Q;
  SourceLandmarks : list Point;
  TargetLandmarks : list Point
}.
Arguments mkThinPlate {_} _ _ _ _.

(** [transformFilter] on a mesh object: a new Actor on the warped mesh. *)
Definition transformFilter `{Native} (settings : Settings) (l : loc)
    (transform : vtkThinPlateSplineTransform) : M store Actor :=
  pd ← load l;
  out ← alloc (vtkThinPlateSplineWarp (Basis transform)
                 (SourceLandmarks transform) (TargetLandmarks transform) pd);
  Actor_init settings (InPolyData out) None (Some 1%Q) false.

Definition thinPlateSpline `{Native} (settings : Settings) (actor : Actor)
    (sourcePts targetPts : list Point) (userFunctions : option BasisFunctions)
  : M store (Actor * vtkThinPlateSplineTransform) :=
  let ns := length sourcePts in
  ptsou ← set_landmarks sourcePts (seq 0 ns);
  let nt := length sourcePts in
  (if negb (ns =? nt)
   then printc "~times thinPlateSpline Error: #source != #target points";;
        raise RuntimeError
   else mret tt);;
  pttar ← set_landmarks targetPts (seq 0 ns);
  let transform := mkThinPlate userFunctions 1 ptsou pttar in
  l ← polydata true actor;
  tfa ← transformFilter settings l transform;
  mret (tfa, transform).

(** ** The keyboard handler of [Plotter] *)

(** What a renderer lists: Actors of this library, which carry the
    attribute [_bfprop], and plain native actors, which do not. *)
Inductive SceneProp : Type :=
  | PropActor (a : Actor)
  | PropNative (prp : vtkProperty) (bf : option vtkProperty) (pick : bool).

Definition GetProperty (a : SceneProp) : vtkProperty :=
  match a with PropActor act => property act | PropNative prp _ _ => prp end.
Definition GetBackfaceProperty (a : SceneProp) : option vtkProperty :=
  match a with PropActor act => backface act | PropNative _ bf _ => bf end.
Definition GetPickable (a : SceneProp) : bool :=
  match a with PropActor act => pickable act | PropNative _ _ pick => pick end.

(** [hasattr(a, "_bfprop") and a._bfprop] *)
Definition stashed_bfprop (a : SceneProp) : option vtkProperty :=
  match a with PropActor act => _bfprop act | PropNative _ _ _ => None end.

Definition SetProperty (prp : vtkProperty) (a : SceneProp) : SceneProp :=
  match a with
  | PropActor act =>
      PropActor (mkActor (poly act) (mapper act) prp (_bfprop act)
                         (_scals_idx act) (matrix act) (backface act)
                         (pickable act))
  | PropNative _ bf pick => PropNative prp bf pick
  end.

Definition SetBackfaceProperty (bf : option vtkProperty) (a : SceneProp)
  : SceneProp :=
  match a with
  | PropActor act =>
      PropActor (mkActor (poly act) (mapper act) (property act) (_bfprop act)
                         (_scals_idx act) (matrix act) bf (pickable act))
  | PropNative prp _ pick => PropNative prp bf pick
  end.

Definition set_bfprop (bf : option vtkProperty) (act : Actor) : Actor :=
  mkActor (poly act) (mapper act) (property act) bf
          (_scals_idx act) (matrix act) (backface act) (pickable act).

Definition GetOpacity (a : SceneProp) : Q := Opacity (GetProperty a).
Definition set_opacity (x : Q) (a : SceneProp) : SceneProp :=
  SetProperty (SetOpacity x (GetProperty a)) a.

(** [max([a, b])] and [min([a, b])] of Python: the first of the two unless
    the second is strictly larger (smaller). *)
Definition max2 (a b : Q) : Q := if Qle_bool b a then a else b.
Definition min2 (a b : Q) : Q := if Qle_bool a b then a else b.

(** [bfp = a.GetBackfaceProperty(); if bfp and hasattr(a, "_bfprop"): ...] *)
Definition stash_backface (a : SceneProp) : SceneProp :=
  match GetBackfaceProperty a, a with
  | Some bfp, PropActor act =>
      SetBackfaceProperty None (PropActor (set_bfprop (Some bfp) act))
  | _, _ => a
  end.

Inductive KeySym : Type := Key_m | Key_comma | Key_period | Key_slash.

(** The body of each key's branch for one actor; [on_clicked] tells the
    branch for the clicked actor from the loop over all listed actors. *)
Definition key_body (key : KeySym) (on_clicked : bool) : M SceneProp unit :=
  a ← get;
  match key with
  | Key_m => put (stash_backface (set_opacity 0.02 a))
  | Key_comma =>
      let aal := max2 (GetOpacity a * 0.75) 0.01 in
      put (stash_backface (set_opacity aal a))
  | Key_period =>
      let aal := min2 (GetOpacity a * 1.25) 1.0 in
      let a := set_opacity aal a in
      match Qeq_bool aal 1, stashed_bfprop a with
      | true, Some bfp => put (SetBackfaceProperty (Some bfp) a)
      | _, _ => put a
      end
  | Key_slash =>
      let a := set_opacity 1 a in
      put a;;
      match stashed_bfprop a with
      | Some bfp =>
          if on_clicked then put (SetBackfaceProperty (Some bfp) a)
          else raise AttributeError
      | None => mret tt
      end
  end.

Record Plotter : Type := mkPlotter {
  actors : list SceneProp;
  axes_instance : option nat;
  clickedActor : option nat
}.

(** [getActors()]: the positions of the pickable actors of the renderer,
    the axes left out. *)
Definition getActors (self : Plotter) : list nat :=
  List.filter
    (fun i =>
       match actors self !! i with
       | Some a => GetPickable a && negb (bool_decide (axes_instance self = Some i))
       | None => false
       end)
    (seq 0 (length (actors self))).

(** Run a method on the actor at position [i]; what it did to the actor
    stays done when it raises. *)
Definition on_actor (i : nat) (op : M SceneProp unit) : M Plotter unit :=
  fun self =>
    match actors self !! i with
    | Some a =>
        let r := op a in
        Run (result r)
            (mkPlotter (<[i := final r]> (actors self)) (axes_instance self)
                       (clickedActor self))
            (console r)
    | None => Run (Returned tt) self []
    end.

Fixpoint for_each {S} (items : list nat) (body : nat → M S unit) : M S unit :=
  match items with
  | [] => mret tt
  | i :: rest => body i;; for_each rest body
  end.

(** [for a in self.getActors(): if a.GetPickable(): ...] *)
Definition for_listed (key : KeySym) (listed : list nat) : M Plotter unit :=
  for_each listed
    (fun j => on_actor j (a ← get;
                          if GetPickable a then key_body key false else mret tt)).

(** The branches of [_keypress] for the keys [m], [,], [.] and [/]:
    [if self.clickedActor in self.getActors(): ... else: for a in ...]. *)
Definition _keypress (key : KeySym) : M Plotter unit :=
  self ← get;
  let listed := getActors self in
  match clickedActor self with
  | Some i =>
      if bool_decide (i ∈ listed) then on_actor i (key_body key true)
      else for_listed key listed
  | None => for_listed key listed
  end.

(** ** Trails ([Prop.addTrail], [Prop.updateTrail]) *)

(** The offset vector of a trail, as [addTrail] can be given it: none, a
    list or tuple of three numbers, or a numpy array of three numbers. *)
Inductive Offset : Type :=
  | NoOffset
  | SeqOffset (v : Point)
  | ArrayOffset (v : Point).

Definition is_array (o : Offset) : bool :=
  match o with ArrayOffset _ => true | _ => false end.

(** The length of a segment of a trail.  It is a number, or an infinity
    where numpy divided by zero. *)
Inductive Size : Type :=
  | Finite (q : Q)
  | PlusInf
  | MinusInf.

(** The state of the mixin class [Prop] that the trail methods use (the
    class cannot keep its name here).  [trail] holds the points of the
    polyline of the trailing actor.  [diagonalSize] is a numpy number. *)
Record Node : Type := mkNode {
  GetPosition : Point;
  diagonalSize : Q;
  trail : option (list Point);
  trailPoints : list (option Point);
  trailSegmentSize : Size;
  trailOffset : Offset
}.

Definition vec_add (p q : Point) : Point :=
  let '(a, b, c) := p in let '(x, y, z) := q in (a + x, b + y, c + z)%Q.
Definition vec_sub (p q : Point) : Point :=
  let '(a, b, c) := p in let '(x, y, z) := q in (a - x, b - y, c - z)%Q.
Definition norm2 (p : Point) : Q :=
  let '(a, b, c) := p in (a * a + b * b + c * c)%Q.

Definition Qlt_bool (a b : Q) : bool := negb (Qle_bool b a).

(** [np.linalg.norm(v) < s] in exact arithmetic: a norm is below [s] when
    [s] is positive and the squared norm is below the square of [s]. *)
Definition norm_lt (v : Point) (s : Q) : bool :=
  Qlt_bool 0 s && Qlt_bool (norm2 v) (s * s).

(** [np.linalg.norm(v) < self.trailSegmentSize] *)
Definition norm_below (v : Point) (s : Size) : bool :=
  match s with
  | Finite q => norm_lt v q
  | PlusInf => true
  | MinusInf => false
  end.

(** A length as [addTrail] has it: a number of Python when [maxlength] is
    given (as an [int] or a [float]) or replaced by 1, a number of numpy
    when it is computed from [diagonalSize]. *)
Inductive Length : Type :=
  | PyNumber (m : Q)
  | NumpyNumber (m : Q).

(** [maxlength / n]: Python raises when [n] is zero; numpy gives an
    infinity with the sign of the number that is divided (which is not
    zero here). *)
Definition divide {S} (maxlength : Length) (n : nat) : M S Size :=
  match maxlength with
  | PyNumber m =>
      if n =? 0 then raise ZeroDivisionError
      else mret (Finite (m / inject_Z (Z.of_nat n))%Q)
  | NumpyNumber m =>
      if n =? 0 then mret (if Qlt_bool 0 m then PlusInf else MinusInf)
      else mret (Finite (m / inject_Z (Z.of_nat n))%Q)
  end.

(** [maxlength], when given, is an [int] or a [float] of Python. *)
Definition addTrail (offset : Offset) (maxlength : option Q) (n : nat)
  : M Node unit :=
  self ← get;
  let maxlength :=
    match maxlength with
    | Some m => PyNumber m
    | None =>
        let m := (diagonalSize self * 20)%Q in
        if Qeq_bool m 0 then PyNumber 1 else NumpyNumber m
    end in
  match trail self with
  | None =>
      let pos := GetPosition self in
      put (mkNode pos (diagonalSize self) None (replicate n None)
                  (trailSegmentSize self) (trailOffset self));;
      size ← divide maxlength n;
      put (mkNode pos (diagonalSize self) (Some (replicate n pos))
                  (replicate n None) size offset)
  | Some _ => mret tt
  end.

(** [if self.trailOffset:]: none is false, a list or tuple of three numbers
    is true, and the truth value of an array of three numbers is an
    error. *)
Definition offset_given {S} (o : Offset) : M S bool :=
  match o with
  | NoOffset => mret false
  | SeqOffset _ => mret true
  | ArrayOffset _ => raise ValueError
  end.

(** [currentpos] of [updateTrail]: the position, moved by the offset when
    there is one. *)
Definition currentpos (self : Node) : Point :=
  match trailOffset self with
  | SeqOffset off | ArrayOffset off => vec_add (GetPosition self) off
  | NoOffset => GetPosition self
  end.

(** Returns [true] where the method returns [self] (the position was
    appended) and [false] where it returns [None]. *)
Definition updateTrail : M Node bool :=
  self ← get;
  offset_given (trailOffset self);;
  let currentpos := currentpos self in
  match last (trailPoints self) with
  | None => raise IndexError
  | Some None =>
      put (mkNode (GetPosition self) (diagonalSize self) (trail self)
                  (replicate (length (trailPoints self)) (Some currentpos))
                  (trailSegmentSize self) (trailOffset self));;
      mret false
  | Some (Some lastpos) =>
      if norm_below (vec_sub currentpos lastpos) (trailSegmentSize self)
      then mret false
      else
        let points := tail (trailPoints self ++ [Some currentpos]) in
        put (mkNode (GetPosition self) (diagonalSize self)
                    (Some (default currentpos <$> points))
                    points (trailSegmentSize self) (trailOffset self));;
        mret true
  end.

Definition SetPosition (p : Point) : M Node unit :=
  self ← get;
  put (mkNode p (diagonalSize self) (trail self) (trailPoints self)
              (trailSegmentSize self) (trailOffset self)).

(** A motion: the node is put at each position of [path] in turn and the
    trail is updated after each move; the result counts the positions that
    were appended. *)
Fixpoint walk (path : list Point) : M Node nat :=
  match path with
  | [] => mret 0
  | p :: rest =>
      SetPosition p;;
      appended ← updateTrail;
      k ← walk rest;
      mret ((if appended : bool then 1 else 0) + k)
  end.

(** From position [j] on, neighbours in the buffer are recorded points
    that are not closer than [seg]. *)
Definition spaced_from (seg : Q) (j : nat) (buf : list (option Point)) : Prop :=
  ∀ (i : nat) (x y : option Point),
    j ≤ i → buf !! i = Some x → buf !! S i = Some y →
    ∃ p q, x = Some p ∧ y = Some q ∧ norm_lt (vec_sub q p) seg = false.

Definition never_closer (seg : Q) (buf : list (option Point)) : Prop :=
  spaced_from seg 0 buf.

(** The trail density as claimed: after a motion that took the node at
    least [M] away from where it started, the buffer holds [N] points and
    neighbours are never closer than [M / N]. *)
Definition trail_density_claim : Prop :=
  ∀ (M : Q) (N : nat) (node0 node1 node2 : Node) (path : list Point) (k : nat),
    trail node0 = None → 0 < N → (0 < M)%Q →
    addTrail NoOffset (Some M) N node0 = Run (Returned ()) node1 [] →
    walk path node1 = Run (Returned k) node2 [] →
    (M * M <= norm2 (vec_sub (GetPosition node2) (GetPosition node0)))%Q →
    length (trailPoints node2) = N ∧
    never_closer (M / inject_Z (Z.of_nat N)) (trailPoints node2).

(** ** [Volume] *)

Record Volume : Type := mkVolume {
  _image : vtkImageData
}.

Definition imagedata (self : Volume) : vtkImageData := _image self.

(** A number handed to a native method that takes a C [double]: an
    integer [float] cannot take raises [OverflowError].  The double of an
    integer beyond [2^53] is not the integer, but it is on the same side of
    every scalar of the types above, and the filters below only compare it
    with those. *)
Definition as_double {S} (v : Z) : M S Z :=
  if float_fits v then mret v else raise OverflowError.

(** An integer handed to a native method that takes a C [int]. *)
Definition int_fits (v : Z) : bool := ((- 2 ^ 31 <=? v) && (v <? 2 ^ 31))%Z.

Definition as_int {S} (v : Z) : M S Z :=
  if int_fits v then mret v else raise OverflowError.

(** The native threshold filter: a threshold that was not set is unbounded
    ([None]). *)
Record vtkImageThreshold : Type := mkThreshold {
  LowerThreshold : option Z;
  UpperThreshold : option Z;
  ReplaceIn : bool;
  InValue : Z;
  ReplaceOut : bool;
  OutValue : Z
}.

Definition newImageThreshold : vtkImageThreshold :=
  mkThreshold None None false 0 false 0.

Definition ThresholdBetween (lower upper : Z) (th : vtkImageThreshold) :=
  mkThreshold (Some lower) (Some upper) (ReplaceIn th) (InValue th)
              (ReplaceOut th) (OutValue th).
Definition ThresholdByLower (thresh : Z) (th : vtkImageThreshold) :=
  mkThreshold None (Some thresh) (ReplaceIn th) (InValue th)
              (ReplaceOut th) (OutValue th).
Definition ThresholdByUpper (thresh : Z) (th : vtkImageThreshold) :=
  mkThreshold (Some thresh) None (ReplaceIn th) (InValue th)
              (ReplaceOut th) (OutValue th).
Definition SetInValue (val : Z) (th : vtkImageThreshold) :=
  mkThreshold (LowerThreshold th) (UpperThreshold th) true val
              (ReplaceOut th) (OutValue th).

(** When it runs, the filter brings the thresholds into the range of the
    scalar type of its input, and the replacement values into that of its
    output, which has the type of the input. *)
Definition clamp_to (ty : ScalarType) (v : Z) : Z :=
  if (v <? GetScalarTypeMin ty)%Z then GetScalarTypeMin ty
  else if (v >? GetScalarTypeMax ty)%Z then GetScalarTypeMax ty
  else v.

Definition lower_of (ty : ScalarType) (th : vtkImageThreshold) : Z :=
  match LowerThreshold th with
  | Some lo => clamp_to ty lo
  | None => GetScalarTypeMin ty
  end.

Definition upper_of (ty : ScalarType) (th : vtkImageThreshold) : Z :=
  match UpperThreshold th with
  | Some hi => clamp_to ty hi
  | None => GetScalarTypeMax ty
  end.

(** Voxels between the two thresholds are "in". *)
Definition is_in (ty : ScalarType) (th : vtkImageThreshold) (v : Z) : bool :=
  (lower_of ty th <=? v)%Z && (v <=? upper_of ty th)%Z.

Definition threshold_voxel (ty : ScalarType) (th : vtkImageThreshold) (v : Z)
  : Z :=
  if is_in ty th v
  then (if ReplaceIn th then clamp_to ty (InValue th) else v)
  else (if ReplaceOut th then clamp_to ty (OutValue th) else v).

Definition threshold_output (th : vtkImageThreshold) (img : vtkImageData)
  : vtkImageData :=
  mkImage (GetDimensions img) (GetScalarType img)
          (map (threshold_voxel (GetScalarType img) th) (Voxels img)).

Definition _updateVolume (img : vtkImageData) : M Volume unit :=
  put (mkVolume img).

Definition threshold (vmin vmax replaceWith : option Z) : M Volume unit :=
  self ← get;
  let th := newImageThreshold in
  th ← match vmin, vmax return M Volume vtkImageThreshold with
       | Some lo, Some hi =>
           lo ← as_double lo; hi ← as_double hi;
           mret (ThresholdBetween lo hi th)
       | Some lo, None =>
           lo ← as_double lo; mret (ThresholdByLower lo th)
       | None, Some hi =>
           hi ← as_double hi; mret (ThresholdByUpper hi th)
       | None, None => mret th
       end;
  match replaceWith with
  | None =>
      printc "Error in threshold(); you must provide replaceWith";;
      raise RuntimeError
  | Some r =>
      r ← as_double r;
      let th := SetInValue r th in
      _updateVolume (threshold_output th (imagedata self))
  end.

(** The filter that [threshold(vmin, vmax, r)] runs. *)
Definition threshold_filter (vmin vmax : option Z) (r : Z)
  : vtkImageThreshold :=
  SetInValue r
    match vmin, vmax with
    | Some lo, Some hi => ThresholdBetween lo hi newImageThreshold
    | Some lo, None => ThresholdByLower lo newImageThreshold
    | None, Some hi => ThresholdByUpper hi newImageThreshold
    | None, None => newImageThreshold
    end.

(** The voxels [threshold(vmin, vmax, ...)] selects. *)
Definition selected (vmin vmax : option Z) (x : Z) : Prop :=
  match vmin, vmax with
  | Some lo, Some hi => (lo ≤ x ≤ hi)%Z
  | Some lo, None => (x ≤ lo)%Z
  | None, Some hi => (hi ≤ x)%Z
  | None, None => True
  end.

(** A scalar of the type [ty]. *)
Definition in_type (ty : ScalarType) (v : Z) : Prop :=
  (GetScalarTypeMin ty ≤ v ≤ GetScalarTypeMax ty)%Z.

(** The thresholds as the filter uses them on an image of type [ty]. *)
Definition clamp_given (ty : ScalarType) (v : option Z) : option Z :=
  match v with Some v => Some (clamp_to ty v) | None => None end.

(** A threshold that [float] can take, if one is given. *)
Definition given_fits (v : option Z) : bool :=
  match v with Some v => float_fits v | None => true end.

(** Thresholding as claimed: without [replaceWith] the call prints an
    error, raises and leaves the image as it was; with it, every voxel in
    the selected range gets that value. *)
Definition threshold_claim : Prop :=
  ∀ (self : Volume) (vmin vmax : option Z),
    threshold vmin vmax None self =
      Run (Raised RuntimeError) self
          ["Error in threshold(); you must provide replaceWith"%string] ∧
    ∀ r : Z, ∃ self',
      threshold vmin vmax (Some r) self = Run (Returned ()) self' [] ∧
      ∀ (i : nat) (x : Z), Voxels (imagedata self) !! i = Some x →
        selected vmin vmax x → Voxels (imagedata self') !! i = Some r.

(** The arguments [xSlice(i)] hands to [SetExtent]. *)
Definition xSlice_extent (dims : Z * Z * Z) (i : Z) : Extent :=
  let '(nx, ny, nz) := dims in
  let i := if (i >? nx - 1)%Z then (nx - 1)%Z else i in
  (i, i, 0, ny, 0, nz)%Z.

Definition ySlice_extent (dims : Z * Z * Z) (j : Z) : Extent :=
  let '(nx, ny, nz) := dims in
  let j := if (j >? ny - 1)%Z then (ny - 1)%Z else j in
  (0, nx, j, j, 0, nz)%Z.

Definition zSlice_extent (dims : Z * Z * Z) (k : Z) : Extent :=
  let '(nx, ny, nz) := dims in
  let k := if (k >? nz - 1)%Z then (nz - 1)%Z else k in
  (0, nx, 0, ny, k, k)%Z.

(** The extent the native geometry filter keeps of the one it is given:
    on each axis a lower end below zero becomes zero, and an upper end
    below the lower end becomes the lower end. *)
Definition kept_axis (lo hi : Z) : Z * Z :=
  let lo := if (lo <? 0)%Z then 0%Z else lo in
  (lo, if (hi <? lo)%Z then lo else hi).

Definition kept_extent (e : Extent) : Extent :=
  let '(x0, x1, y0, y1, z0, z1) := e in
  let '(x0, x1) := kept_axis x0 x1 in
  let '(y0, y1) := kept_axis y0 y1 in
  let '(z0, z1) := kept_axis z0 z1 in
  (x0, x1, y0, y1, z0, z1).

(** [vslice.SetExtent(...)] with six integers. *)
Definition SetExtent {S} (e : Extent) : M S Extent :=
  let '(x0, x1, y0, y1, z0, z1) := e in
  x0 ← as_int x0; x1 ← as_int x1;
  y0 ← as_int y0; y1 ← as_int y1;
  z0 ← as_int z0; z1 ← as_int z1;
  mret (kept_extent (x0, x1, y0, y1, z0, z1)).

(** [vslice.SetExtent(...); vslice.Update(); Actor(vslice.GetOutput())]:
    the output of the geometry filter is a new mesh object, handed to the
    Actor constructor with its defaults. *)
Definition slice_actor `{Native} (settings : Settings) (self : Volume)
    (extent : Extent) : M store Actor :=
  kept ← SetExtent extent;
  l ← alloc (vtkImageDataGeometryFilter (imagedata self) kept);
  Actor_init settings (InPolyData l) None (Some 1%Q) false.

Definition xSlice `{Native} (settings : Settings) (self : Volume) (i : Z) :=
  slice_actor settings self (xSlice_extent (GetDimensions (imagedata self)) i).
Definition ySlice `{Native} (settings : Settings) (self : Volume) (j : Z) :=
  slice_actor settings self (ySlice_extent (GetDimensions (imagedata self)) j).
Definition zSlice `{Native} (settings : Settings) (self : Volume) (k : Z) :=
  slice_actor settings self (zSlice_extent (GetDimensions (imagedata self)) k).

(** A run that returns an Actor built on the slice of [self] at [extent]:
    the slice is a new mesh object [l], and unless the settings ask for
    normals it is the actor's mesh. *)
Definition returns_slice_actor `{Native} (settings : Settings) (self : Volume)
    (extent : Extent) (σ : store) (r : run store Actor) : Prop :=
  ∃ a σ' l,
    r = Run (Returned a) σ' [] ∧ (l ∉ dom σ) ∧
    Points (σ' !!! l) =
      Points (vtkImageDataGeometryFilter (imagedata self) extent) ∧
    (computeNormals settings ≠ Some true → poly a = l).

(** The index of the plane an extent selects along each axis, and the valid
    indices of an axis with [n] voxels. *)
Definition x_index (e : Extent) : Z := let '(i, _, _, _, _, _) := e in i.
Definition y_index (e : Extent) : Z := let '(_, _, j, _, _, _) := e in j.
Definition z_index (e : Extent) : Z := let '(_, _, _, _, k, _) := e in k.
Definition valid_index (n idx : Z) : Prop := (0 ≤ idx ≤ n - 1)%Z.

(** The dimension of an axis that has voxels; the native library keeps it
    in a C [int]. *)
Definition axis_size (n : Z) : Prop := (0 < n < 2 ^ 31)%Z.

(** The slices as claimed: for every index each of them returns an Actor
    built on the plane at a valid index of its axis. *)
Definition slices_clamp_into_range : Prop :=
  ∀ (H : Native) (settings : Settings) (self : Volume) (i : Z) (σ : store),
    let dims := GetDimensions (imagedata self) in
    axis_size dims.1.1 → axis_size dims.1.2 → axis_size dims.2 →
    ∃ ex ey ez,
      valid_index dims.1.1 (x_index ex) ∧
      valid_index dims.1.2 (y_index ey) ∧
      valid_index dims.2 (z_index ez) ∧
      returns_slice_actor settings self ex σ (xSlice settings self i σ) ∧
      returns_slice_actor settings self ey σ (ySlice settings self i σ) ∧
      returns_slice_actor settings self ez σ (zSlice settings self i σ).

(** ** [Actor.normalize] and [Actor.averageSize], over the reals

    These two methods take square roots, so here the coordinates are real
    numbers.  [placement] is the actor's matrix as a map on points, [None]
    when [isIdentity] holds of it: then [polydata(True)] is the mesh itself,
    otherwise a moved copy. *)

Section RealGeometry.
Local Open Scope R_scope.

Definition RPoint : Type := R * R * R.

Record RActor : Type := mkRActor {
  raw_points : list RPoint;
  placement : option (RPoint → RPoint)
}.

Definition px (p : RPoint) : R := p.1.1.
Definition py (p : RPoint) : R := p.1.2.
Definition pz (p : RPoint) : R := p.2.

Definition rsum (l : list R) : R := fold_right Rplus 0 l.

Definition rsub (p q : RPoint) : RPoint := (px p - px q, py p - py q, pz p - pz q).
Definition rscale (s : R) (p : RPoint) : RPoint := (s * px p, s * py p, s * pz p).

(** Modelled from the spec: [utils.mag], the Euclidean norm; the [utils]
    module is not among the sources. *)
Definition mag (v : RPoint) : R := sqrt (px v * px v + py v * py v + pz v * pz v).

(** The points of [polydata(True)]. *)
Definition placed_points (self : RActor) : list RPoint :=
  match placement self with
  | None => raw_points self
  | Some f => f <$> raw_points self
  end.

(** The native centre-of-mass filter without weights: the mean point. *)
Definition centerOfMass (self : RActor) : RPoint :=
  let pts := placed_points self in
  let n := INR (length pts) in
  (rsum (px <$> pts) / n, rsum (py <$> pts) / n, rsum (pz <$> pts) / n).

(** The elements at positions [skip], [skip + step], [skip + 2 * step], ... *)
Fixpoint strided_from {A} (skip step : nat) (l : list A) : list A :=
  match l with
  | [] => []
  | x :: rest =>
      match skip with
      | O => x :: strided_from (step - 1) step rest
      | S k => strided_from k step rest
      end
  end.

Definition averageSize (self : RActor) : R :=
  let cm := centerOfMass self in
  let coords := placed_points self in
  match coords with
  | [] => 0
  | _ =>
      let n := length coords in
      let step := (Z.to_nat (Z.of_nat n / 10000) + 1)%nat in
      let sampled := strided_from 0 step coords in
      rsum ((fun p => mag (rsub p cm)) <$> sampled) / INR (length sampled)
  end.

(** The actor after the call. *)
Definition normalize (self : RActor) : RActor :=
  let cm := centerOfMass self in
  let coords := placed_points self in
  match coords with
  | [] => self
  | _ =>
      let pts := (fun p => rsub p cm) <$> coords in
      let xyz2 := (rsum ((fun p => px p * px p) <$> pts),
                   rsum ((fun p => py p * py p) <$> pts),
                   rsum ((fun p => pz p * pz p) <$> pts)) in
      let scale := 1 / sqrt ((px xyz2 + py xyz2 + pz xyz2) / INR (length pts)) in
      mkRActor ((fun p => rscale scale (rsub p cm)) <$> raw_points self)
               (placement self)
  end.

(** The squared length of a vector, and the root mean square of the
    distances of the points to the centre of mass. *)
Definition sq (p : RPoint) : R := px p * px p + py p * py p + pz p * pz p.

Definition rootMeanSquareSize (self : RActor) : R :=
  let cm := centerOfMass self in
  let coords := placed_points self in
  sqrt (rsum ((fun p => sq (rsub p cm)) <$> coords) / INR (length coords)).

(** Four points on the x axis, the actor not moved. *)
Definition four_on_a_line : RActor :=
  mkRActor [(-7, 0, 0); (-1, 0, 0); (1, 0, 0); (7, 0, 0)] None.

End RealGeometry.

(** ** Sample data *)

(** Filters that hand their input through, to run the constructor on
    examples. *)
Definition pass_through : Native := {|
  Grid := vtkPolyData;
  Trimesh := vtkPolyData;
  vtkPolyDataNormals := fun pd => pd;
  vtkExtractEdges := fun pd => pd;
  vtkGeometryFilter := fun pd => pd;
  trimesh2vtk := fun pd => pd;
  pair_as_mesh := fun p q => buildPolyData [p; q] None;
  named_color := fun _ => (0, 0, 0)%Q;
  vtkImageDataGeometryFilter := fun _ _ => emptyPolyData;
  vtkQuadricDecimation := fun _ pd => pd;
  vtkDecimatePro := fun _ _ pd => pd;
  BasisFunctions := unit;
  vtkThinPlateSplineWarp := fun _ _ _ pd => pd;
  identity_tolerance := 0;
  identity_tolerance_nonneg := Qle_refl 0
|}.

Definition default_settings : Settings := mkSettings None false false false.

Definition sample_mesh : vtkPolyData :=
  mkPolyData (Some [(0, 0, 0); (1, 0, 0); (0, 1, 0)]%Q) [] [] [[0; 1; 2]] []
             [mkArray (Some "Normals"%string) (0, 1)%Q;
              mkArray (Some "pressure"%string) (0, 1)%Q]
             None
             [mkArray (Some "material"%string) (0, 1)%Q]
             None.

Definition three_points : vtkPolyData :=
  mkPolyData (Some [(0, 0, 0); (1, 0, 0); (0, 1, 0)]%Q) [] [] [] [] [] None [] None.

Definition sample_volume : Volume :=
  mkVolume (mkImage (2, 2, 1)%Z VTK_UNSIGNED_CHAR [5; 10; 15; 20]%Z).

(** An actor on mesh object 1, shifted by 5 along x. *)
Definition moved_actor : Actor :=
  mkActor 1%positive newMapper newProperty None 0
          ((1, 0, 0, 5), (0, 1, 0, 0), (0, 0, 1, 0), (0, 0, 0, 1))%Q None true.

(** Two actors at half and quarter opacity; the first has a back-face
    property stashed away; nothing is clicked. *)
Definition stashed_actor : Actor :=
  mkActor 1%positive newMapper (SetOpacity 0.5 newProperty) (Some newProperty) 0
          identity4x4 None true.
Definition faint_actor : Actor :=
  mkActor 2%positive newMapper (SetOpacity 0.25 newProperty) None 0
          identity4x4 None true.
Definition sample_plotter : Plotter :=
  mkPlotter [PropActor stashed_actor; PropActor faint_actor] None None.

(** A node at the origin, and five steps of 0.9 along x. *)
Definition resting_node : Node :=
  mkNode (0, 0, 0)%Q 1 None [] (Finite 0) NoOffset.
Definition steps_along_x : list Point :=
  [(0.9, 0, 0); (1.8, 0, 0); (2.7, 0, 0); (3.6, 0, 0); (4.5, 0, 0)]%Q.

(** * More of the library *)

(** ** The actors a key works on *)

(** The clicked actor when it is among those of [getActors()], all of
    those otherwise. *)
Definition key_targets (self : Plotter) : list nat :=
  match clickedActor self with
  | Some i => if bool_decide (i ∈ getActors self) then [i] else getActors self
  | None => getActors self
  end.

(** Whether the clicked actor is among those of [getActors()]. *)
Definition clicked_listed (self : Plotter) : bool :=
  match clickedActor self with
  | Some i => bool_decide (i ∈ getActors self)
  | None => false
  end.

(** Some actor of [getActors()] has a back-face property stashed away. *)
Definition stash_listed (self : Plotter) : Prop :=
  ∃ i a, i ∈ getActors self ∧ actors self !! i = Some a ∧
         stashed_bfprop a ≠ None.

(** ** Moving a [Prop] ([pos], [addPos], [x], [y], [z], [updateShadow]) *)

Module Moving.

(** A [Prop] with the attributes the moving methods use besides those of
    the trail: [shadow] holds the position of the shadow actor when there
    is one. *)
Record Mover : Type := mkMover {
  node : Node;
  shadow : option Point;
  shadowX : option Q;
  shadowY : option Q;
  shadowZ : option Q
}.

(** A method of the trail's state, run on the [Prop]; what it did stays
    done when it raises. *)
Definition on_node {A} (m : M Node A) : M Mover A :=
  fun self =>
    let r := m (node self) in
    Run (result r)
        (mkMover (final r) (shadow self) (shadowX self) (shadowY self)
                 (shadowZ self))
        (console r).

(** [self.shadow.SetPosition(...)]; there is no such attribute on [None]. *)
Definition shadow_SetPosition (p : Point) : M Mover unit :=
  self ← get;
  match shadow self with
  | Some _ =>
      put (mkMover (node self) (Some p) (shadowX self) (shadowY self)
                   (shadowZ self))
  | None => raise AttributeError
  end.

Definition updateShadow : M Mover unit :=
  self ← get;
  let '(p0, p1, p2) := GetPosition (node self) in
  match shadowX self, shadowY self, shadowZ self with
  | Some sx, _, _ => shadow_SetPosition (sx, p1, p2)
  | None, Some sy, _ => shadow_SetPosition (p0, sy, p2)
  | None, None, Some sz => shadow_SetPosition (p0, p1, sz)
  | None, None, None => mret tt
  end.

(** [if self.trail: self.updateTrail()] and [if self.shadow:
    self.updateShadow()], the tail of each moving method. *)
Definition after_move : M Mover unit :=
  self ← get;
  (match trail (node self) with
   | Some _ => on_node updateTrail;; mret tt
   | None => mret tt
   end);;
  self ← get;
  match shadow self with
  | Some _ => updateShadow
  | None => mret tt
  end.

(** [pos(x, y, z)] with a position ([pos()] returns the position and
    changes nothing). *)
Definition pos (p : Point) : M Mover unit :=
  on_node (SetPosition p);; after_move.

Definition addPos (dp : Point) : M Mover unit :=
  self ← get;
  on_node (SetPosition (vec_add (GetPosition (node self)) dp));; after_move.

(** [x(position)], [y(position)] and [z(position)] with a value. *)
Definition x (position : Q) : M Mover unit :=
  self ← get;
  let '(p0, p1, p2) := GetPosition (node self) in
  on_node (SetPosition (position, p1, p2));; after_move.

Definition y (position : Q) : M Mover unit :=
  self ← get;
  let '(p0, p1, p2) := GetPosition (node self) in
  on_node (SetPosition (p0, position, p2));; after_move.

Definition z (position : Q) : M Mover unit :=
  self ← get;
  let '(p0, p1, p2) := GetPosition (node self) in
  on_node (SetPosition (p0, p1, position));; after_move.

(** The calls that move a [Prop]. *)
Inductive Move : Type :=
  | Move_pos (p : Point)
  | Move_addPos (dp : Point)
  | Move_x (position : Q)
  | Move_y (position : Q)
  | Move_z (position : Q).

Definition move (c : Move) : M Mover unit :=
  match c with
  | Move_pos p => pos p
  | Move_addPos dp => addPos dp
  | Move_x v => x v
  | Move_y v => y v
  | Move_z v => z v
  end.

(** Where a call puts a [Prop] that is at [p]. *)
Definition destination (c : Move) (p : Point) : Point :=
  let '(p0, p1, p2) := p in
  match c with
  | Move_pos q => q
  | Move_addPos dp => vec_add p dp
  | Move_x v => (v, p1, p2)
  | Move_y v => (p0, v, p2)
  | Move_z v => (p0, p1, v)
  end.

(** [for c in calls: c(self)] *)
Fixpoint moves (calls : list Move) : M Mover unit :=
  match calls with
  | [] => mret tt
  | c :: rest => move c;; moves rest
  end.

End Moving.

(** A [Prop] whose trail, if it has one, can be updated: the buffer of
    points is not empty and the offset is no numpy array. *)
Definition trail_ok (self : Node) : Prop :=
  trail self ≠ None →
  trailPoints self ≠ [] ∧ is_array (trailOffset self) = false.

(** Where the shadow of a [Prop] at [p] belongs. *)
Definition shadow_place (self : Moving.Mover) (p s : Point) : Point :=
  let '(p0, p1, p2) := p in
  match Moving.shadowX self, Moving.shadowY self, Moving.shadowZ self with
  | Some sx, _, _ => (sx, p1, p2)
  | None, Some sy, _ => (p0, sy, p2)
  | None, None, Some sz => (p0, p1, sz)
  | None, None, None => s
  end.


(** A [Prop] at the origin whose shadow lies on the plane z = -1. *)
Definition sample_mover : Moving.Mover :=
  Moving.mkMover resting_node (Some (0, 0, -1)%Q) None None (Some (-1)%Q).

(** ** Cell connectivity ([getPolygons], [getConnectivity]) *)

(** The data of a native cell array, in the format [getPolygons] documents:
    each cell as the number of its ids, followed by the ids. *)
Definition GetData (cells : list (list nat)) : list nat :=
  concat (map (fun cell => length cell :: cell) cells).

(** The mesh [polydata(True)] hands out: the actor's own, or the output of
    the transform filter when the actor is moved. *)
Definition placed `{Native} (self : Actor) (pd : vtkPolyData)
  : vtkPolyData :=
  if isIdentity identity_tolerance (matrix self) then pd
  else vtkTransformPolyDataFilter (matrix self) pd.

Definition getPolygons `{Native} (self : Actor) : M store (list nat) :=
  l ← polydata true self;
  pd ← load l;
  mret (GetData (Polys pd)).

(** [for k in range(arr1d[i]): cell.append(arr1d[i+k+1])] *)
Fixpoint read_cell {S} (arr1d : list nat) (i : nat) (ks : list nat)
  : M S (list nat) :=
  match ks with
  | [] => mret []
  | k :: ks =>
      id ← getitem arr1d (i + k + 1);
      cell ← read_cell arr1d i ks;
      mret (id :: cell)
  end.

(** The loop [for idummy in range(n)] of [getConnectivity], with
    [dummies] rounds left, at index [i]. *)
Fixpoint connectivity_loop {S} (arr1d : list nat) (dummies i : nat)
    (conn : list (list nat)) : M S (list (list nat)) :=
  match dummies with
  | 0 => mret conn
  | S dummies =>
      len ← getitem arr1d i;
      cell ← read_cell arr1d i (seq 0 len);
      let conn := conn ++ [cell] in
      let i := i + (len + 1) in
      if length arr1d <=? i then mret conn
      else connectivity_loop arr1d dummies i conn
  end.

Definition getConnectivity `{Native} (self : Actor)
  : M store (list (list nat)) :=
  arr1d ← getPolygons self;
  arr1d ← (if length arr1d =? 0
           then l ← polydata true self;
                pd ← load l;
                mret (GetData (Strips pd))
           else mret arr1d);
  connectivity_loop arr1d (length arr1d) 0 [].

(** ** [Actor.alpha] *)

(** [alpha(opacity)] with a value ([alpha()] returns the opacity and
    changes nothing). *)
Definition Actor_alpha (opacity : Q) (self : Actor) : Actor :=
  let self :=
    mkActor (poly self) (mapper self) (SetOpacity opacity (property self))
            (_bfprop self) (_scals_idx self) (matrix self) (backface self)
            (pickable self) in
  match backface self with
  | Some bfp =>
      if Qlt_bool opacity 1
      then mkActor (poly self) (mapper self) (property self) (Some bfp)
                   (_scals_idx self) (matrix self) None (pickable self)
      else mkActor (poly self) (mapper self) (property self) (_bfprop self)
                   (_scals_idx self) (matrix self) (_bfprop self)
                   (pickable self)
  | None => self
  end.

(** ** Cropping and shading a [Volume] ([crop], [alpha]) *)

(** The native filters and queries on images that these methods use. *)
Class ImageNative : Type := {
  vtkExtractVOI : Extent → vtkImageData → vtkImageData;
  GetScalarRange : vtkImageData → Q * Q
}.

(** The arithmetic of Python's [float]: the result of an operation is the
    exact result rounded to a double.  Of the rounding only this is used:
    it keeps the order, and it keeps the integers of up to 53 bits, as
    rounding to nearest does. *)
Class Rounding : Type := {
  fl : Q → Q;
  fl_mono : ∀ a b : Q, (a <= b)%Q → (fl a <= fl b)%Q;
  fl_int : ∀ z : Z, (Z.abs z ≤ 2 ^ 53)%Z → (fl (inject_Z z) == inject_Z z)%Q
}.

(** Arithmetic that rounds nothing, for examples. *)
Definition exact_arithmetic : Rounding :=
  {| fl := fun a => a;
     fl_mono := fun a b Hab => Hab;
     fl_int := fun z _ => Qeq_refl (inject_Z z) |}.

(** [int(x)] of Python on a number: the fraction is dropped. *)
Definition py_int (v : Q) : Z := Z.quot (Qnum v) (Zpos (Qden v)).

(** The volume of interest [crop] computes from the fractions:
    [int((d - 1) * f)] at the start of an axis and [int((d - 1) * (1 - f))]
    at its end.  A dimension is a C [int], which [float] takes as it is. *)
Definition crop_VOI `{Rounding} (d : Z * Z * Z)
    (top bottom right left front back : option Q) : Extent :=
  let '(d0, d1, d2) := d in
  let bx0 := match left with
             | Some f => py_int (fl (inject_Z (d0 - 1) * f))
             | None => 0%Z
             end in
  let bx1 := match right with
             | Some f => py_int (fl (inject_Z (d0 - 1) * fl (1 - f)))
             | None => (d0 - 1)%Z
             end in
  let by0 := match back with
             | Some f => py_int (fl (inject_Z (d1 - 1) * f))
             | None => 0%Z
             end in
  let by1 := match front with
             | Some f => py_int (fl (inject_Z (d1 - 1) * fl (1 - f)))
             | None => (d1 - 1)%Z
             end in
  let bz0 := match bottom with
             | Some f => py_int (fl (inject_Z (d2 - 1) * f))
             | None => 0%Z
             end in
  let bz1 := match top with
             | Some f => py_int (fl (inject_Z (d2 - 1) * fl (1 - f)))
             | None => (d2 - 1)%Z
             end in
  (bx0, bx1, by0, by1, bz0, bz1).

(** [extractVOI.SetVOI(...)] with six integers. *)
Definition SetVOI {St} (voi : Extent) : M St Extent :=
  let '(x0, x1, y0, y1, z0, z1) := voi in
  x0 ← as_int x0; x1 ← as_int x1;
  y0 ← as_int y0; y1 ← as_int y1;
  z0 ← as_int z0; z1 ← as_int z1;
  mret (x0, x1, y0, y1, z0, z1).

(** [crop(top, bottom, right, left, front, back, VOI)]; [VOI] is [None] for
    the empty tuple, and six integers otherwise; the fractions are
    [float]s. *)
Definition crop `{ImageNative} `{HR : Rounding}
    (top bottom right left front back : option Q)
    (VOI : option Extent) : M Volume unit :=
  self ← get;
  voi ← SetVOI match VOI with
               | Some voi => voi
               | None =>
                   crop_VOI (GetDimensions (imagedata self))
                            top bottom right left front back
               end;
  _updateVolume (vtkExtractVOI voi (imagedata self)).

(** A fraction of an axis, if one is given. *)
Definition fraction_ok (f : option Q) : Prop :=
  match f with Some f => (0 <= f <= 1)%Q | None => True end.

(** Each index of the volume of interest is an index of the image of
    dimensions [d]. *)
Definition within (d : Z * Z * Z) (voi : Extent) : Prop :=
  let '(d0, d1, d2) := d in
  let '(bx0, bx1, by0, by1, bz0, bz1) := voi in
  (0 ≤ bx0 ≤ d0 - 1 ∧ 0 ≤ bx1 ≤ d0 - 1)%Z ∧
  (0 ≤ by0 ≤ d1 - 1 ∧ 0 ≤ by1 ≤ d1 - 1)%Z ∧
  (0 ≤ bz0 ≤ d2 - 1 ∧ 0 ≤ bz1 ≤ d2 - 1)%Z.

(** The image filter that hands its input on, for examples. *)
Definition whole_image : ImageNative :=
  {| vtkExtractVOI := fun _ img => img; GetScalarRange := fun _ => (0, 1)%Q |}.

(** What [alpha] is given: a sequence of opacities, or one number. *)
Inductive AlphaArg : Type :=
  | AlphaSeq (als : list Q)
  | AlphaConst (al : Q).

(** A [Volume] with the attributes [alpha] sets.  [ScalarOpacity] holds the
    points of the opacity transfer function of the volume's property, in
    the order in which [AddPoint] got them. *)
Record Shaded : Type := mkShaded {
  volume : Volume;
  _alpha : option AlphaArg;
  ScalarOpacity : list (Q * Q);
  InterpolationTypeLinear : bool
}.

(** [for i, al in enumerate(alpha): xalpha = smin + (smax - smin) * i /
    (len(alpha) - 1); AddPoint(xalpha, al)], from index [i] on; [n] is
    [len(alpha)]. *)
Fixpoint alpha_points {St} (smin smax : Q) (n i : nat) (als : list Q)
  : M St (list (Q * Q)) :=
  match als with
  | [] => mret []
  | al :: rest =>
      xalpha ← (if n - 1 =? 0 then raise ZeroDivisionError
                else mret (smin + (smax - smin) * inject_Z (Z.of_nat i)
                                  / inject_Z (Z.of_nat (n - 1)))%Q);
      pts ← alpha_points smin smax n (S i) rest;
      mret ((xalpha, al) :: pts)
  end.

Definition Volume_alpha `{ImageNative} (alpha : AlphaArg) : M Shaded unit :=
  self ← get;
  let '(smin, smax) := GetScalarRange (_image (volume self)) in
  put (mkShaded (volume self) (Some alpha) (ScalarOpacity self)
                (InterpolationTypeLinear self));;
  otf ← match alpha with
        | AlphaSeq als => alpha_points smin smax (length als) 0 als
        | AlphaConst al => mret [(smin, al); (smax, al)]
        end;
  put (mkShaded (volume self) (Some alpha) otf true).

(** ** The list of actors of a [Plotter] ([add], [remove]) *)

Module Scene.

(** Objects are told apart by their identity. *)
Definition ident : Type := nat.

(** The native renderer and the two of its methods these methods call. *)
Class SceneNative : Type := {
  vtkRenderer : Type;
  AddActor : ident → vtkRenderer → vtkRenderer;
  RemoveActor : ident → vtkRenderer → vtkRenderer
}.

(** The attributes of a [Plotter] that [add] and [remove] use.  [renderer]
    is the position of the current renderer in [renderers]; [renderedAt]
    holds the attribute of that name of each object that has it. *)
Record Plotter `{SceneNative} : Type := mkPlotter {
  actors : list ident;
  renderers : list vtkRenderer;
  renderer : option nat;
  interactor : bool;
  renderedAt : gmap ident (gset nat)
}.
Arguments mkPlotter {_} _ _ _ _ _.

(** What [add] and [remove] are given: a sequence of objects, or one. *)
Inductive Objects : Type :=
  | Sequence (objs : list ident)
  | Single (obj : ident).

(** A method of the current renderer. *)
Definition on_renderer `{SceneNative} (f : vtkRenderer → vtkRenderer)
  : M Plotter unit :=
  self ← get;
  match renderer self with
  | Some r =>
      put (mkPlotter (actors self) (alter f r (renderers self)) (renderer self)
                     (interactor self) (renderedAt self))
  | None => mret tt
  end.

(** [self.actors.append(a)] *)
Definition append_actor `{SceneNative} (a : ident) : M Plotter unit :=
  self ← get;
  put (mkPlotter (actors self ++ [a]) (renderers self) (renderer self)
                 (interactor self) (renderedAt self)).

Definition add `{SceneNative} (objs : Objects) (render : bool)
  : M Plotter (option ident) :=
  match objs with
  | Sequence objs =>
      for_each objs
        (fun a =>
           self ← get;
           if bool_decide (a ∈ actors self) then mret tt
           else
             append_actor a;;
             if render then on_renderer (AddActor a) else mret tt);;
      mret None
  | Single a =>
      append_actor a;;
      (if render then on_renderer (AddActor a) else mret tt);;
      mret (Some a)
  end.

(** [i = self.actors.index(a); del self.actors[i]] *)
Fixpoint del_first (a : ident) (l : list ident) : list ident :=
  match l with
  | [] => []
  | b :: l => if bool_decide (a = b) then l else b :: del_first a l
  end.

(** [a.renderedAt.discard(ir)] on an object that has the attribute. *)
Definition discard_renderedAt `{SceneNative} (a : ident) : M Plotter unit :=
  self ← get;
  match renderer self, renderedAt self !! a with
  | Some ir, Some at_ =>
      put (mkPlotter (actors self) (renderers self) (renderer self)
                     (interactor self)
                     (<[a := at_ ∖ {[ ir ]}]> (renderedAt self)))
  | _, _ => mret tt
  end.

Definition remove `{SceneNative} (objs : Objects) : M Plotter unit :=
  let objs := match objs with Sequence objs => objs | Single a => [a] end in
  for_each objs
    (fun a =>
       on_renderer (RemoveActor a);;
       discard_renderedAt a;;
       self ← get;
       if bool_decide (a ∈ actors self)
       then put (mkPlotter (del_first a (actors self)) (renderers self)
                           (renderer self) (interactor self) (renderedAt self))
       else mret tt).

End Scene.

(** A renderer that is the list of its props, for examples. *)
Definition listing_renderer : Scene.SceneNative :=
  {| Scene.vtkRenderer := list Scene.ident;
     Scene.AddActor := fun a props => props ++ [a];
     Scene.RemoveActor := fun a props => Scene.del_first a props |}.

(** A plotter with one renderer that lists two actors. *)
Definition sample_scene : @Scene.Plotter listing_renderer :=
  @Scene.mkPlotter listing_renderer [1; 2] [[1; 2]] (Some 0) true ∅.

(** * Properties *)

(** ** Strings *)

Lemma append_cons a s t : String a s +:+ t = String a (s +:+ t).
Proof. reflexivity. Qed.

Lemma starts_with_spec sub s :
  starts_with sub s = true ↔ ∃ post, s = sub +:+ post.
Proof.
  revert s; induction sub as [|a sub IH]; intros s; simpl.
  - split; [intros _; by exists s | done].
  - destruct s as [|b s].
    + split; [done | intros [post H]; discriminate].
    + destruct (ascii_dec a b) as [->|Hne].
      * rewrite IH. split; intros [post H]; exists post.
        -- by rewrite append_cons, H.
        -- rewrite append_cons in H. congruence.
      * split; [done | intros [post H]; rewrite append_cons in H; congruence].
Qed.

Lemma str_in_spec sub s :
  str_in sub s = true ↔ ∃ pre post, s = pre +:+ sub +:+ post.
Proof.
  induction s as [|b s IH].
  - simpl. rewrite orb_false_r, starts_with_spec. split.
    + intros [post H]. by exists EmptyString, post.
    + intros [pre [post H]]. destruct pre; [by exists post | discriminate].
  - cbn [str_in]. rewrite orb_true_iff, starts_with_spec, IH. split.
    + intros [[post H] | [pre [post H]]].
      * by exists EmptyString, post.
      * exists (String b pre), post. by rewrite append_cons, H.
    + intros [pre [post H]]. destruct pre as [|c pre].
      * left. by exists post.
      * right. exists pre, post. rewrite append_cons in H. congruence.
Qed.

(** ** Reasoning about runs *)

Lemma bind_run {S A B} (m : M S A) (k : A → M S B) (s : S) :
  (m ≫= k) s =
  match result (m s) with
  | Returned a =>
      Run (result (k a (final (m s)))) (final (k a (final (m s))))
          (console (m s) ++ console (k a (final (m s))))
  | Raised e => Run (Raised e) (final (m s)) (console (m s))
  end.
Proof. reflexivity. Qed.

Lemma run_eta {S A} (r : run S A) : Run (result r) (final r) (console r) = r.
Proof. by destruct r. Qed.

Lemma bind_Returned {S A B} (m : M S A) (k : A → M S B) s b s' out :
  (m ≫= k) s = Run (Returned b) s' out →
  ∃ a s1 o1 o2,
    m s = Run (Returned a) s1 o1 ∧ k a s1 = Run (Returned b) s' o2 ∧
    out = o1 ++ o2.
Proof.
  rewrite bind_run. destruct (m s) as [[a|e] s1 o1]; simpl; [|done].
  destruct (k a s1) as [r s2 o2] eqn:Hk; simpl. intros [= -> -> <-].
  by exists a, s1, o1, o2.
Qed.

Lemma bind_step {S A B} (m : M S A) (k : A → M S B) (s s1 : S) (a : A) :
  m s = Run (Returned a) s1 [] → (m ≫= k) s = k a s1.
Proof. intros Hm. rewrite bind_run, Hm. cbn. apply run_eta. Qed.

Lemma bind_raised {S A B} (m : M S A) (k : A → M S B) (s s1 : S) (e : exn)
    (out : list string) :
  m s = Run (Raised e) s1 out → (m ≫= k) s = Run (Raised e) s1 out.
Proof. intros Hm. by rewrite bind_run, Hm. Qed.

(** ** The points of a mesh *)

Lemma Points_SetVerts (carr : list (list nat)) (pd : vtkPolyData) :
  Points (SetVerts carr pd) = Points pd.
Proof. reflexivity. Qed.

Lemma Points_SetPoints (pts : list Point) (pd : vtkPolyData) :
  Points (SetPoints pts pd) = pts.
Proof. reflexivity. Qed.

Lemma Points_SetActivePointScalars (n : string) (pd : vtkPolyData) :
  Points (SetActivePointScalars n pd) = Points pd.
Proof. reflexivity. Qed.

Lemma Points_SetActiveCellScalars (n : string) (pd : vtkPolyData) :
  Points (SetActiveCellScalars n pd) = Points pd.
Proof. reflexivity. Qed.

Lemma Points_GetPoints (pd : vtkPolyData) (pts : list Point) :
  GetPoints pd = Some pts → Points pd = pts.
Proof. unfold Points. by intros ->. Qed.

(** ** What the colouring block does when no colour is given *)

Example qualifies_examples :
  qualifies <$> [mkArray (Some "Normals"%string) (0, 1)%Q;
                 mkArray (Some "TCoords"%string) (0, 1)%Q;
                 mkArray (Some "pressure"%string) (0, 1)%Q;
                 mkArray None (0, 1)%Q;
                 mkArray (Some ""%string) (0, 1)%Q]
    = [false; false; true; false; false].
Proof. reflexivity. Qed.

Lemma qualifies_spec (iarr : DataArray) :
  qualifies iarr = true ↔ named_without_excluded iarr.
Proof.
  unfold qualifies, named_without_excluded.
  destruct (GetName iarr) as [n|]; [|split; [done | intros (n & [=] & _)]].
  rewrite andb_true_iff, negb_true_iff, String.eqb_neq, forallb_forall. split.
  - intros [Hn Hall]. exists n. split_and!; [done..|].
    intros s Hs Hin. apply list_elem_of_In, Hall in Hs.
    apply negb_true_iff in Hs. apply str_in_spec in Hin. congruence.
  - intros (n' & [= <-] & Hn & Hall). split; [done|].
    intros s Hs. apply negb_true_iff. apply list_elem_of_In, Hall in Hs.
    destruct (str_in s (lower n)) eqn:E; [|done].
    apply str_in_spec in E. contradiction.
Qed.

Lemma first_qualifying_Some (arrs : list DataArray) (iarr : DataArray) :
  first_qualifying arrs = Some iarr ↔ first_such arrs iarr.
Proof.
  unfold first_such. induction arrs as [|a arrs IH]; simpl.
  - split; [done | by intros (i & Hi & _)].
  - destruct (qualifies a) eqn:Ha.
    + split.
      * intros [= <-]. exists 0. split_and!; [done | by apply qualifies_spec | lia].
      * intros ([|i] & Hi & Hq & Hlt); [by simplify_eq/= |].
        exfalso. apply (Hlt 0 a); [lia | done | by apply qualifies_spec].
    + rewrite IH. split.
      * intros (i & Hi & Hq & Hlt). exists (S i). split_and!; [done..|].
        intros [|j] b Hj Hb; simplify_eq/=.
        -- rewrite <- qualifies_spec. congruence.
        -- apply (Hlt j b); [lia | done].
      * intros ([|i] & Hi & Hq & Hlt); simplify_eq/=.
        -- apply qualifies_spec in Hq. congruence.
        -- exists i. split_and!; [done..|].
           intros j b Hj Hb. apply (Hlt (S j) b); [lia | done].
Qed.

Lemma first_qualifying_None (arrs : list DataArray) :
  first_qualifying arrs = None ↔ no_such arrs.
Proof.
  unfold no_such. induction arrs as [|a arrs IH]; simpl.
  - split; [intros _ b Hb; by apply elem_of_nil in Hb | done].
  - destruct (qualifies a) eqn:Ha.
    + split; [done|]. intros Hall. exfalso.
      apply (Hall a); [left | by apply qualifies_spec].
    + rewrite IH. split.
      * intros Hall b [->|Hb]%elem_of_cons; [|by apply Hall].
        rewrite <- qualifies_spec. congruence.
      * intros Hall b Hb. apply Hall. by right.
Qed.

Lemma first_qualifying_name (arrs : list DataArray) (iarr : DataArray) :
  first_qualifying arrs = Some iarr → Some (name_of iarr) = GetName iarr.
Proof.
  intros (i & _ & (n & Hn & _) & _)%first_qualifying_Some.
  unfold name_of. by rewrite Hn.
Qed.

Section ActorColoring.
Context `{Native}.

(** The colouring block with [c=None], by cases on the arrays present. *)
Lemma set_color_None (l : loc) (m : vtkPolyDataMapper) (prp : vtkProperty)
    (σ : store) :
  ∃ m' prp' σ',
    set_color None l m prp σ = Run (Returned (m', prp')) σ' [] ∧
    PointData (σ' !!! l) = PointData (σ !!! l) ∧
    CellData (σ' !!! l) = CellData (σ !!! l) ∧
    Points (σ' !!! l) = Points (σ !!! l) ∧
    Verts (σ' !!! l) = Verts (σ !!! l) ∧
    (∀ l', l' ≠ l → σ' !! l' = σ !! l') ∧
    match first_qualifying (PointData (σ !!! l)),
          first_qualifying (CellData (σ !!! l)) with
    | Some iarr, _ =>
        PointScalars (σ' !!! l) = Some (name_of iarr) ∧
        ScalarVisibility m' = true ∧ GetScalarMode m' = UsePointData ∧
        ScalarRange m' = GetRange iarr ∧ prp' = prp
    | None, Some iarr =>
        CellScalars (σ' !!! l) = Some (name_of iarr) ∧
        ScalarVisibility m' = true ∧ GetScalarMode m' = UseCellData ∧
        ScalarRange m' = GetRange iarr ∧ prp' = prp
    | None, None =>
        σ' = σ ∧ ScalarVisibility m' = false ∧
        prp' = SetLook gold 0.1 1 0.05 5 prp
    end.
Proof.
  unfold set_color.
  cbv [mbind M_bind bind mret M_ret ret update load result final console].
  destruct (first_qualifying (PointData (σ !!! l))) as [pa|] eqn:Hp;
    destruct (first_qualifying (CellData (σ !!! l))) as [ca|] eqn:Hc;
    cbn [app];
    eexists _, _, _; (split; [reflexivity|]);
    rewrite ?lookup_total_insert_eq; cbn;
    split_and!; try done;
    intros l' Hl'; by rewrite !lookup_insert_ne.
Qed.

(** A constructor call that returns went through the colouring block on
    the mesh it ends up with. *)
Lemma Actor_init_inv (settings : Settings) (inputobj : InputObj)
    (c : option ColorSpec) (alpha : option Q) (cn : bool)
    (σ σ' : store) (a : Actor) (out : list string) :
  Actor_init settings inputobj c alpha cn σ = Run (Returned a) σ' out →
  ∃ m prp σ1 m' prp' o1 o2,
    set_color c (poly a) m prp σ1 = Run (Returned (m', prp')) σ' o2 ∧
    out = o1 ++ o2 ∧
    mapper a = m' ∧
    property a = match alpha with Some x => SetOpacity x prp' | None => prp' end.
Proof.
  unfold Actor_init.
  intros ([[l m] prp] & s1 & o1 & o2 & _ & Hrest & ->)%bind_Returned.
  unfold Actor_finish in Hrest.
  apply bind_Returned in Hrest as (l2 & s2 & o3 & o4 & _ & Hrest & ->).
  apply bind_Returned in Hrest as ([m' prp'] & s3 & o5 & o6 & Hcol & Hret & ->).
  injection Hret as <- <- <-.
  exists (InterpolateScalarsBeforeMappingOn m),
    (SetRenderAs (renderPointsAsSpheres settings) (renderLinesAsTubes settings) prp),
    s2, m', prp', (o1 ++ o3), o5.
  cbn [poly mapper property]. split_and!; try done.
  by rewrite app_nil_r, app_assoc.
Qed.

Lemma SetOpacity_look (x : Q) (p : vtkProperty) :
  GetColor (SetOpacity x p) = GetColor p ∧
  Ambient (SetOpacity x p) = Ambient p ∧
  Diffuse (SetOpacity x p) = Diffuse p ∧
  Specular (SetOpacity x p) = Specular p ∧
  SpecularPower (SetOpacity x p) = SpecularPower p.
Proof. done. Qed.

(** C1. An Actor built with no explicit colour ([c=None]): when its mesh
    has a named point or cell array whose lower-cased name contains
    neither "normals" nor "tcoord", the first such point array, or failing
    that the first such cell array, becomes the active scalars and the
    mapper shows scalars; when there is none, the actor is gold
    (1, 0.843, 0) with ambient 0.1, diffuse 1, specular 0.05 and specular
    power 5, and the mapper does not show scalars. *)
Theorem Actor_init_default_coloring (settings : Settings)
    (inputobj : InputObj) (alpha : option Q) (cn : bool)
    (σ σ' : store) (a : Actor) (out : list string) :
  Actor_init settings inputobj None alpha cn σ = Run (Returned a) σ' out →
  let pd := σ' !!! poly a in
  (∀ iarr, first_such (PointData pd) iarr →
     PointScalars pd = GetName iarr ∧
     ScalarVisibility (mapper a) = true ∧
     GetScalarMode (mapper a) = UsePointData) ∧
  (no_such (PointData pd) → ∀ iarr, first_such (CellData pd) iarr →
     CellScalars pd = GetName iarr ∧
     ScalarVisibility (mapper a) = true ∧
     GetScalarMode (mapper a) = UseCellData) ∧
  (no_such (PointData pd) → no_such (CellData pd) →
     GetColor (property a) = gold ∧
     Ambient (property a) = 0.1%Q ∧
     Diffuse (property a) = 1%Q ∧
     Specular (property a) = 0.05%Q ∧
     SpecularPower (property a) = 5%Q ∧
     ScalarVisibility (mapper a) = false).
Proof.
  intros (m & prp & σ1 & m' & prp' & o1 & o2 & Hcol & _ & Hm & Hp)%Actor_init_inv pd.
  destruct (set_color_None (poly a) m prp σ1)
    as (m'' & prp'' & σ'' & Hcol' & HPD & HCD & _ & _ & _ & Hcases).
  rewrite Hcol in Hcol'. injection Hcol' as <- <- <- ->.
  subst pd. rewrite HPD, HCD. rewrite Hm.
  split_and!.
  - intros iarr Hf%first_qualifying_Some. rewrite Hf in Hcases.
    destruct Hcases as (-> & Hv & Hmode & _).
    split_and!; [by eapply first_qualifying_name | done..].
  - intros Hno%first_qualifying_None iarr Hf%first_qualifying_Some.
    rewrite Hno, Hf in Hcases. destruct Hcases as (-> & Hv & Hmode & _).
    split_and!; [by eapply first_qualifying_name | done..].
  - intros Hnop%first_qualifying_None Hnoc%first_qualifying_None.
    rewrite Hnop, Hnoc in Hcases. destruct Hcases as (_ & Hv & ->).
    rewrite Hp. destruct alpha; done.
Qed.

(** The colouring block always returns, and touches only the active
    scalar names of the mesh it is given. *)
Lemma set_color_frame (c : option ColorSpec) (l : loc)
    (m : vtkPolyDataMapper) (prp : vtkProperty) (σ : store) :
  ∃ m' prp' σ',
    set_color c l m prp σ = Run (Returned (m', prp')) σ' [] ∧
    Points (σ' !!! l) = Points (σ !!! l) ∧
    Verts (σ' !!! l) = Verts (σ !!! l) ∧
    Lines (σ' !!! l) = Lines (σ !!! l) ∧
    Polys (σ' !!! l) = Polys (σ !!! l) ∧
    Strips (σ' !!! l) = Strips (σ !!! l) ∧
    (∀ l', l' ≠ l → σ' !!! l' = σ !!! l').
Proof.
  unfold set_color.
  cbv [mbind M_bind bind mret M_ret ret update load result final console].
  destruct c as [c|];
    destruct (first_qualifying (PointData (σ !!! l))) as [pa|] eqn:Hp;
    destruct (first_qualifying (CellData (σ !!! l))) as [ca|] eqn:Hc;
    cbn [app];
    eexists _, _, _; (split; [reflexivity|]);
    rewrite ?lookup_total_insert_eq; cbn;
    split_and!; try done;
    intros l' Hl'; by rewrite !lookup_total_insert_ne.
Qed.

(** The second half of the constructor always returns; of the mesh it is
    given it changes at most the active scalar names. *)
Lemma Actor_finish_frame (settings : Settings) (c : option ColorSpec)
    (alpha : option Q) (cn : bool) (l : loc) (m : vtkPolyDataMapper)
    (prp : vtkProperty) (σ : store) :
  l ∈ dom σ →
  ∃ a σ',
    Actor_finish settings c alpha cn (l, m, prp) σ = Run (Returned a) σ' [] ∧
    Points (σ' !!! l) = Points (σ !!! l) ∧ Verts (σ' !!! l) = Verts (σ !!! l) ∧
    Lines (σ' !!! l) = Lines (σ !!! l) ∧ Polys (σ' !!! l) = Polys (σ !!! l) ∧
    Strips (σ' !!! l) = Strips (σ !!! l) ∧
    (default cn (computeNormals settings) = false → poly a = l) ∧
    matrix a = identity4x4.
Proof.
  intros Hdom. unfold Actor_finish.
  cbv [mbind M_bind bind mret M_ret ret update load alloc].
  destruct (default cn (computeNormals settings)) eqn:Hcn;
    cbn [result final console].
  - set (l2 := fresh (dom σ)).
    assert (Hne : l ≠ l2).
    { intros Heq. apply (is_fresh (dom σ)). fold l2. by rewrite <- Heq. }
    set (σ2 := <[l2 := vtkPolyDataNormals (σ !!! l)]> σ).
    destruct (set_color_frame c l2
                (InterpolateScalarsBeforeMappingOn m)
                (SetRenderAs (renderPointsAsSpheres settings)
                             (renderLinesAsTubes settings) prp) σ2)
      as (m' & prp' & σ' & -> & _ & _ & _ & _ & _ & Hframe).
    cbn. eexists _, σ'. split; [reflexivity|].
    rewrite (Hframe l Hne). unfold σ2. by rewrite lookup_total_insert_ne.
  - destruct (set_color_frame c l
                (InterpolateScalarsBeforeMappingOn m)
                (SetRenderAs (renderPointsAsSpheres settings)
                             (renderLinesAsTubes settings) prp) σ)
      as (m' & prp' & σ' & -> & HPts & HV & HLi & HPo & HSt & _).
    cbn. eexists _, σ'. split; [reflexivity|].
    by rewrite HPts, HV, HLi, HPo, HSt.
Qed.

(** The same for the points object of the mesh. *)
Lemma set_color_GetPoints (c : option ColorSpec) (l : loc)
    (m : vtkPolyDataMapper) (prp : vtkProperty) (σ : store) :
  ∃ m' prp' σ',
    set_color c l m prp σ = Run (Returned (m', prp')) σ' [] ∧
    GetPoints (σ' !!! l) = GetPoints (σ !!! l).
Proof.
  unfold set_color.
  cbv [mbind M_bind bind mret M_ret ret update load result final console].
  destruct c as [c|];
    destruct (first_qualifying (PointData (σ !!! l))) as [pa|] eqn:Hp;
    destruct (first_qualifying (CellData (σ !!! l))) as [ca|] eqn:Hc;
    cbn [app];
    eexists _, _, _; (split; [reflexivity|]);
    by rewrite ?lookup_total_insert_eq.
Qed.

Lemma Actor_finish_GetPoints (settings : Settings) (c : option ColorSpec)
    (alpha : option Q) (cn : bool) (l : loc) (m : vtkPolyDataMapper)
    (prp : vtkProperty) (σ : store) :
  l ∈ dom σ →
  ∃ a σ',
    Actor_finish settings c alpha cn (l, m, prp) σ = Run (Returned a) σ' [] ∧
    GetPoints (σ' !!! l) = GetPoints (σ !!! l) ∧
    (default cn (computeNormals settings) = false → poly a = l) ∧
    matrix a = identity4x4.
Proof.
  intros Hdom. unfold Actor_finish.
  cbv [mbind M_bind bind mret M_ret ret update load alloc].
  destruct (default cn (computeNormals settings)) eqn:Hcn;
    cbn [result final console].
  - set (l2 := fresh (dom σ)).
    assert (Hne : l ≠ l2).
    { intros Heq. apply (is_fresh (dom σ)). fold l2. by rewrite <- Heq. }
    set (σ2 := <[l2 := vtkPolyDataNormals (σ !!! l)]> σ).
    destruct (set_color_frame c l2
                (InterpolateScalarsBeforeMappingOn m)
                (SetRenderAs (renderPointsAsSpheres settings)
                             (renderLinesAsTubes settings) prp) σ2)
      as (m' & prp' & σ' & -> & _ & _ & _ & _ & _ & Hframe).
    cbn. eexists _, σ'. split; [reflexivity|].
    rewrite (Hframe l Hne). unfold σ2. by rewrite lookup_total_insert_ne.
  - destruct (set_color_GetPoints c l
                (InterpolateScalarsBeforeMappingOn m)
                (SetRenderAs (renderPointsAsSpheres settings)
                             (renderLinesAsTubes settings) prp) σ)
      as (m' & prp' & σ' & -> & HPts).
    cbn. eexists _, σ'. split; [reflexivity|]. by rewrite HPts.
Qed.

(** The vertex cells the constructor gives a mesh that has no cells. *)
Lemma Actor_init_PolyData (settings : Settings) (l : loc)
    (c : option ColorSpec) (alpha : option Q) (cn : bool) (σ : store) :
  ∃ a σ',
    Actor_init settings (InPolyData l) c alpha cn σ = Run (Returned a) σ' [] ∧
    let pd1 := if GetNumberOfCells (σ !!! l) =? 0
               then SetVerts (map (λ i, [i])
                                  (seq 0 (GetNumberOfPoints (σ !!! l))))
                             (σ !!! l)
               else σ !!! l in
    Points (σ' !!! l) = Points pd1 ∧ Verts (σ' !!! l) = Verts pd1 ∧
    Lines (σ' !!! l) = Lines pd1 ∧ Polys (σ' !!! l) = Polys pd1 ∧
    Strips (σ' !!! l) = Strips pd1 ∧
    (default cn (computeNormals settings) = false → poly a = l).
Proof.
  unfold Actor_init.
  rewrite bind_run. cbv [mbind M_bind bind mret M_ret ret update load].
  cbn [result final console].
  destruct (GetNumberOfCells (σ !!! l) =? 0) eqn:E; cbn [result final console app].
  - set (pd1 := SetVerts _ (σ !!! l)).
    destruct (Actor_finish_frame settings c alpha cn l newMapper newProperty
                (<[l := pd1]> σ))
      as (a & σ' & -> & HPts & HV & HLi & HPo & HSt & Halias & _).
    { apply elem_of_dom. rewrite lookup_insert_eq. by eexists. }
    rewrite lookup_total_insert_eq in *. cbn [result final console].
    by exists a, σ'.
  - destruct (Actor_finish_frame settings c alpha cn l newMapper newProperty σ)
      as (a & σ' & -> & HPts & HV & HLi & HPo & HSt & Halias & _).
    { apply elem_of_dom. destruct (σ !! l) as [pd|] eqn:Hl; [by eexists|].
      rewrite lookup_total_alt, Hl in E. done. }
    cbn [result final console]. by exists a, σ'.
Qed.

(** The constructor returns an actor for every input it knows, and only
    prints and raises for the others. *)
Lemma Actor_init_total (settings : Settings) (inputobj : InputObj)
    (c : option ColorSpec) (alpha : option Q) (cn : bool) (σ : store) :
  match inputobj with
  | InOther inputtype =>
      Actor_init settings inputobj c alpha cn σ =
        Run (Raised RuntimeError) σ
            [("Error: cannot build Actor from type:" +:+ inputtype)%string]
  | _ => ∃ a σ', Actor_init settings inputobj c alpha cn σ = Run (Returned a) σ' []
  end.
Proof.
  assert (Hfresh : ∀ pd m prp,
            ∃ a σ', Actor_finish settings c alpha cn (fresh (dom σ), m, prp)
                      (<[fresh (dom σ) := pd]> σ) = Run (Returned a) σ' []).
  { intros pd m prp.
    destruct (Actor_finish_frame settings c alpha cn (fresh (dom σ)) m prp
                (<[fresh (dom σ) := pd]> σ)) as (a & σ' & Hr & _).
    - apply elem_of_dom. rewrite lookup_insert_eq. by eexists.
    - by exists a, σ'. }
  destruct inputobj as [|a0|l|g|t|v f|v|ty]; unfold Actor_init.
  - rewrite (bind_step _ _ σ (<[fresh (dom σ) := emptyPolyData]> σ)
               (fresh (dom σ), newMapper, newProperty)) by done.
    apply Hfresh.
  - rewrite (bind_step _ _ σ (<[fresh (dom σ) := σ !!! poly a0]> σ)
               (fresh (dom σ),
                mkMapper (ScalarVisibility (mapper a0)) ScalarModeDefault (0, 1)%Q false,
                property a0)) by done.
    apply Hfresh.
  - destruct (Actor_init_PolyData settings l c alpha cn σ) as (a & σ' & Hr & _).
    by exists a, σ'.
  - rewrite (bind_step _ _ σ (<[fresh (dom σ) := _]> σ)
               (fresh (dom σ), newMapper, newProperty)) by done.
    apply Hfresh.
  - rewrite (bind_step _ _ σ (<[fresh (dom σ) := trimesh2vtk t]> σ)
               (fresh (dom σ), newMapper, newProperty)) by done.
    apply Hfresh.
  - rewrite (bind_step _ _ σ (<[fresh (dom σ) := buildPolyData v (Some f)]> σ)
               (fresh (dom σ), newMapper, newProperty)) by done.
    apply Hfresh.
  - rewrite (bind_step _ _ σ (<[fresh (dom σ) := _]> σ)
               (fresh (dom σ), newMapper, newProperty)) by done.
    apply Hfresh.
  - done.
Qed.

(** C10. Building an Actor from a native mesh object that has no cells
    puts one single-point vertex cell per point into that very object:
    afterwards the caller's object has as many cells as points, and
    (unless normals are computed, which makes a new mesh) it is the
    actor's own mesh, not a copy. *)
Theorem Actor_init_point_cloud (settings : Settings) (l : loc)
    (c : option ColorSpec) (alpha : option Q) (cn : bool) (σ : store) :
  GetNumberOfCells (σ !!! l) = 0 →
  ∃ a σ',
    Actor_init settings (InPolyData l) c alpha cn σ = Run (Returned a) σ' [] ∧
    Verts (σ' !!! l) = map (λ i, [i]) (seq 0 (GetNumberOfPoints (σ !!! l))) ∧
    Points (σ' !!! l) = Points (σ !!! l) ∧
    GetNumberOfCells (σ' !!! l) = GetNumberOfPoints (σ' !!! l) ∧
    (default cn (computeNormals settings) = false → poly a = l).
Proof.
  intros Hcells.
  assert (Hparts : Lines (σ !!! l) = [] ∧ Polys (σ !!! l) = [] ∧
                   Strips (σ !!! l) = []).
  { unfold GetNumberOfCells in Hcells.
    destruct (Lines (σ !!! l)), (Polys (σ !!! l)), (Strips (σ !!! l));
      simpl in Hcells; try lia; done. }
  destruct Hparts as (HL & HP & HS).
  destruct (Actor_init_PolyData settings l c alpha cn σ)
    as (a & σ' & Hr & HPts & HV & HLi & HPo & HSt & Halias).
  rewrite Hcells in *. cbn in HPts, HV, HLi, HPo, HSt.
  rewrite Points_SetVerts in HPts.
  exists a, σ'. split_and!; [done..| |done].
  unfold GetNumberOfCells, GetNumberOfPoints in *.
  rewrite HPts, HV, HLi, HPo, HSt, HL, HP, HS. cbn.
  rewrite length_map, length_seq. lia.
Qed.

End ActorColoring.

(** A mesh with point arrays "Normals" and "pressure" and a cell array
    "material": the point array "pressure" colours the actor. *)
Lemma Actor_init_default_coloring_witness :
  ∃ a σ' out,
    Actor_init (H := pass_through) default_settings (InPolyData 1%positive)
               None (Some 1%Q) false {[ 1%positive := sample_mesh ]}
      = Run (Returned a) σ' out ∧
    PointScalars (σ' !!! poly a) = Some "pressure"%string ∧
    ScalarVisibility (mapper a) = true ∧
    GetScalarMode (mapper a) = UsePointData.
Proof.
  destruct (Actor_init (H := pass_through) default_settings
              (InPolyData 1%positive) None (Some 1%Q) false
              {[ 1%positive := sample_mesh ]}) as [[a|e] σ' out] eqn:Hr;
    [|vm_compute in Hr; discriminate].
  exists a, σ', out. split; [reflexivity|].
  destruct (Actor_init_default_coloring (H := pass_through) _ _ _ _ _ _ _ _ Hr)
    as (Hpt & _ & _).
  vm_compute in Hr. injection Hr as <- <- <-.
  apply (Hpt (mkArray (Some "pressure"%string) (0, 1)%Q)).
  apply first_qualifying_Some. reflexivity.
Defined.

(** Three bare points handed over as a native mesh. *)
Lemma Actor_init_point_cloud_witness :
  ∃ a σ',
    Actor_init (H := pass_through) default_settings (InPolyData 1%positive)
               None (Some 1%Q) false {[ 1%positive := three_points ]}
      = Run (Returned a) σ' [] ∧
    Verts (σ' !!! 1%positive) = [[0]; [1]; [2]] ∧
    poly a = 1%positive.
Proof.
  destruct (Actor_init_point_cloud (H := pass_through) default_settings
              1%positive None (Some 1%Q) false {[ 1%positive := three_points ]})
    as (a & σ' & Hr & HV & _ & _ & Halias); [reflexivity|].
  exists a, σ'. split_and!; [exact Hr | exact HV | by apply Halias].
Defined.

(** ** Volumes *)

Lemma clamp_to_in_type (ty : ScalarType) (v : Z) : in_type ty (clamp_to ty v).
Proof.
  unfold in_type, clamp_to.
  assert (GetScalarTypeMin ty ≤ GetScalarTypeMax ty)%Z by (by destruct ty).
  destruct (Z.ltb_spec v (GetScalarTypeMin ty)); [lia|].
  destruct (Z.gtb_spec v (GetScalarTypeMax ty)); lia.
Qed.

Lemma clamp_to_id (ty : ScalarType) (v : Z) : in_type ty v → clamp_to ty v = v.
Proof.
  unfold in_type, clamp_to. intros Hv.
  destruct (Z.ltb_spec v (GetScalarTypeMin ty)); [lia|].
  destruct (Z.gtb_spec v (GetScalarTypeMax ty)); lia.
Qed.

Lemma clamp_to_le (ty : ScalarType) (v x : Z) :
  in_type ty x → ((v ≤ x)%Z → (clamp_to ty v ≤ x)%Z) ∧
                 ((x ≤ v)%Z → (x ≤ clamp_to ty v)%Z).
Proof.
  unfold in_type, clamp_to. intros Hx.
  destruct (Z.ltb_spec v (GetScalarTypeMin ty)); [lia|].
  destruct (Z.gtb_spec v (GetScalarTypeMax ty)); lia.
Qed.

(** Which voxels the filter takes as "in": those between the thresholds
    after these were brought into the scalar type. *)
Lemma is_in_selected (ty : ScalarType) (vmin vmax : option Z) (r x : Z) :
  in_type ty x →
  is_in ty (threshold_filter vmin vmax r) x = true ↔
  selected (clamp_given ty vmin) (clamp_given ty vmax) x.
Proof.
  unfold in_type. intros Hx.
  destruct vmin as [lo|], vmax as [hi|];
    unfold is_in, lower_of, upper_of; cbn;
    rewrite andb_true_iff, !Z.leb_le; lia.
Qed.

Lemma selected_clamp_given (ty : ScalarType) (vmin vmax : option Z) (x : Z) :
  in_type ty x → selected vmin vmax x →
  selected (clamp_given ty vmin) (clamp_given ty vmax) x.
Proof.
  intros Hx.
  destruct vmin as [lo|], vmax as [hi|]; cbn; try done.
  - intros [Hlo Hhi]. split.
    + by apply (clamp_to_le ty lo x).
    + by apply (clamp_to_le ty hi x).
  - by apply (clamp_to_le ty lo x).
  - by apply (clamp_to_le ty hi x).
Qed.

Lemma threshold_voxel_selected (ty : ScalarType) (vmin vmax : option Z)
    (r x : Z) :
  let th := threshold_filter vmin vmax r in
  in_type ty x →
  (selected (clamp_given ty vmin) (clamp_given ty vmax) x →
     threshold_voxel ty th x = clamp_to ty r) ∧
  (¬ selected (clamp_given ty vmin) (clamp_given ty vmax) x →
     threshold_voxel ty th x = x).
Proof.
  intros th Hx. pose proof (is_in_selected ty vmin vmax r x Hx) as Hin.
  unfold threshold_voxel. fold th in Hin.
  assert (ReplaceIn th = true ∧ InValue th = r ∧ ReplaceOut th = false)
    as (-> & -> & ->) by (by destruct vmin, vmax).
  destruct (is_in ty th x); split; intros Hs; try done.
  - destruct Hs. by apply Hin.
  - assert (false = true) by (by apply Hin). done.
Qed.

(** What [threshold] does, by what [float] can take of its arguments. *)
Lemma threshold_overflow (self : Volume) (vmin vmax replaceWith : option Z) :
  given_fits vmin && given_fits vmax = false →
  threshold vmin vmax replaceWith self = Run (Raised OverflowError) self [].
Proof.
  unfold threshold, as_double.
  destruct vmin as [lo|], vmax as [hi|]; cbn [given_fits andb]; try done;
    repeat match goal with
           | |- context [float_fits ?v] => destruct (float_fits v) eqn:?
           end; done.
Qed.

Lemma threshold_None (self : Volume) (vmin vmax : option Z) :
  given_fits vmin && given_fits vmax = true →
  threshold vmin vmax None self =
    Run (Raised RuntimeError) self
        ["Error in threshold(); you must provide replaceWith"%string].
Proof.
  rewrite andb_true_iff. intros [Hlo Hhi]. unfold threshold, as_double.
  destruct vmin as [lo|], vmax as [hi|]; cbn [given_fits] in Hlo, Hhi;
    cbv [mbind M_bind bind mret M_ret ret get raise printc result final
         console app]; by rewrite ?Hlo, ?Hhi.
Qed.

Lemma threshold_Some_overflow (self : Volume) (vmin vmax : option Z) (r : Z) :
  given_fits vmin && given_fits vmax = true → float_fits r = false →
  threshold vmin vmax (Some r) self = Run (Raised OverflowError) self [].
Proof.
  rewrite andb_true_iff. intros [Hlo Hhi] Hr. unfold threshold, as_double.
  destruct vmin as [lo|], vmax as [hi|]; cbn [given_fits] in Hlo, Hhi;
    cbv [mbind M_bind bind mret M_ret ret get raise printc result final
         console app]; by rewrite ?Hlo, ?Hhi, ?Hr.
Qed.

Lemma threshold_Some (self : Volume) (vmin vmax : option Z) (r : Z) :
  given_fits vmin && given_fits vmax = true → float_fits r = true →
  threshold vmin vmax (Some r) self =
    Run (Returned ())
        (mkVolume (threshold_output (threshold_filter vmin vmax r)
                                    (imagedata self))) [].
Proof.
  rewrite andb_true_iff. intros [Hlo Hhi] Hr.
  unfold threshold, as_double, _updateVolume.
  destruct vmin as [lo|], vmax as [hi|]; cbn [given_fits] in Hlo, Hhi;
    cbv [mbind M_bind bind mret M_ret ret get put raise printc result final
         console app]; by rewrite ?Hlo, ?Hhi, ?Hr.
Qed.

Example threshold_between :
  Voxels (imagedata (final (threshold (Some 10%Z) (Some 15%Z) (Some 0%Z)
                                      sample_volume)))
    = [5; 0; 0; 20]%Z.
Proof. reflexivity. Qed.

Example threshold_by_lower :
  Voxels (imagedata (final (threshold (Some 10%Z) None (Some 0%Z) sample_volume)))
    = [0; 0; 15; 20]%Z.
Proof. reflexivity. Qed.

(** The replacement value 300 does not fit the 8-bit voxels of the sample:
    they get 255. *)
Example threshold_replacement_clamped :
  Voxels (imagedata (final (threshold (Some 10%Z) (Some 15%Z) (Some 300%Z)
                                      sample_volume)))
    = [5; 255; 255; 20]%Z.
Proof. reflexivity. Qed.

(** An upper threshold below the scalar type is raised to its minimum. *)
Example threshold_bound_clamped :
  Voxels (imagedata (final (threshold None (Some (-7)%Z) (Some 1%Z)
                                      (mkVolume (mkImage (2, 1, 1)%Z
                                         VTK_UNSIGNED_CHAR [0; 3]%Z)))))
    = [1; 1]%Z.
Proof. reflexivity. Qed.

(** C2, as the code has it. Thresholds that [float] cannot take raise
    [OverflowError] first.  Otherwise [Volume.threshold] without
    [replaceWith] prints an error, raises [RuntimeError] and leaves the
    volume's image as it was; with a [replaceWith] that [float] cannot take
    it raises [OverflowError]; with any other it returns, and every voxel in
    the selected range gets [replaceWith] brought into the range of the
    image's scalar type, which is [replaceWith] itself when that is a scalar
    of the type.  The voxels outside the range of the thresholds, these
    brought into the scalar type too, keep their scalar. *)
Theorem threshold_replaceWith (self : Volume) (vmin vmax : option Z) :
  let ty := GetScalarType (imagedata self) in
  (given_fits vmin && given_fits vmax = false →
     ∀ replaceWith : option Z,
       threshold vmin vmax replaceWith self =
         Run (Raised OverflowError) self []) ∧
  (given_fits vmin && given_fits vmax = true →
     threshold vmin vmax None self =
       Run (Raised RuntimeError) self
           ["Error in threshold(); you must provide replaceWith"%string] ∧
     ∀ r : Z,
       (float_fits r = false →
          threshold vmin vmax (Some r) self =
            Run (Raised OverflowError) self []) ∧
       (float_fits r = true →
          ∃ self',
            threshold vmin vmax (Some r) self = Run (Returned ()) self' [] ∧
            GetDimensions (imagedata self') = GetDimensions (imagedata self) ∧
            GetScalarType (imagedata self') = ty ∧
            (in_type ty r → clamp_to ty r = r) ∧
            ∀ (i : nat) (x : Z),
              Voxels (imagedata self) !! i = Some x → in_type ty x →
              (selected vmin vmax x →
                 Voxels (imagedata self') !! i = Some (clamp_to ty r)) ∧
              (¬ selected (clamp_given ty vmin) (clamp_given ty vmax) x →
                 Voxels (imagedata self') !! i = Some x))).
Proof.
  intros ty. split.
  { intros Hfits replaceWith. by apply threshold_overflow. }
  intros Hfits. split; [by apply threshold_None|].
  intros r. split; [by apply threshold_Some_overflow|].
  intros Hr. eexists. split; [by apply threshold_Some|].
  split; [reflexivity|]. split; [reflexivity|].
  split; [apply clamp_to_id|].
  intros i x Hx Hty. cbn. rewrite list_lookup_fmap, Hx. cbn. fold ty.
  destruct (threshold_voxel_selected ty vmin vmax r x Hty) as [Hin Hout].
  split; intros Hs; f_equal.
  - apply Hin. by apply selected_clamp_given.
  - by apply Hout.
Qed.

(** On the sample: no [replaceWith] raises, and thresholding between 10
    and 15 with 0 returns. *)
Lemma threshold_replaceWith_witness :
  threshold (Some 10%Z) (Some 15%Z) None sample_volume =
    Run (Raised RuntimeError) sample_volume
        ["Error in threshold(); you must provide replaceWith"%string] ∧
  ∃ self',
    threshold (Some 10%Z) (Some 15%Z) (Some 0%Z) sample_volume =
      Run (Returned ()) self' [].
Proof.
  destruct (threshold_replaceWith sample_volume (Some 10%Z) (Some 15%Z))
    as [_ Hfits].
  destruct Hfits as [Hnone Hsome]; [reflexivity|].
  split; [exact Hnone|].
  destruct (Hsome 0%Z) as [_ Hret].
  destruct Hret as (self' & Hrun & _); [reflexivity|].
  by exists self'.
Defined.

(** C2, as stated, fails: 300 is not what the 8-bit voxels of the sample
    that lie between 10 and 15 get. *)
Lemma threshold_replaceWith_fails : ¬ threshold_claim.
Proof.
  intros Hclaim.
  destruct (Hclaim sample_volume (Some 10%Z) (Some 15%Z)) as [_ Hsome].
  destruct (Hsome 300%Z) as (self' & Hrun & Hvox).
  specialize (Hvox 1%nat 10%Z eq_refl). cbn in Hvox.
  vm_compute in Hrun. injection Hrun as <-.
  specialize (Hvox ltac:(lia)). vm_compute in Hvox. discriminate.
Qed.

Lemma slice_index_min (n i : Z) :
  (if (i >? n - 1)%Z then (n - 1)%Z else i) = Z.min i (n - 1).
Proof. destruct (Z.gtb_spec i (n - 1)); lia. Qed.

Lemma int_fits_iff (v : Z) : int_fits v = true ↔ (- 2 ^ 31 ≤ v < 2 ^ 31)%Z.
Proof. unfold int_fits. rewrite andb_true_iff, Z.leb_le, Z.ltb_lt. done. Qed.

Lemma kept_axis_max (lo hi : Z) :
  kept_axis lo hi = (Z.max 0 lo, Z.max hi (Z.max 0 lo)).
Proof.
  unfold kept_axis. destruct (Z.ltb_spec lo 0).
  - rewrite (Z.max_l 0 lo) by lia. destruct (Z.ltb_spec hi 0); f_equal; lia.
  - rewrite (Z.max_r 0 lo) by lia. destruct (Z.ltb_spec hi lo); f_equal; lia.
Qed.

Lemma SetExtent_returns {St} (x0 x1 y0 y1 z0 z1 : Z) (s : St) :
  int_fits x0 = true → int_fits x1 = true → int_fits y0 = true →
  int_fits y1 = true → int_fits z0 = true → int_fits z1 = true →
  SetExtent (x0, x1, y0, y1, z0, z1) s =
    Run (Returned (kept_extent (x0, x1, y0, y1, z0, z1))) s [].
Proof.
  intros Hx0 Hx1 Hy0 Hy1 Hz0 Hz1. unfold SetExtent, as_int.
  rewrite Hx0, Hx1, Hy0, Hy1, Hz0, Hz1. reflexivity.
Qed.

Section Slices.
Context `{Native}.

Lemma slice_actor_returns (settings : Settings) (self : Volume)
    (extent : Extent) (σ : store) :
  SetExtent extent σ = Run (Returned (kept_extent extent)) σ [] →
  returns_slice_actor settings self (kept_extent extent) σ
    (slice_actor settings self extent σ).
Proof.
  intros Hset. unfold returns_slice_actor, slice_actor.
  rewrite (bind_step _ _ σ σ (kept_extent extent)) by done.
  rewrite bind_run. unfold alloc. cbn [result final console].
  set (l := fresh (dom σ)).
  set (out := vtkImageDataGeometryFilter (imagedata self) (kept_extent extent)).
  destruct (Actor_init_PolyData settings l None (Some 1%Q) false (<[l := out]> σ))
    as (a & σ' & -> & HPts & _ & _ & _ & _ & Halias).
  rewrite lookup_total_insert_eq in HPts.
  exists a, σ', l. cbn [result final console app]. split_and!.
  - done.
  - apply is_fresh.
  - rewrite HPts. by destruct (GetNumberOfCells out =? 0).
  - intros Hs. apply Halias. by destruct (computeNormals settings) as [[]|].
Qed.

Lemma slice_actor_overflow (settings : Settings) (self : Volume)
    (extent : Extent) (σ : store) :
  SetExtent extent σ = Run (Raised OverflowError) σ [] →
  slice_actor settings self extent σ = Run (Raised OverflowError) σ [].
Proof. intros Hset. unfold slice_actor. by apply bind_raised. Qed.

(** C9, as the code has it, for a volume that has voxels along each axis.
    When the index is not below [-2^31], [xSlice], [ySlice] and [zSlice]
    return an Actor built on the plane at the index brought into the valid
    range of the axis: the methods bring it down to [n - 1] and the native
    filter brings it up to 0.  An index below [-2^31] is no C [int]: the
    three methods raise [OverflowError]. *)
Theorem slices_clamp_index (settings : Settings) (self : Volume)
    (i : Z) (σ : store) :
  let dims := GetDimensions (imagedata self) in
  let ex := kept_extent (xSlice_extent dims i) in
  let ey := kept_extent (ySlice_extent dims i) in
  let ez := kept_extent (zSlice_extent dims i) in
  axis_size dims.1.1 → axis_size dims.1.2 → axis_size dims.2 →
  ((- 2 ^ 31 ≤ i)%Z →
     x_index ex = Z.max 0 (Z.min i (dims.1.1 - 1)) ∧
     y_index ey = Z.max 0 (Z.min i (dims.1.2 - 1)) ∧
     z_index ez = Z.max 0 (Z.min i (dims.2 - 1)) ∧
     valid_index dims.1.1 (x_index ex) ∧
     valid_index dims.1.2 (y_index ey) ∧
     valid_index dims.2 (z_index ez) ∧
     returns_slice_actor settings self ex σ (xSlice settings self i σ) ∧
     returns_slice_actor settings self ey σ (ySlice settings self i σ) ∧
     returns_slice_actor settings self ez σ (zSlice settings self i σ)) ∧
  ((i < - 2 ^ 31)%Z →
     xSlice settings self i σ = Run (Raised OverflowError) σ [] ∧
     ySlice settings self i σ = Run (Raised OverflowError) σ [] ∧
     zSlice settings self i σ = Run (Raised OverflowError) σ []).
Proof.
  cbv zeta. destruct (GetDimensions (imagedata self)) as [[nx ny] nz] eqn:Hd.
  unfold xSlice, ySlice, zSlice, axis_size. rewrite Hd.
  cbn [fst snd]. intros Hnx Hny Hnz.
  unfold xSlice_extent, ySlice_extent, zSlice_extent.
  rewrite !slice_index_min. split.
  - intros Hi.
    assert (∀ n, (0 < n < 2 ^ 31)%Z → int_fits (Z.min i (n - 1)) = true)
      as Hmin by (intros n Hn; apply int_fits_iff; lia).
    assert (∀ n, (0 < n < 2 ^ 31)%Z → int_fits n = true)
      as Hdim by (intros n Hn; apply int_fits_iff; lia).
    split_and!.
    4-6: unfold valid_index.
    1-6: unfold kept_extent; rewrite !kept_axis_max;
         cbn [x_index y_index z_index]; lia.
    all: apply slice_actor_returns, SetExtent_returns; auto.
  - intros Hi.
    assert (∀ n, (0 < n < 2 ^ 31)%Z → int_fits (Z.min i (n - 1)) = false)
      as Hmin.
    { intros n Hn. apply not_true_is_false. rewrite int_fits_iff. lia. }
    assert (∀ n, (0 < n < 2 ^ 31)%Z → int_fits n = true)
      as Hdim by (intros n Hn; apply int_fits_iff; lia).
    split_and!; apply slice_actor_overflow; unfold SetExtent, as_int;
      rewrite ?(Hmin nx), ?(Hmin ny), ?(Hmin nz),
        ?(Hdim nx), ?(Hdim ny), ?(Hdim nz) by done; reflexivity.
Qed.

End Slices.

(** A 2 x 2 x 1 volume: index 7 is brought down to the last plane of each
    axis, and index -1 up to the first. *)
Lemma slices_clamp_index_witness :
  x_index (kept_extent (xSlice_extent (2, 2, 1)%Z 7)) = 1%Z ∧
  z_index (kept_extent (zSlice_extent (2, 2, 1)%Z 7)) = 0%Z ∧
  y_index (kept_extent (ySlice_extent (2, 2, 1)%Z (-1))) = 0%Z.
Proof.
  destruct (slices_clamp_index (H := pass_through) default_settings
              sample_volume 7%Z ∅) as [Hin _]; [by vm_compute..|].
  destruct Hin as (Hx & _ & Hz & _); [by vm_compute|].
  destruct (slices_clamp_index (H := pass_through) default_settings
              sample_volume (-1)%Z ∅) as [Hneg _]; [by vm_compute..|].
  destruct Hneg as (_ & Hy & _); [by vm_compute|].
  split_and!; [exact Hx | exact Hz | exact Hy].
Defined.

(** C9, as stated, fails: an index below [-2^31] is not clamped, the call
    raises. *)
Lemma slices_index_overflow : ¬ slices_clamp_into_range.
Proof.
  intros Hclaim.
  destruct (Hclaim pass_through default_settings sample_volume
              (- 2 ^ 31 - 1)%Z ∅) as (ex & _ & _ & _ & _ & _ & Hret & _);
    [by vm_compute..|].
  destruct Hret as (a & σ' & l & Hrun & _).
  vm_compute in Hrun. discriminate.
Qed.

(** ** Coordinates *)

Section Coordinates.
Context `{Native}.

Lemma isIdentity_identity4x4 : isIdentity identity_tolerance identity4x4 = true.
Proof.
  unfold isIdentity. cbn -[Qle_bool Qabs Qminus].
  rewrite !andb_true_iff, !Qle_bool_iff.
  repeat split; exact identity_tolerance_nonneg.
Qed.

Lemma coordinates_identity (copy : bool) (self : Actor) (σ : store)
    (pts : list Point) :
  isIdentity identity_tolerance (matrix self) = true →
  GetPoints (σ !!! poly self) = Some pts →
  coordinates true copy self σ = Run (Returned pts) σ [].
Proof.
  intros Hid Hpts. unfold coordinates, polydata. cbn [negb]. rewrite Hid.
  rewrite (bind_step _ _ σ σ (poly self)) by done.
  rewrite (bind_step _ _ σ σ (σ !!! poly self)) by done.
  unfold GetPoints_GetData. by rewrite Hpts.
Qed.

Lemma coordinates_no_points (copy : bool) (self : Actor) (σ : store) :
  isIdentity identity_tolerance (matrix self) = true →
  GetPoints (σ !!! poly self) = None →
  coordinates true copy self σ = Run (Raised AttributeError) σ [].
Proof.
  intros Hid Hpts. unfold coordinates, polydata. cbn [negb]. rewrite Hid.
  rewrite (bind_step _ _ σ σ (poly self)) by done.
  rewrite (bind_step _ _ σ σ (σ !!! poly self)) by done.
  unfold GetPoints_GetData. by rewrite Hpts.
Qed.

Lemma setPoints_returns (pts old : list Point) (self : Actor) (σ : store) :
  GetPoints (σ !!! poly self) = Some old →
  setPoints pts self σ =
    Run (Returned (PokeMatrix identity4x4 self))
        (<[poly self := SetPoints pts (σ !!! poly self)]> σ) [].
Proof.
  intros Hpts. unfold setPoints.
  rewrite (bind_step _ _ σ σ (σ !!! poly self)) by done. by rewrite Hpts.
Qed.

Lemma setPoints_no_points (pts : list Point) (self : Actor) (σ : store) :
  GetPoints (σ !!! poly self) = None →
  setPoints pts self σ = Run (Raised AttributeError) σ [].
Proof.
  intros Hpts. unfold setPoints.
  rewrite (bind_step _ _ σ σ (σ !!! poly self)) by done. by rewrite Hpts.
Qed.

Lemma Actor_init_vertices_faces (settings : Settings)
    (vertices : list Point) (faces : list (list nat))
    (c : option ColorSpec) (alpha : option Q) (cn : bool) (σ : store) :
  default cn (computeNormals settings) = false →
  ∃ a σ',
    Actor_init settings (InVerticesFaces vertices faces) c alpha cn σ
      = Run (Returned a) σ' [] ∧
    matrix a = identity4x4 ∧ GetPoints (σ' !!! poly a) = Some vertices.
Proof.
  intros Hcn. unfold Actor_init.
  rewrite bind_run. cbv [mbind M_bind bind mret M_ret ret alloc].
  cbn [result final console app].
  set (l := fresh (dom σ)). set (pd := buildPolyData vertices (Some faces)).
  destruct (Actor_finish_GetPoints settings c alpha cn l newMapper newProperty
              (<[l := pd]> σ))
    as (a & σ' & -> & HPts & Halias & Hm).
  { apply elem_of_dom. rewrite lookup_insert_eq. by eexists. }
  exists a, σ'. cbn [result final console]. split_and!; [done..|].
  rewrite (Halias Hcn), HPts, lookup_total_insert_eq. done.
Qed.

(** C8, as the code has it. On a mesh that has a points object
    [setPoints(newCoords)] returns, the actor's matrix is then the identity
    and [coordinates()] returns [newCoords]; on a mesh without one, as that
    of [Actor()], [setPoints] raises [AttributeError] and changes nothing,
    and so does [coordinates()].  An actor whose matrix is the identity
    returns the points of its mesh as they are, so an actor just built from
    a vertex array, without the normals filter, returns that array. *)
Theorem coordinates_roundtrip (settings : Settings) (self : Actor)
    (newCoords vertices : list Point) (faces : list (list nat))
    (c : option ColorSpec) (alpha : option Q) (cn : bool) (σ : store) :
  (is_Some (GetPoints (σ !!! poly self)) →
     ∃ self' σ1,
       setPoints newCoords self σ = Run (Returned self') σ1 [] ∧
       matrix self' = identity4x4 ∧
       ∀ copy, coordinates true copy self' σ1 = Run (Returned newCoords) σ1 []) ∧
  (GetPoints (σ !!! poly self) = None →
     setPoints newCoords self σ = Run (Raised AttributeError) σ [] ∧
     (matrix self = identity4x4 →
        ∀ copy, coordinates true copy self σ = Run (Raised AttributeError) σ [])) ∧
  (matrix self = identity4x4 →
     ∀ pts, GetPoints (σ !!! poly self) = Some pts →
            coordinates true true self σ = Run (Returned pts) σ []) ∧
  (default cn (computeNormals settings) = false →
     ∃ a σ',
       Actor_init settings (InVerticesFaces vertices faces) c alpha cn σ
         = Run (Returned a) σ' [] ∧
       matrix a = identity4x4 ∧
       coordinates true true a σ' = Run (Returned vertices) σ' []).
Proof.
  split_and!.
  - intros [old Hold].
    exists (PokeMatrix identity4x4 self),
      (<[poly self := SetPoints newCoords (σ !!! poly self)]> σ).
    split; [by apply setPoints_returns with old|]. split; [reflexivity|].
    intros copy. apply coordinates_identity; [apply isIdentity_identity4x4|].
    cbn [poly PokeMatrix]. by rewrite lookup_total_insert_eq.
  - intros Hnone. split; [by apply setPoints_no_points|].
    intros Hid copy. apply coordinates_no_points; [|done].
    rewrite Hid. apply isIdentity_identity4x4.
  - intros Hid pts Hpts. apply coordinates_identity; [|done].
    rewrite Hid. apply isIdentity_identity4x4.
  - intros Hcn.
    destruct (Actor_init_vertices_faces settings vertices faces c alpha cn σ Hcn)
      as (a & σ' & Hr & Hm & HPts).
    exists a, σ'. split_and!; [done..|].
    apply coordinates_identity; [|done].
    rewrite Hm. apply isIdentity_identity4x4.
Qed.

End Coordinates.

Example coordinates_of_moved_actor :
  result (coordinates (H := pass_through) true true moved_actor
                      {[ 1%positive := sample_mesh ]})
    = Returned [(5, 0, 0); (6, 0, 0); (5, 1, 0)]%Q.
Proof. by vm_compute. Qed.

(** A triangle built from its vertex array. *)
Lemma coordinates_roundtrip_witness :
  ∃ a σ',
    Actor_init (H := pass_through) default_settings
               (InVerticesFaces [(0, 0, 0); (1, 0, 0); (0, 1, 0)]%Q [[0; 1; 2]])
               None (Some 1%Q) false ∅
      = Run (Returned a) σ' [] ∧
    coordinates (H := pass_through) true true a σ'
      = Run (Returned [(0, 0, 0); (1, 0, 0); (0, 1, 0)]%Q) σ' [].
Proof.
  destruct (coordinates_roundtrip (H := pass_through) default_settings
              moved_actor [] [(0, 0, 0); (1, 0, 0); (0, 1, 0)]%Q [[0; 1; 2]]
              None (Some 1%Q) false ∅)
    as (_ & _ & _ & Hbuilt).
  destruct Hbuilt as (a & σ' & Hr & _ & Hc); [reflexivity|].
  by exists a, σ'.
Defined.

(** [Actor()] is an actor on [vtk.vtkPolyData()], a mesh without a points
    object. *)
Example Actor_init_None_no_points :
  ∃ a σ',
    Actor_init (H := pass_through) default_settings InNone None (Some 1%Q) false ∅
      = Run (Returned a) σ' [] ∧
    matrix a = identity4x4 ∧ GetPoints (σ' !!! poly a) = None ∧
    GetNumberOfPoints (σ' !!! poly a) = 0.
Proof. eexists _, _. split; [reflexivity|]. by vm_compute. Qed.

(** C8, as stated, fails: on the mesh of [Actor()], which has no points
    and no points object, [setPoints] with an array of no points raises
    [AttributeError]. *)
Lemma coordinates_roundtrip_fails : ¬ coordinates_roundtrip_claim.
Proof.
  intros Hclaim.
  destruct (Hclaim pass_through
              (mkActor 1%positive newMapper newProperty None 0 identity4x4
                       None true)
              [] {[ 1%positive := emptyPolyData ]})
    as (self' & σ1 & Hset & _); [by apply elem_of_dom; eexists | reflexivity |].
  vm_compute in Hset. discriminate.
Qed.

(** ** Decimation *)

Lemma fraction_ge_1_nonzero (k : Z) (P : nat) :
  (1 <= inject_Z k / inject_Z (Z.of_nat P))%Q → (k =? 0)%Z = false.
Proof.
  intros Hge. apply Z.eqb_neq. intros ->.
  unfold Qle, Qdiv, Qmult in Hge. simpl in Hge. lia.
Qed.

Lemma fraction_double (P : nat) :
  0 < P → (1 <= inject_Z (2 * Z.of_nat P) / inject_Z (Z.of_nat P))%Q.
Proof.
  intros HP. apply Qle_shift_div_l.
  - unfold Qlt. simpl. lia.
  - unfold Qle. simpl. lia.
Qed.

Lemma float_fits_small (n : Z) : (Z.abs n < 2 ^ 64)%Z → float_fits n = true.
Proof.
  intros Hn. unfold float_fits. apply Z.ltb_lt.
  apply Z.lt_trans with (2 ^ 64)%Z; [done | by vm_compute].
Qed.

Lemma GetNumberOfPoints_transformed (M : vtkMatrix4x4) (pd : vtkPolyData) :
  GetNumberOfPoints (vtkTransformPolyDataFilter M pd) = GetNumberOfPoints pd.
Proof.
  unfold vtkTransformPolyDataFilter, GetNumberOfPoints, Points.
  destruct (GetPoints pd) as [pts|]; cbn; [|done].
  by rewrite length_map.
Qed.

Section Decimate.
Context `{Native}.

Lemma polydata_transformed (self : Actor) (σ : store) :
  poly self ∈ dom σ →
  ∃ l σ',
    polydata true self σ = Run (Returned l) σ' [] ∧
    GetNumberOfPoints (σ' !!! l) = GetNumberOfPoints (σ !!! poly self) ∧
    σ' !!! poly self = σ !!! poly self.
Proof.
  intros Hdom. unfold polydata. cbn [negb].
  destruct (isIdentity identity_tolerance (matrix self)).
  - by exists (poly self), σ.
  - rewrite bind_run. cbn [load alloc result final console app].
    eexists _, _. split; [reflexivity|].
    rewrite lookup_total_insert_eq. split.
    + apply GetNumberOfPoints_transformed.
    + rewrite lookup_total_insert_ne; [done|].
      intros Heq. apply (is_fresh (dom σ)). by rewrite Heq.
Qed.

Lemma decimate_fraction_ge_1 (self : Actor) (σ : store) (fraction : Q)
    (k : Z) (method : string) (boundaries : bool) :
  0 < GetNumberOfPoints (σ !!! poly self) →
  float_fits k = true →
  (1 <= inject_Z k / inject_Z (Z.of_nat (GetNumberOfPoints (σ !!! poly self))))%Q →
  ∃ σ',
    decimate fraction (Some k) method boundaries self σ
      = Run (Returned self) σ' [] ∧
    σ' !!! poly self = σ !!! poly self.
Proof.
  intros HP Hfits Hge.
  assert (Hdom : poly self ∈ dom σ).
  { apply elem_of_dom. destruct (σ !! poly self) as [pd|] eqn:Hl; [by eexists|].
    rewrite lookup_total_alt, Hl in HP. vm_compute in HP. lia. }
  destruct (polydata_transformed self σ Hdom) as (l & σ' & Hpoly & HN & Hsame).
  exists σ'. split; [|done].
  unfold decimate. rewrite bind_run, Hpoly. cbn [result final console].
  rewrite bind_run. cbn [load result final console].
  rewrite (fraction_ge_1_nonzero _ _ Hge), HN, Hfits. cbn [negb].
  destruct (GetNumberOfPoints (σ !!! poly self) =? 0) eqn:E;
    [apply Nat.eqb_eq in E; lia|].
  apply Qle_bool_iff in Hge. rewrite Hge. reflexivity.
Qed.

(** C5, as the code has it. On an actor with [P] points, [P] not zero,
    [decimate(N=k)] with a [k] that [float] can take makes [k/P] the
    fraction; when that is at least 1, and so for [k = 2*P], it returns the
    actor as it is and leaves its mesh alone. *)
Theorem decimate_noop (self : Actor) (σ : store) (fraction : Q) (k : Z)
    (method : string) (boundaries : bool) :
  let P := GetNumberOfPoints (σ !!! poly self) in
  0 < P →
  (float_fits k = true →
   (1 <= inject_Z k / inject_Z (Z.of_nat P))%Q →
     ∃ σ',
       decimate fraction (Some k) method boundaries self σ
         = Run (Returned self) σ' [] ∧
       σ' !!! poly self = σ !!! poly self) ∧
  ((Z.of_nat P < 2 ^ 63)%Z →
   ∃ σ',
     decimate fraction (Some (2 * Z.of_nat P)%Z) method boundaries self σ
       = Run (Returned self) σ' [] ∧
     σ' !!! poly self = σ !!! poly self).
Proof.
  intros P HP. split.
  - intros Hfits Hge. by apply decimate_fraction_ge_1.
  - intros Hid. apply decimate_fraction_ge_1; [done | |by apply fraction_double].
    apply float_fits_small. change (2 ^ 64)%Z with (2 * 2 ^ 63)%Z.
    rewrite Z.abs_eq by lia. lia.
Qed.

End Decimate.

(** The moved triangle, asked for six points. *)
Lemma decimate_noop_witness :
  ∃ σ',
    decimate (H := pass_through) 0.5 (Some 6%Z) "quadric" false moved_actor
             {[ 1%positive := sample_mesh ]}
      = Run (Returned moved_actor) σ' [] ∧
    σ' !!! 1%positive = sample_mesh.
Proof.
  destruct (decimate_noop (H := pass_through) moved_actor
              {[ 1%positive := sample_mesh ]} 0.5 6%Z "quadric" false)
    as [_ Hdouble]; [vm_compute; lia|].
  apply Hdouble. by vm_compute.
Defined.

(** C5, as stated, fails: on the mesh of [Actor()], with no points,
    [N = 2*0] is zero, [if N:] is not taken and the filter runs with the
    fraction given: the actor gets a new mesh object. *)
Lemma decimate_noop_fails : ¬ decimate_noop_claim.
Proof.
  intros Hclaim.
  destruct (Hclaim pass_through
              (mkActor 1%positive newMapper newProperty None 0 identity4x4
                       None true)
              {[ 1%positive := emptyPolyData ]} 0.5%Q "quadric"%string false)
    as (σ' & Hrun & _); [by apply elem_of_dom; eexists|].
  vm_compute in Hrun. discriminate.
Qed.

(** ** Thin-plate-spline warp *)

Lemma set_landmarks_in_range {St} (pts : list Point) (i n : nat) (s : St) :
  i + n ≤ length pts →
  set_landmarks pts (seq i n) s = Run (Returned (take n (drop i pts))) s [].
Proof.
  revert i. induction n as [|n IH]; intros i Hlen; [done|].
  cbn [seq set_landmarks].
  destruct (lookup_lt_is_Some_2 pts i) as [p Hp]; [lia|].
  unfold getitem. rewrite Hp.
  rewrite (bind_step _ _ s s p) by done.
  rewrite (bind_step _ _ s s (take n (drop (S i) pts))) by (apply IH; lia).
  by rewrite (drop_S _ _ _ Hp).
Qed.

Lemma set_landmarks_out_of_range {St} (pts : list Point) (i n : nat) (s : St) :
  i ≤ length pts < i + n →
  set_landmarks pts (seq i n) s = Run (Raised IndexError) s [].
Proof.
  revert i. induction n as [|n IH]; intros i Hlen; [lia|].
  cbn [seq set_landmarks]. unfold getitem.
  destruct (pts !! i) as [p|] eqn:Hp.
  - rewrite (bind_step _ _ s s p) by done.
    apply lookup_lt_Some in Hp.
    by rewrite (bind_raised _ _ s s IndexError []) by (apply IH; lia).
  - by rewrite (bind_raised _ _ s s IndexError []).
Qed.

Section ThinPlateSpline.
Context `{Native}.

Lemma polydata_returns (transformed : bool) (self : Actor) (σ : store) :
  ∃ l σ', polydata transformed self σ = Run (Returned l) σ' [].
Proof.
  unfold polydata.
  destruct (negb transformed); [by eexists _, _|].
  destruct (isIdentity identity_tolerance (matrix self)); by eexists _, _.
Qed.

Lemma transformFilter_returns (settings : Settings) (l : loc)
    (transform : vtkThinPlateSplineTransform) (σ : store) :
  ∃ tfa σ', transformFilter settings l transform σ = Run (Returned tfa) σ' [].
Proof.
  unfold transformFilter.
  rewrite (bind_step _ _ σ σ (σ !!! l)) by done.
  rewrite bind_run. cbn [alloc result final console app].
  destruct (Actor_init_PolyData settings (fresh (dom σ)) None (Some 1%Q) false
              (<[fresh (dom σ) := vtkThinPlateSplineWarp (Basis transform)
                   (SourceLandmarks transform) (TargetLandmarks transform)
                   (σ !!! l)]> σ)) as (a & σ' & -> & _).
  by exists a, σ'.
Qed.

(** C6, what the code does. [thinPlateSpline] compares the number of
    source points with itself, so no mismatch is ever reported: with more
    target points than source points it returns a warped actor built on the
    first target points, and with fewer it stops with an [IndexError] and
    an empty console. *)
Theorem thinPlateSpline_mismatch_unreported (settings : Settings)
    (actor : Actor) (sourcePts targetPts : list Point)
    (userFunctions : option BasisFunctions) (σ : store) :
  (length sourcePts < length targetPts →
     ∃ tfa transform σ',
       thinPlateSpline settings actor sourcePts targetPts userFunctions σ
         = Run (Returned (tfa, transform)) σ' [] ∧
       SourceLandmarks transform = sourcePts ∧
       TargetLandmarks transform = take (length sourcePts) targetPts) ∧
  (length targetPts < length sourcePts →
     thinPlateSpline settings actor sourcePts targetPts userFunctions σ
       = Run (Raised IndexError) σ []).
Proof.
  unfold thinPlateSpline. split; intros Hlen.
  - rewrite (bind_step _ _ σ σ sourcePts).
    2:{ rewrite set_landmarks_in_range by (cbn; lia). by rewrite drop_0, firstn_all. }
    rewrite Nat.eqb_refl. cbn [negb].
    rewrite (bind_step _ _ σ σ tt) by done.
    rewrite (bind_step _ _ σ σ (take (length sourcePts) targetPts)).
    2:{ rewrite set_landmarks_in_range by (cbn; lia). by rewrite drop_0. }
    destruct (polydata_returns true actor σ) as (l & σ1 & Hl).
    rewrite (bind_step _ _ σ σ1 l) by done.
    set (transform := mkThinPlate _ _ _ _).
    destruct (transformFilter_returns settings l transform σ1)
      as (tfa & σ' & Htf).
    rewrite (bind_step _ _ σ1 σ' tfa) by done.
    by exists tfa, transform, σ'.
  - rewrite (bind_step _ _ σ σ sourcePts).
    2:{ rewrite set_landmarks_in_range by (cbn; lia). by rewrite drop_0, firstn_all. }
    rewrite Nat.eqb_refl. cbn [negb].
    rewrite (bind_step _ _ σ σ tt) by done.
    apply bind_raised. apply set_landmarks_out_of_range. lia.
Qed.

End ThinPlateSpline.

Example thinPlateSpline_shorter_target :
  let r := thinPlateSpline (H := pass_through) default_settings moved_actor
             [(0, 0, 0)%Q; (1, 0, 0)%Q] [(1, 1, 1)%Q] None
             {[ 1%positive := sample_mesh ]} in
  result r = Raised IndexError ∧ console r = [].
Proof. by vm_compute. Qed.

(** One source point against two target points: no error, a warped actor. *)
Lemma thinPlateSpline_mismatch_unreported_witness :
  ∃ tfa transform σ',
    thinPlateSpline (H := pass_through) default_settings moved_actor
      [(0, 0, 0)%Q] [(1, 1, 1)%Q; (2, 2, 2)%Q] None
      {[ 1%positive := sample_mesh ]}
      = Run (Returned (tfa, transform)) σ' [] ∧
    SourceLandmarks transform = [(0, 0, 0)%Q] ∧
    TargetLandmarks transform = [(1, 1, 1)%Q].
Proof.
  destruct (thinPlateSpline_mismatch_unreported (H := pass_through)
              default_settings moved_actor
              [(0, 0, 0)%Q] [(1, 1, 1)%Q; (2, 2, 2)%Q] None
              {[ 1%positive := sample_mesh ]}) as [Hlonger _].
  apply Hlonger. cbn. lia.
Defined.

(** ** Opacity keys *)

Ltac run_body :=
  cbv [key_body mbind M_bind bind mret M_ret ret get put raise
       result final console app].

Lemma GetOpacity_set_opacity (x : Q) (a : SceneProp) :
  GetOpacity (set_opacity x a) = clamp01 x.
Proof. by destruct a. Qed.

Lemma GetOpacity_stash_backface (a : SceneProp) :
  GetOpacity (stash_backface a) = GetOpacity a.
Proof.
  destruct a as [act|prp [bf|] pick]; try done.
  unfold stash_backface. cbn. by destruct (backface act).
Qed.

Lemma GetOpacity_SetBackfaceProperty (bf : option vtkProperty) (a : SceneProp) :
  GetOpacity (SetBackfaceProperty bf a) = GetOpacity a.
Proof. by destruct a. Qed.

Lemma clamp01_bounds (x : Q) : (0 <= clamp01 x <= 1)%Q.
Proof.
  unfold clamp01.
  destruct (Qle_bool x 0) eqn:E0; [lra|].
  destruct (Qle_bool 1 x) eqn:E1; [lra|].
  assert (¬ (x <= 0)%Q) by (rewrite <- Qle_bool_iff; congruence).
  assert (¬ (1 <= x)%Q) by (rewrite <- Qle_bool_iff; congruence).
  lra.
Qed.

Lemma clamp01_id (x : Q) : (0 < x < 1)%Q → clamp01 x = x.
Proof.
  intros Hx. unfold clamp01.
  destruct (Qle_bool x 0) eqn:E0; [apply Qle_bool_iff in E0; lra|].
  destruct (Qle_bool 1 x) eqn:E1; [apply Qle_bool_iff in E1; lra|done].
Qed.

Lemma max2_floor (x : Q) : (0.01 <= max2 x 0.01)%Q ∧ (x <= max2 x 0.01)%Q.
Proof.
  unfold max2. destruct (Qle_bool 0.01 x) eqn:E.
  - apply Qle_bool_iff in E. lra.
  - assert (¬ (0.01 <= x)%Q) by (rewrite <- Qle_bool_iff; congruence). lra.
Qed.

Lemma min2_ceiling (x : Q) : (min2 x 1.0 <= 1)%Q ∧ (min2 x 1.0 <= x)%Q.
Proof.
  unfold min2. destruct (Qle_bool x 1.0) eqn:E.
  - apply Qle_bool_iff in E. lra.
  - assert (¬ (x <= 1.0)%Q) by (rewrite <- Qle_bool_iff; congruence). lra.
Qed.

(** [,] never takes an actor below 0.01. *)
Lemma key_comma_floor (on_clicked : bool) (a : SceneProp) :
  ∃ a', key_body Key_comma on_clicked a = Run (Returned ()) a' [] ∧
        (0.01 <= GetOpacity a' <= 1)%Q ∧
        ((0.01 <= GetOpacity a * 0.75)%Q → (GetOpacity a <= 1)%Q →
         GetOpacity a' = max2 (GetOpacity a * 0.75) 0.01).
Proof.
  exists (stash_backface (set_opacity (max2 (GetOpacity a * 0.75) 0.01) a)).
  split; [reflexivity|].
  rewrite GetOpacity_stash_backface, GetOpacity_set_opacity.
  pose proof (max2_floor (GetOpacity a * 0.75)) as [Hlo Hx].
  pose proof (clamp01_bounds (max2 (GetOpacity a * 0.75) 0.01)) as Hb.
  split.
  - split; [|apply Hb]. unfold clamp01 in *.
    destruct (Qle_bool _ 0) eqn:E0; [apply Qle_bool_iff in E0; lra|].
    destruct (Qle_bool 1 _) eqn:E1; [lra | done].
  - intros Hge Hle. unfold max2. apply Qle_bool_iff in Hge as Hge'.
    rewrite Hge'. apply clamp01_id. lra.
Qed.

(** [.] never takes an actor above 1. *)
Lemma key_period_ceiling (on_clicked : bool) (a : SceneProp) :
  ∃ a', key_body Key_period on_clicked a = Run (Returned ()) a' [] ∧
        (0 <= GetOpacity a' <= 1)%Q.
Proof.
  run_body. set (aal := min2 (GetOpacity a * 1.25) 1.0).
  destruct (Qeq_bool aal 1), (stashed_bfprop (set_opacity aal a));
    eexists; (split; [reflexivity|]);
    rewrite ?GetOpacity_SetBackfaceProperty, GetOpacity_set_opacity;
    apply clamp01_bounds.
Qed.

(** [/] on the clicked actor: opacity 1 and the stashed back face back. *)
Lemma key_slash_clicked (a : SceneProp) :
  ∃ a', key_body Key_slash true a = Run (Returned ()) a' [] ∧
        GetOpacity a' = 1%Q ∧
        ∀ bfp, stashed_bfprop a = Some bfp → GetBackfaceProperty a' = Some bfp.
Proof.
  run_body.
  destruct a as [act|prp bf pick]; cbn.
  - destruct (_bfprop act) as [bfp|] eqn:E; eexists; (split; [reflexivity|]);
      cbn; split; try done; by intros ? [= <-].
  - eexists. split; [reflexivity|]. done.
Qed.

(** [/] in the loop over all listed actors: an actor with a stashed back
    face gets opacity 1, then the handler raises and the back face stays
    stashed. *)
Lemma key_slash_listed (a : SceneProp) (bfp : vtkProperty) :
  stashed_bfprop a = Some bfp →
  key_body Key_slash false a = Run (Raised AttributeError) (set_opacity 1 a) [].
Proof.
  intros Hst. run_body.
  destruct a as [act|prp bf pick]; cbn in *; [|done]. by rewrite Hst.
Qed.

Example keypress_comma_listed :
  let r := _keypress Key_comma sample_plotter in
  result r = Returned () ∧ (GetOpacity <$> actors (final r)) = [0.375%Q; 0.1875%Q].
Proof. by vm_compute. Qed.

Example keypress_slash_clicked :
  let r := _keypress Key_slash
             (mkPlotter (actors sample_plotter) None (Some 0)) in
  result r = Returned () ∧
  (GetOpacity <$> actors (final r)) = [1%Q; 0.25%Q] ∧
  (GetBackfaceProperty <$> actors (final r)) = [Some newProperty; None].
Proof. by vm_compute. Qed.

(** C3, where the code departs from it. With no actor clicked, [/] on a
    scene whose first actor has a stashed back-face property raises
    [AttributeError]: that actor is set to opacity 1 but its back face is not
    restored, and the actor after it keeps its opacity of 0.25. *)
Theorem keypress_slash_listed_raises :
  ∃ self',
    _keypress Key_slash sample_plotter = Run (Raised AttributeError) self' [] ∧
    (GetOpacity <$> actors self') = [1%Q; 0.25%Q] ∧
    (GetBackfaceProperty <$> actors self') = [None; None] ∧
    (stashed_bfprop <$> actors self') = [Some newProperty; None].
Proof. eexists. split; [reflexivity|]. by vm_compute. Qed.

(** ** Trails *)

Lemma norm_lt_spec (v : Point) (s : Q) :
  norm_lt v s = true ↔ (0 < s)%Q ∧ (norm2 v < s * s)%Q.
Proof.
  unfold norm_lt, Qlt_bool. rewrite andb_true_iff, !negb_true_iff.
  rewrite <- !not_true_iff_false, !Qle_bool_iff. split.
  - intros [H1 H2]. split; by apply Qnot_le_lt.
  - intros [H1 H2]. split; by apply Qlt_not_le.
Qed.

Lemma offset_given_returns {St} (o : Offset) (s : St) :
  is_array o = false → ∃ b, offset_given o s = Run (Returned b) s [].
Proof. destruct o; [by exists false | by exists true | done]. Qed.

Lemma updateTrail_array (self : Node) :
  is_array (trailOffset self) = true →
  updateTrail self = Run (Raised ValueError) self [].
Proof.
  intros Ho. unfold updateTrail. rewrite (bind_step _ _ self self self) by done.
  apply bind_raised. by destruct (trailOffset self).
Qed.

Lemma updateTrail_empty (self : Node) :
  is_array (trailOffset self) = false → trailPoints self = [] →
  updateTrail self = Run (Raised IndexError) self [].
Proof.
  intros Ho Hnil. unfold updateTrail.
  rewrite (bind_step _ _ self self self) by done.
  destruct (offset_given_returns (trailOffset self) self Ho) as [b Hb].
  rewrite (bind_step _ _ self self b) by done. by rewrite Hnil.
Qed.

Lemma updateTrail_fill (self : Node) :
  is_array (trailOffset self) = false →
  last (trailPoints self) = Some None →
  updateTrail self =
    Run (Returned false)
        (mkNode (GetPosition self) (diagonalSize self) (trail self)
                (replicate (length (trailPoints self)) (Some (currentpos self)))
                (trailSegmentSize self) (trailOffset self)) [].
Proof.
  intros Ho Hl. unfold updateTrail.
  rewrite (bind_step _ _ self self self) by done.
  destruct (offset_given_returns (trailOffset self) self Ho) as [b Hb].
  rewrite (bind_step _ _ self self b) by done. by rewrite Hl.
Qed.

Lemma updateTrail_skip (self : Node) (lastpos : Point) :
  is_array (trailOffset self) = false →
  last (trailPoints self) = Some (Some lastpos) →
  norm_below (vec_sub (currentpos self) lastpos) (trailSegmentSize self) = true →
  updateTrail self = Run (Returned false) self [].
Proof.
  intros Ho Hl Hn. unfold updateTrail.
  rewrite (bind_step _ _ self self self) by done.
  destruct (offset_given_returns (trailOffset self) self Ho) as [b Hb].
  rewrite (bind_step _ _ self self b) by done. by rewrite Hl, Hn.
Qed.

Lemma updateTrail_append (self : Node) (lastpos : Point) :
  is_array (trailOffset self) = false →
  last (trailPoints self) = Some (Some lastpos) →
  norm_below (vec_sub (currentpos self) lastpos) (trailSegmentSize self) = false →
  updateTrail self =
    Run (Returned true)
        (let points := tail (trailPoints self ++ [Some (currentpos self)]) in
         mkNode (GetPosition self) (diagonalSize self)
                (Some (default (currentpos self) <$> points)) points
                (trailSegmentSize self) (trailOffset self)) [].
Proof.
  intros Ho Hl Hn. unfold updateTrail.
  rewrite (bind_step _ _ self self self) by done.
  destruct (offset_given_returns (trailOffset self) self Ho) as [b Hb].
  rewrite (bind_step _ _ self self b) by done. by rewrite Hl, Hn.
Qed.

Lemma length_tail_snoc {A} (l : list A) (x : A) :
  length (tail (l ++ [x])) = length l.
Proof. destruct l; cbn; [done|]. rewrite length_app. cbn. lia. Qed.

Lemma spaced_from_append (seg : Q) (j : nat) (buf : list (option Point))
    (lastpos cur : Point) :
  last buf = Some (Some lastpos) →
  norm_lt (vec_sub cur lastpos) seg = false →
  spaced_from seg j buf →
  spaced_from seg (j - 1) (tail (buf ++ [Some cur])).
Proof.
  intros Hl Hn Hsp i x y Hi Hx Hy.
  rewrite lookup_tail in Hx, Hy.
  rewrite last_lookup in Hl.
  assert (Hlen : 0 < length buf) by (destruct buf; [done | cbn; lia]).
  destruct (decide (S (S i) < length buf)) as [Hin|Hout].
  - rewrite lookup_app_l in Hx, Hy by lia.
    apply (Hsp (S i) x y); [lia | done..].
  - destruct (decide (S (S i) = length buf)) as [Heq|Hne].
    + rewrite lookup_app_l in Hx by lia.
      rewrite lookup_app_r in Hy by lia.
      replace (S (S i) - length buf) with 0 in Hy by lia.
      replace (pred (length buf)) with (S i) in Hl by lia.
      cbn in Hy. simplify_eq. by exists lastpos, cur.
    + apply lookup_lt_Some in Hy. rewrite length_app in Hy. cbn in Hy. lia.
Qed.

(** Once the buffer holds recorded points only, a motion keeps its length
    and each appended position pushes the unspaced prefix out by one. *)
Lemma walk_recorded (path : list Point) (self : Node) (seg : Q) (j : nat) :
  is_array (trailOffset self) = false →
  trailSegmentSize self = Finite seg →
  0 < length (trailPoints self) →
  Forall is_Some (trailPoints self) →
  spaced_from seg j (trailPoints self) →
  ∃ self' k,
    walk path self = Run (Returned k) self' [] ∧
    length (trailPoints self') = length (trailPoints self) ∧
    spaced_from seg (j - k) (trailPoints self').
Proof.
  revert self j.
  induction path as [|p path IH]; intros self j Ho Hseg Hlen Hall Hsp.
  - exists self, 0. split_and!; [done..|]. by rewrite Nat.sub_0_r.
  - cbn [walk].
    set (moved := mkNode p (diagonalSize self) (trail self) (trailPoints self)
                         (trailSegmentSize self) (trailOffset self)).
    rewrite (bind_step _ _ self moved tt) by done.
    assert (∃ lastpos, last (trailPoints moved) = Some (Some lastpos))
      as [lastpos Hlast].
    { cbn. rewrite last_lookup.
      destruct (lookup_lt_is_Some_2 (trailPoints self)
                  (pred (length (trailPoints self)))) as [x Hx]; [lia|].
      rewrite Hx. rewrite Forall_lookup in Hall.
      destruct (Hall _ _ Hx) as [lp ->]. by exists lp. }
    destruct (norm_lt (vec_sub (currentpos moved) lastpos) seg) eqn:Hn.
    + rewrite (bind_step _ _ moved moved false)
        by (apply updateTrail_skip with lastpos; [done..|];
            cbn [trailSegmentSize moved]; by rewrite Hseg).
      destruct (IH moved j Ho Hseg Hlen Hall Hsp)
        as (self' & k & Hw & Hl' & Hsp').
      rewrite (bind_step _ _ moved self' k) by done.
      exists self', k. by split_and!.
    + rewrite (bind_step _ _ moved _ true)
        by (apply updateTrail_append with lastpos; [done..|];
            cbn [trailSegmentSize moved]; by rewrite Hseg).
      cbv zeta.
      set (next := mkNode _ _ _ _ _ _).
      assert (Hlen' : length (trailPoints next) = length (trailPoints self)).
      { cbn. apply length_tail_snoc. }
      destruct (IH next (j - 1)) as (self' & k & Hw & Hl' & Hsp').
      * done.
      * done.
      * lia.
      * cbn. apply Forall_tail, Forall_app. split; [done|].
        apply Forall_singleton. by eexists.
      * cbn. by apply spaced_from_append with lastpos.
      * rewrite (bind_step _ _ next self' k) by done.
        exists self', (1 + k). split_and!; [done | lia |].
        cbn in Hsp'. by replace (j - (1 + k)) with (j - 1 - k) by lia.
Qed.

(** C4, as the code has it. After [addTrail(maxlength=M, n=N)] the buffer
    holds [N] empty entries.  The first [updateTrail] fills it with [N]
    copies of the current position; every later call appends the current
    position and drops the oldest one when the position is not closer than
    [M/N] to the last recorded one, and changes nothing otherwise.  So the
    buffer always holds [N] entries, and once [N - 1] positions have been
    appended, neighbours in it are never closer than [M/N].  This is for
    no offset and for an offset given as a list or tuple; with an offset
    given as a numpy array [updateTrail] raises [ValueError]. *)
Theorem trail_append_on_threshold (offset : Offset) (M : Q) (N : nat)
    (node0 : Node) (path : list Point) :
  trail node0 = None → 0 < N →
  let seg := (M / inject_Z (Z.of_nat N))%Q in
  (is_array offset = false →
   ∃ node1 node2 k,
     addTrail offset (Some M) N node0 = Run (Returned ()) node1 [] ∧
     trailPoints node1 = replicate N None ∧
     trailSegmentSize node1 = Finite seg ∧
     walk path node1 = Run (Returned k) node2 [] ∧
     length (trailPoints node2) = N ∧
     (N - 1 ≤ k → never_closer seg (trailPoints node2))) ∧
  (∀ self : Node,
     is_array (trailOffset self) = false →
     last (trailPoints self) = Some None →
     ∃ self', updateTrail self = Run (Returned false) self' [] ∧
       trailPoints self' =
         replicate (length (trailPoints self)) (Some (currentpos self))) ∧
  (∀ (self : Node) (lastpos : Point),
     is_array (trailOffset self) = false →
     last (trailPoints self) = Some (Some lastpos) →
     (norm_below (vec_sub (currentpos self) lastpos) (trailSegmentSize self) = true →
        updateTrail self = Run (Returned false) self []) ∧
     (norm_below (vec_sub (currentpos self) lastpos) (trailSegmentSize self) = false →
        ∃ self', updateTrail self = Run (Returned true) self' [] ∧
          trailPoints self' = tail (trailPoints self) ++ [Some (currentpos self)])) ∧
  (∀ self : Node,
     is_array (trailOffset self) = true →
     updateTrail self = Run (Raised ValueError) self []).
Proof.
  intros Htrail HN seg. split_and!.
  - intros Ho.
    set (node1 := mkNode (GetPosition node0) (diagonalSize node0)
                         (Some (replicate N (GetPosition node0)))
                         (replicate N None) (Finite seg) offset).
    assert (Hadd : addTrail offset (Some M) N node0 = Run (Returned ()) node1 []).
    { unfold addTrail, divide. rewrite (bind_step _ _ node0 node0 node0) by done.
      rewrite Htrail. by destruct (Nat.eqb_spec N 0) as [->|_]; [lia|]. }
    destruct path as [|p path].
    + exists node1, node1, 0.
      split_and!; [done.. | cbn; by rewrite length_replicate |].
      intros Hk i x y _ Hx Hy. apply lookup_lt_Some in Hy.
      cbn in Hy. rewrite length_replicate in Hy. lia.
    + cbn [walk].
      set (moved := mkNode p (diagonalSize node1) (trail node1) (trailPoints node1)
                           (trailSegmentSize node1) (trailOffset node1)).
      assert (Hlast : last (trailPoints moved) = Some None).
      { cbn. rewrite last_lookup, length_replicate.
        apply lookup_replicate. split; [done | lia]. }
      pose proof (updateTrail_fill moved Ho Hlast) as Hfill.
      set (filled := mkNode _ _ _ _ _ _) in Hfill.
      destruct (walk_recorded path filled seg (N - 1))
        as (node2 & k & Hw & Hl & Hsp).
      * done.
      * done.
      * cbn. rewrite !length_replicate. lia.
      * cbn. apply Forall_replicate. by eexists.
      * intros i x y Hi Hx Hy. apply lookup_lt_Some in Hy.
        cbn in Hy. rewrite !length_replicate in Hy. lia.
      * exists node1, node2, k. cbn in Hl. rewrite !length_replicate in Hl.
        split_and!; [done..| | done |].
        -- rewrite (bind_step _ _ node1 moved tt) by done.
           rewrite (bind_step _ _ moved filled false) by done.
           by rewrite (bind_step _ _ filled node2 k) by done.
        -- intros Hk. unfold never_closer.
           by replace (N - 1 - k) with 0 in Hsp by lia.
  - intros self Ho Hl. rewrite updateTrail_fill by done. by eexists.
  - intros self lastpos Ho Hl. split; intros Hn.
    + by apply updateTrail_skip with lastpos.
    + rewrite (updateTrail_append self lastpos) by done.
      eexists. split; [reflexivity|]. cbn.
      destruct (trailPoints self); [done | reflexivity].
  - apply updateTrail_array.
Qed.

(** A trail of three segments, for a node that makes five steps of 0.9. *)
Lemma trail_append_on_threshold_witness :
  ∃ node1 node2 k,
    addTrail NoOffset (Some 3%Q) 3 resting_node = Run (Returned ()) node1 [] ∧
    walk steps_along_x node1 = Run (Returned k) node2 [] ∧
    length (trailPoints node2) = 3 ∧
    never_closer (3 / 3)%Q (trailPoints node2).
Proof.
  destruct (trail_append_on_threshold NoOffset 3%Q 3 resting_node
              steps_along_x) as (Hrun & _); [reflexivity | lia |].
  destruct Hrun as (node1 & node2 & k & Hadd & _ & _ & Hwalk & Hlen & Hsp);
    [reflexivity|].
  exists node1, node2, k. split_and!; [done..|].
  vm_compute in Hadd. injection Hadd as <-.
  vm_compute in Hwalk. injection Hwalk as <- <-.
  apply Hsp. lia.
Defined.

(** C4, as stated, fails: with four segments over a length of 4, a node
    that went 4.5 along x in steps of 0.9 has had two positions appended,
    and the first two entries of its buffer are still the same point. *)
Lemma trail_density_fails : ¬ trail_density_claim.
Proof.
  intros Hclaim.
  pose (node1 := final (addTrail NoOffset (Some 4%Q) 4 resting_node)).
  pose (node2 := final (walk steps_along_x node1)).
  destruct (Hclaim 4%Q 4 resting_node node1 node2 steps_along_x 2)
    as [_ Hsp]; [reflexivity | lia | reflexivity | reflexivity | reflexivity | |].
  - vm_compute. discriminate.
  - destruct (Hsp 0 (Some (0.9, 0, 0)%Q) (Some (0.9, 0, 0)%Q))
      as (p & q & [= <-] & [= <-] & Hn); [lia | reflexivity | reflexivity |].
    vm_compute in Hn. discriminate.
Qed.

(** ** Normalisation *)

Section RealGeometryFacts.
Local Open Scope R_scope.

Lemma rsum_cons (x : R) (l : list R) : rsum (x :: l) = x + rsum l.
Proof. reflexivity. Qed.

Lemma rsum_scaled_shifted (proj : RPoint → R) (s : R) (c : RPoint) (pts : list RPoint) :
  (∀ p, proj (rscale s (rsub p c)) = s * (proj p - proj c)) →
  rsum (proj <$> ((fun p => rscale s (rsub p c)) <$> pts))
  = s * (rsum (proj <$> pts) - INR (length pts) * proj c).
Proof.
  intros Hproj. induction pts as [|p pts IH].
  - cbn. ring.
  - rewrite !fmap_cons, !rsum_cons, IH, Hproj. cbn [length]. rewrite S_INR. ring.
Qed.

Lemma rsum_sq_split (pts : list RPoint) :
  rsum ((fun p => px p * px p) <$> pts) + rsum ((fun p => py p * py p) <$> pts)
    + rsum ((fun p => pz p * pz p) <$> pts)
  = rsum (sq <$> pts).
Proof.
  induction pts as [|p pts IH].
  - cbn. ring.
  - rewrite !fmap_cons, !rsum_cons, <- IH. unfold sq. ring.
Qed.

Lemma rsum_sq_scaled (s : R) (c : RPoint) (pts : list RPoint) :
  rsum ((fun q => sq (rsub q (0, 0, 0))) <$> ((fun p => rscale s (rsub p c)) <$> pts))
  = s * s * rsum (sq <$> ((fun p => rsub p c) <$> pts)).
Proof.
  induction pts as [|p pts IH].
  - cbn. ring.
  - rewrite !fmap_cons, !rsum_cons, IH.
    unfold sq, rsub, rscale, px, py, pz. cbn. ring.
Qed.

(** What [normalize] does reach on an actor that is not moved and whose
    points are not all in one place: the centre of mass is at the origin and
    the root mean square of the distances to it is 1. *)
Lemma normalize_unmoved (pts : list RPoint) :
  let self := mkRActor pts None in
  0 < rsum (sq <$> ((fun p => rsub p (centerOfMass self)) <$> pts)) →
  centerOfMass (normalize self) = (0, 0, 0) ∧
  rootMeanSquareSize (normalize self) = 1.
Proof.
  intros self HD.
  assert (Hne : pts ≠ []) by (intros ->; cbn in HD; lra).
  assert (Hn : 0 < INR (length pts)).
  { destruct pts; [done|]. apply lt_0_INR. cbn. lia. }
  set (c := centerOfMass self) in *.
  set (D := rsum (sq <$> ((fun p => rsub p c) <$> pts))) in *.
  set (s := 1 / sqrt (D / INR (length pts))).
  assert (Hnorm : normalize self =
            mkRActor ((fun p => rscale s (rsub p c)) <$> pts) None).
  { unfold normalize. fold c. unfold placed_points. cbn [placement raw_points self].
    destruct pts as [|p0 pts']; [done|].
    cbv zeta. cbn [px py pz fst snd]. rewrite rsum_sq_split, length_fmap.
    reflexivity. }
  assert (Hroot : 0 < sqrt (D / INR (length pts))).
  { apply sqrt_lt_R0. by apply Rdiv_lt_0_compat. }
  assert (Hcm : centerOfMass (normalize self) = (0, 0, 0)).
  { rewrite Hnorm. unfold centerOfMass, placed_points.
    cbn [placement raw_points]. rewrite length_fmap.
    rewrite !rsum_scaled_shifted by (intros; reflexivity).
    unfold c, centerOfMass, placed_points. cbn [placement raw_points self px py pz fst snd].
    f_equal; [f_equal|]; field; lra. }
  split; [done|].
  unfold rootMeanSquareSize. rewrite Hcm. rewrite Hnorm.
  unfold placed_points. cbn [placement raw_points]. rewrite length_fmap.
  rewrite rsum_sq_scaled. fold D.
  replace (s * s * D / INR (length pts)) with 1; [apply sqrt_1|].
  unfold s.
  assert (Hsq : sqrt (D / INR (length pts)) * sqrt (D / INR (length pts))
                = D / INR (length pts)).
  { apply sqrt_sqrt. apply Rlt_le. by apply Rdiv_lt_0_compat. }
  set (r := sqrt (D / INR (length pts))) in *.
  replace (1 / r * (1 / r) * D / INR (length pts))
    with ((D / INR (length pts)) / (r * r)) by (field; lra).
  rewrite Hsq. field. split; lra.
Qed.

Lemma centerOfMass_four : centerOfMass four_on_a_line = (0, 0, 0).
Proof.
  unfold centerOfMass, four_on_a_line, placed_points. cbn.
  unfold px, py, pz. cbn. f_equal; [f_equal|]; field.
Qed.

(** The scale is the inverse of the root of the mean squared distance,
    here [1 / sqrt ((49 + 1 + 1 + 49) / 4) = 1 / 5]. *)
Lemma normalize_four :
  normalize four_on_a_line =
    mkRActor [(-7/5, 0, 0); (-1/5, 0, 0); (1/5, 0, 0); (7/5, 0, 0)] None.
Proof.
  unfold normalize. rewrite centerOfMass_four.
  unfold four_on_a_line, placed_points. cbn.
  unfold rscale, rsub, px, py, pz. cbn.
  match goal with
  | |- context [sqrt ?x] => replace x with (5 * 5) by field
  end.
  rewrite sqrt_square by lra.
  repeat f_equal; field.
Qed.

Lemma centerOfMass_normalized :
  centerOfMass (normalize four_on_a_line) = (0, 0, 0).
Proof.
  rewrite normalize_four.
  unfold centerOfMass, placed_points. cbn.
  unfold px, py, pz. cbn. f_equal; [f_equal|]; field.
Qed.

Lemma mag_on_x (x : R) : mag (x, 0, 0) = Rabs x.
Proof.
  unfold mag, px, py, pz. cbn.
  replace (x * x + 0 * 0 + 0 * 0) with (x²) by (unfold Rsqr; ring).
  apply sqrt_Rsqr_abs.
Qed.

Lemma averageSize_normalized :
  averageSize (normalize four_on_a_line) = 4 / 5.
Proof.
  unfold averageSize. rewrite centerOfMass_normalized, normalize_four.
  unfold placed_points. cbn [placement raw_points length].
  change (Z.to_nat (Z.of_nat 4 / 10000) + 1)%nat with 1%nat.
  cbn [strided_from Nat.sub fmap list_fmap length].
  unfold rsub. cbn [px py pz fst snd].
  replace (0 - 0) with 0 by ring.
  rewrite !Rminus_0_r, !mag_on_x.
  cbn [rsum fold_right INR].
  rewrite !Rabs_left by lra. rewrite !Rabs_right by lra.
  field.
Qed.

(** C7, where the code departs from it. [normalize] divides by the root
    mean square of the distances to the centre of mass, not by their mean:
    the four points -7, -1, 1, 7 on the x axis end up at -7/5, -1/5, 1/5,
    7/5, with the centre of mass at the origin and an average size
    ([averageSize], the mean distance) of 4/5, not 1. *)
Theorem normalize_average_size_not_unit :
  raw_points (normalize four_on_a_line)
    = [(-7/5, 0, 0); (-1/5, 0, 0); (1/5, 0, 0); (7/5, 0, 0)] ∧
  centerOfMass (normalize four_on_a_line) = (0, 0, 0) ∧
  averageSize (normalize four_on_a_line) = 4 / 5 ∧
  averageSize (normalize four_on_a_line) ≠ 1.
Proof.
  split_and!.
  - by rewrite normalize_four.
  - apply centerOfMass_normalized.
  - apply averageSize_normalized.
  - rewrite averageSize_normalized. lra.
Qed.

End RealGeometryFacts.

(** * More properties *)

(** ** The constructor and the meshes it shares *)

Section ActorMeshes.
Context `{Native}.

(** The colouring block touches no mesh but the one it is given. *)
Lemma set_color_others (c : option ColorSpec) (l : loc)
    (m : vtkPolyDataMapper) (prp : vtkProperty) (σ : store) :
  ∃ m' prp' σ',
    set_color c l m prp σ = Run (Returned (m', prp')) σ' [] ∧
    (∀ l', l' ≠ l → σ' !! l' = σ !! l') ∧
    (l ∈ dom σ → dom σ' = dom σ) ∧
    GetPoints (σ' !!! l) = GetPoints (σ !!! l).
Proof.
  unfold set_color.
  cbv [mbind M_bind bind mret M_ret ret update load result final console].
  destruct c as [c|];
    destruct (first_qualifying (PointData (σ !!! l))) as [pa|] eqn:Hp;
    destruct (first_qualifying (CellData (σ !!! l))) as [ca|] eqn:Hc;
    cbn [app];
    eexists _, _, _; (split; [reflexivity|]);
    rewrite ?lookup_total_insert_eq; cbn;
    split_and!; try done;
    try (intros l' Hl'; by rewrite !lookup_insert_ne);
    intros Hdom%elem_of_dom; by rewrite ?insert_insert_eq, ?dom_insert_lookup_L.
Qed.

(** The second half of the constructor: the actor's mesh is the one it was
    given or a new object, its matrix is the identity, and no other mesh of
    the store is changed. *)
Lemma Actor_finish_others (settings : Settings) (c : option ColorSpec)
    (alpha : option Q) (cn : bool) (l : loc) (m : vtkPolyDataMapper)
    (prp : vtkProperty) (σ : store) :
  l ∈ dom σ →
  ∃ a σ',
    Actor_finish settings c alpha cn (l, m, prp) σ = Run (Returned a) σ' [] ∧
    (poly a = l ∨ poly a ∉ dom σ) ∧
    (default cn (computeNormals settings) = false → poly a = l) ∧
    poly a ∈ dom σ' ∧
    matrix a = identity4x4 ∧
    (∀ l', l' ∈ dom σ → l' ≠ l → σ' !! l' = σ !! l') ∧
    (poly a ≠ l → σ' !! l = σ !! l) ∧
    GetPoints (σ' !!! l) = GetPoints (σ !!! l).
Proof.
  intros Hdom. unfold Actor_finish.
  cbv [mbind M_bind bind mret M_ret ret update load alloc].
  destruct (default cn (computeNormals settings)) eqn:Hcn;
    cbn [result final console].
  - set (l2 := fresh (dom σ)).
    assert (Hfresh : l2 ∉ dom σ) by apply is_fresh.
    assert (Hne : l ≠ l2) by (intros ->; done).
    set (σ2 := <[l2 := vtkPolyDataNormals (σ !!! l)]> σ).
    destruct (set_color_others c l2
                (InterpolateScalarsBeforeMappingOn m)
                (SetRenderAs (renderPointsAsSpheres settings)
                             (renderLinesAsTubes settings) prp) σ2)
      as (m' & prp' & σ' & -> & Hothers & Hd & _).
    cbn. eexists _, σ'. split; [reflexivity|]. cbn [poly matrix].
    assert (Hl2 : l2 ∈ dom σ2).
    { apply elem_of_dom. unfold σ2. rewrite lookup_insert_eq. by eexists. }
    split_and!; [by right | done | by rewrite Hd | done | | |].
    + intros l' Hl' _. rewrite Hothers by (intros ->; done).
      unfold σ2. apply lookup_insert_ne. by intros <-.
    + intros _. rewrite Hothers by done. unfold σ2. by apply lookup_insert_ne.
    + rewrite !lookup_total_alt, Hothers by done. unfold σ2.
      by rewrite lookup_insert_ne.
  - destruct (set_color_others c l
                (InterpolateScalarsBeforeMappingOn m)
                (SetRenderAs (renderPointsAsSpheres settings)
                             (renderLinesAsTubes settings) prp) σ)
      as (m' & prp' & σ' & -> & Hothers & Hd & HPts).
    cbn. eexists _, σ'. split; [reflexivity|]. cbn [poly matrix].
    split_and!; [by left | done | by rewrite Hd | done | | done | done].
    intros l' _ Hl'. by apply Hothers.
Qed.

(** The colouring block when a colour is given: arrays are not looked at. *)
Lemma set_color_Some (c : ColorSpec) (l : loc) (m : vtkPolyDataMapper)
    (prp : vtkProperty) (σ : store) :
  set_color (Some c) l m prp σ =
    Run (Returned (mkMapper false (GetScalarMode m) (ScalarRange m)
                            (InterpolateScalarsBeforeMapping m),
                   SetLook (getColor c) 0.1 1 0.05 5 prp)) σ [].
Proof.
  unfold set_color.
  cbv [mbind M_bind bind mret M_ret ret update load result final console].
  by destruct (first_qualifying (PointData (σ !!! l))),
              (first_qualifying (CellData (σ !!! l))).
Qed.

(** X1. An Actor built with an explicit colour never colours by scalars,
    whatever arrays its mesh carries: the mapper's scalar visibility is off
    and the surface has the resolved colour with ambient 0.1, diffuse 1,
    specular 0.05 and specular power 5. *)
Theorem Actor_init_explicit_color (settings : Settings) (inputobj : InputObj)
    (c : ColorSpec) (alpha : option Q) (cn : bool)
    (σ σ' : store) (a : Actor) (out : list string) :
  Actor_init settings inputobj (Some c) alpha cn σ = Run (Returned a) σ' out →
  ScalarVisibility (mapper a) = false ∧
  GetColor (property a) = getColor c ∧
  Ambient (property a) = 0.1%Q ∧ Diffuse (property a) = 1%Q ∧
  Specular (property a) = 0.05%Q ∧ SpecularPower (property a) = 5%Q.
Proof.
  intros (m & prp & σ1 & m' & prp' & o1 & o2 & Hcol & _ & Hm & Hp)%Actor_init_inv.
  rewrite set_color_Some in Hcol. injection Hcol as <- <- <- <-.
  rewrite Hm, Hp. by destruct alpha.
Qed.

(** X2. Whatever it is built from, the constructor changes no mesh object
    that existed before the call, except the PolyData it is handed (whose
    vertex cells and active scalars it may set): copies and filter outputs
    go to new objects. *)
Theorem Actor_init_others (settings : Settings) (inputobj : InputObj)
    (c : option ColorSpec) (alpha : option Q) (cn : bool) (σ : store)
    (l' : loc) :
  l' ∈ dom σ → inputobj ≠ InPolyData l' →
  final (Actor_init settings inputobj c alpha cn σ) !! l' = σ !! l'.
Proof.
  intros Hl' Hin.
  assert (Hfresh : ∀ pd m prp,
            final (Actor_finish settings c alpha cn (fresh (dom σ), m, prp)
                     (<[fresh (dom σ) := pd]> σ)) !! l' = σ !! l').
  { intros pd m prp.
    assert (Hne : l' ≠ fresh (dom σ)).
    { intros ->. by apply (is_fresh (dom σ)). }
    destruct (Actor_finish_others settings c alpha cn (fresh (dom σ)) m prp
                (<[fresh (dom σ) := pd]> σ))
      as (a & σ' & -> & _ & _ & _ & _ & Hothers & _).
    - apply elem_of_dom. rewrite lookup_insert_eq. by eexists.
    - cbn [final]. rewrite Hothers; [by rewrite lookup_insert_ne | | done].
      rewrite dom_insert_L. apply elem_of_union. by right. }
  destruct inputobj as [|a0|l|g|t|v f|v|ty]; unfold Actor_init.
  - rewrite (bind_step _ _ σ (<[fresh (dom σ) := emptyPolyData]> σ)
               (fresh (dom σ), newMapper, newProperty)) by done.
    apply Hfresh.
  - rewrite (bind_step _ _ σ (<[fresh (dom σ) := σ !!! poly a0]> σ)
               (fresh (dom σ),
                mkMapper (ScalarVisibility (mapper a0)) ScalarModeDefault (0, 1)%Q false,
                property a0)) by done.
    apply Hfresh.
  - assert (Hne : l' ≠ l) by congruence.
    rewrite bind_run. cbv [mbind M_bind bind mret M_ret ret update load].
    cbn [result final console].
    destruct (GetNumberOfCells (σ !!! l) =? 0) eqn:E; cbn [result final console app].
    + set (pd1 := SetVerts _ (σ !!! l)).
      destruct (Actor_finish_others settings c alpha cn l newMapper newProperty
                  (<[l := pd1]> σ))
        as (a & σ' & -> & _ & _ & _ & _ & Hothers & _).
      { apply elem_of_dom. rewrite lookup_insert_eq. by eexists. }
      cbn [final]. rewrite Hothers; [by rewrite lookup_insert_ne | | done].
      rewrite dom_insert_L. apply elem_of_union. by right.
    + destruct (Actor_finish_others settings c alpha cn l newMapper newProperty σ)
        as (a & σ' & -> & _ & _ & _ & _ & Hothers & _).
      { apply elem_of_dom. destruct (σ !! l) as [pd|] eqn:Hl; [by eexists|].
        rewrite lookup_total_alt, Hl in E. done. }
      cbn [final]. by apply Hothers.
  - rewrite (bind_step _ _ σ (<[fresh (dom σ) := _]> σ)
               (fresh (dom σ), newMapper, newProperty)) by done.
    apply Hfresh.
  - rewrite (bind_step _ _ σ (<[fresh (dom σ) := trimesh2vtk t]> σ)
               (fresh (dom σ), newMapper, newProperty)) by done.
    apply Hfresh.
  - rewrite (bind_step _ _ σ (<[fresh (dom σ) := buildPolyData v (Some f)]> σ)
               (fresh (dom σ), newMapper, newProperty)) by done.
    apply Hfresh.
  - rewrite (bind_step _ _ σ (<[fresh (dom σ) := _]> σ)
               (fresh (dom σ), newMapper, newProperty)) by done.
    apply Hfresh.
  - done.
Qed.

Lemma Actor_init_PolyData_own (settings : Settings) (l : loc)
    (c : option ColorSpec) (alpha : option Q) (cn : bool) (σ : store) :
  default cn (computeNormals settings) = false →
  ∃ a σ',
    Actor_init settings (InPolyData l) c alpha cn σ = Run (Returned a) σ' [] ∧
    poly a = l ∧ matrix a = identity4x4 ∧ l ∈ dom σ' ∧
    GetPoints (σ' !!! l) = GetPoints (σ !!! l).
Proof.
  intros Hcn. unfold Actor_init.
  rewrite bind_run. cbv [mbind M_bind bind mret M_ret ret update load].
  cbn [result final console].
  destruct (GetNumberOfCells (σ !!! l) =? 0) eqn:E; cbn [result final console app].
  - set (pd1 := SetVerts _ (σ !!! l)).
    destruct (Actor_finish_others settings c alpha cn l newMapper newProperty
                (<[l := pd1]> σ))
      as (a & σ' & -> & _ & Hown & Hdom & Hm & _ & _ & HPts).
    { apply elem_of_dom. rewrite lookup_insert_eq. by eexists. }
    exists a, σ'. rewrite (Hown Hcn) in Hdom. rewrite (Hown Hcn).
    split_and!; [done..|]. by rewrite HPts, lookup_total_insert_eq.
  - destruct (Actor_finish_others settings c alpha cn l newMapper newProperty σ)
      as (a & σ' & -> & _ & Hown & Hdom & Hm & _ & _ & HPts).
    { apply elem_of_dom. destruct (σ !! l) as [pd|] eqn:Hl; [by eexists|].
      rewrite lookup_total_alt, Hl in E. done. }
    exists a, σ'. rewrite (Hown Hcn) in Hdom. by rewrite (Hown Hcn).
Qed.


(** X4. Two Actors built from the same PolyData object share it (when no
    normals are computed).  When the object has points, new points given
    to one Actor are the coordinates of the other; when it has no points
    object, [setPoints] on the one and [coordinates] on the other raise
    [AttributeError]. *)
Theorem Actors_share_PolyData (settings : Settings) (l : loc)
    (c1 c2 : option ColorSpec) (alpha1 alpha2 : option Q)
    (pts : list Point) (σ : store) :
  computeNormals settings ≠ Some true →
  ∃ a1 σ1 a2 σ2,
    Actor_init settings (InPolyData l) c1 alpha1 false σ = Run (Returned a1) σ1 [] ∧
    Actor_init settings (InPolyData l) c2 alpha2 false σ1 = Run (Returned a2) σ2 [] ∧
    poly a1 = l ∧ poly a2 = l ∧
    GetPoints (σ2 !!! l) = GetPoints (σ !!! l) ∧
    (is_Some (GetPoints (σ !!! l)) →
       ∃ a1' σ3,
         setPoints pts a1 σ2 = Run (Returned a1') σ3 [] ∧
         coordinates true false a2 σ3 = Run (Returned pts) σ3 []) ∧
    (GetPoints (σ !!! l) = None →
       setPoints pts a1 σ2 = Run (Raised AttributeError) σ2 [] ∧
       coordinates true false a2 σ2 = Run (Raised AttributeError) σ2 []).
Proof.
  intros Hs.
  assert (Hcn : default false (computeNormals settings) = false)
    by (by destruct (computeNormals settings) as [[]|]).
  destruct (Actor_init_PolyData_own settings l c1 alpha1 false σ Hcn)
    as (a1 & σ1 & Hr1 & Hp1 & Hm1 & _ & HPts1).
  destruct (Actor_init_PolyData_own settings l c2 alpha2 false σ1 Hcn)
    as (a2 & σ2 & Hr2 & Hp2 & Hm2 & _ & HPts2).
  assert (HPts : GetPoints (σ2 !!! l) = GetPoints (σ !!! l)) by congruence.
  exists a1, σ1, a2, σ2. split_and!; [done..| |].
  - intros [old Hold].
    exists (PokeMatrix identity4x4 a1),
      (<[poly a1 := SetPoints pts (σ2 !!! poly a1)]> σ2).
    split.
    + apply setPoints_returns with old. by rewrite Hp1, HPts.
    + apply coordinates_identity; [rewrite Hm2; apply isIdentity_identity4x4|].
      by rewrite Hp1, Hp2, lookup_total_insert_eq.
  - intros Hnone. split.
    + apply setPoints_no_points. by rewrite Hp1, HPts.
    + apply coordinates_no_points; [rewrite Hm2; apply isIdentity_identity4x4|].
      by rewrite Hp2, HPts.
Qed.

End ActorMeshes.

Lemma Actor_init_explicit_color_witness :
  ∃ a σ' out,
    Actor_init (H := pass_through) default_settings (InPolyData 1%positive)
               (Some (ColorRGB (0, 0, 1)%Q)) (Some 1%Q) false
               {[ 1%positive := sample_mesh ]}
      = Run (Returned a) σ' out ∧
    ScalarVisibility (mapper a) = false ∧
    GetColor (property a) = (0, 0, 1)%Q.
Proof.
  destruct (Actor_init (H := pass_through) default_settings
              (InPolyData 1%positive) (Some (ColorRGB (0, 0, 1)%Q)) (Some 1%Q)
              false {[ 1%positive := sample_mesh ]}) as [[a|e] σ' out] eqn:Hr;
    [|vm_compute in Hr; discriminate].
  exists a, σ', out. split; [reflexivity|].
  destruct (Actor_init_explicit_color (H := pass_through) _ _ _ _ _ _ _ _ _ Hr)
    as (Hv & Hc & _).
  by split.
Defined.

Lemma Actor_init_others_witness :
  final (Actor_init (H := pass_through) default_settings (InActor moved_actor)
                    None (Some 1%Q) true {[ 1%positive := sample_mesh ]})
    !! 1%positive = Some sample_mesh.
Proof.
  rewrite (Actor_init_others (H := pass_through)); [reflexivity | | done].
  apply elem_of_dom. by eexists.
Defined.


Lemma Actors_share_PolyData_witness :
  ∃ a1 σ1 a2 σ2 a1' σ3,
    Actor_init (H := pass_through) default_settings (InPolyData 1%positive)
               None (Some 1%Q) false {[ 1%positive := sample_mesh ]}
      = Run (Returned a1) σ1 [] ∧
    Actor_init (H := pass_through) default_settings (InPolyData 1%positive)
               None (Some 1%Q) false σ1 = Run (Returned a2) σ2 [] ∧
    setPoints [(9, 9, 9)%Q] a1 σ2 = Run (Returned a1') σ3 [] ∧
    coordinates (H := pass_through) true false a2 σ3
      = Run (Returned [(9, 9, 9)%Q]) σ3 [].
Proof.
  destruct (Actors_share_PolyData (H := pass_through) default_settings
              1%positive None None (Some 1%Q) (Some 1%Q) [(9, 9, 9)%Q]
              {[ 1%positive := sample_mesh ]})
    as (a1 & σ1 & a2 & σ2 & H1 & H2 & _ & _ & _ & Hsome & _); [done|].
  destruct Hsome as (a1' & σ3 & H3 & H4); [by eexists|].
  by exists a1, σ1, a2, σ2, a1', σ3.
Defined.

(** ** The opacity keys on a whole scene *)

Lemma NoDup_getActors (self : Plotter) : NoDup (getActors self).
Proof.
  unfold getActors.
  apply NoDup_ListNoDup, List.NoDup_filter, NoDup_ListNoDup, NoDup_seq.
Qed.

Lemma getActors_pickable (self : Plotter) (i : nat) :
  i ∈ getActors self →
  ∃ a, actors self !! i = Some a ∧ GetPickable a = true.
Proof.
  unfold getActors. rewrite list_elem_of_In, List.filter_In.
  intros [_ Hi]. destruct (actors self !! i) as [a|]; [|done].
  exists a. split; [done|]. by apply andb_true_iff in Hi as [? _].
Qed.

(** A loop that runs a method on the actors at distinct positions, where
    the method returns on each of them. *)
Lemma for_each_on_actor (items : list nat) (op : M SceneProp unit)
    (f : SceneProp → SceneProp) (self : Plotter) :
  NoDup items →
  (∀ j a, j ∈ items → actors self !! j = Some a →
          op a = Run (Returned ()) (f a) []) →
  ∃ self',
    for_each items (λ j, on_actor j op) self = Run (Returned ()) self' [] ∧
    axes_instance self' = axes_instance self ∧
    clickedActor self' = clickedActor self ∧
    ∀ i, actors self' !! i =
           if bool_decide (i ∈ items) then f <$> actors self !! i
           else actors self !! i.
Proof.
  revert self. induction items as [|j items IH]; intros self Hnd Hop.
  - exists self. split_and!; [done..|]. intros i.
    rewrite bool_decide_eq_false_2; [done | apply not_elem_of_nil].
  - apply NoDup_cons in Hnd as [Hj Hnd]. cbn [for_each].
    assert (∃ self1,
              on_actor j op self = Run (Returned ()) self1 [] ∧
              axes_instance self1 = axes_instance self ∧
              clickedActor self1 = clickedActor self ∧
              ∀ i, actors self1 !! i =
                     if decide (i = j) then f <$> actors self !! i
                     else actors self !! i) as (self1 & Hrun & Hax & Hcl & Hact).
    { unfold on_actor. destruct (actors self !! j) as [a|] eqn:Ha.
      - rewrite (Hop j a) by (done || left). eexists. split_and!; [done..|].
        intros i. cbn. destruct (decide (i = j)) as [->|Hne].
        + rewrite list_lookup_insert_eq by (by eapply lookup_lt_Some).
          by rewrite Ha.
        + by rewrite list_lookup_insert_ne.
      - exists self. split_and!; [done..|]. intros i.
        destruct (decide (i = j)) as [->|]; [by rewrite Ha | done]. }
    destruct (IH self1 Hnd) as (self' & Hrest & Hax' & Hcl' & Hact').
    { intros j' a Hj' Ha. apply (Hop j' a); [by right|].
      rewrite Hact in Ha. destruct (decide (j' = j)) as [->|]; [done|done]. }
    exists self'. split_and!.
    + by rewrite (bind_step _ _ self self1 tt).
    + congruence.
    + congruence.
    + intros i. rewrite Hact', Hact.
      destruct (decide (i = j)) as [->|Hne].
      * rewrite (bool_decide_eq_false_2 (j ∈ items)) by done.
        rewrite bool_decide_eq_true_2; [done | left].
      * destruct (decide (i ∈ items)) as [Hin|Hout].
        -- rewrite !bool_decide_eq_true_2; [done | by right | done].
        -- rewrite !bool_decide_eq_false_2; [done | | done].
           by intros [->|?]%elem_of_cons.
Qed.

(** What [_keypress] runs, by who is clicked. *)
Lemma keypress_targets (key : KeySym) (self : Plotter) :
  _keypress key self =
    match clickedActor self with
    | Some i =>
        if bool_decide (i ∈ getActors self)
        then on_actor i (key_body key true) self
        else for_listed key (getActors self) self
    | None => for_listed key (getActors self) self
    end.
Proof.
  unfold _keypress. rewrite (bind_step _ _ self self self) by done.
  by destruct (clickedActor self) as [i|]; [destruct (bool_decide _)|].
Qed.

(** The effect of a key that returns on every actor it works on. *)
Lemma keypress_returns (key : KeySym) (f : SceneProp → SceneProp)
    (self : Plotter) :
  (∀ i a, i ∈ key_targets self → actors self !! i = Some a →
     key_body key (clicked_listed self) a = Run (Returned ()) (f a) []) →
  ∃ self',
    _keypress key self = Run (Returned ()) self' [] ∧
    ∀ i, actors self' !! i =
           if bool_decide (i ∈ key_targets self) then f <$> actors self !! i
           else actors self !! i.
Proof.
  intros Hbody. rewrite keypress_targets.
  unfold key_targets, clicked_listed in *.
  assert (Hlisted :
            (∀ i a, i ∈ getActors self → actors self !! i = Some a →
               key_body key false a = Run (Returned ()) (f a) []) →
            ∃ self',
              for_listed key (getActors self) self = Run (Returned ()) self' [] ∧
              ∀ i, actors self' !! i =
                     if bool_decide (i ∈ getActors self)
                     then f <$> actors self !! i else actors self !! i).
  { intros Hb. unfold for_listed.
    destruct (for_each_on_actor (getActors self)
                (a ← get; if GetPickable a then key_body key false else mret ())
                f self (NoDup_getActors self))
      as (self' & Hr & _ & _ & Hact).
    - intros j a Hj Ha. rewrite (bind_step _ _ a a a) by done.
      destruct (getActors_pickable self j Hj) as (a' & Ha' & Hp).
      simplify_eq. rewrite Hp. by apply (Hb j).
    - by exists self'. }
  destruct (clickedActor self) as [c|]; [|by apply Hlisted].
  destruct (bool_decide (c ∈ getActors self)) eqn:Hc; [|by apply Hlisted].
  destruct (for_each_on_actor [c] (key_body key true) f self)
    as (self' & Hr & _ & _ & Hact).
  - apply NoDup_singleton.
  - intros j a Hj Ha. by apply (Hbody j).
  - exists self'. split; [|done]. cbn [for_each] in Hr.
    rewrite bind_run in Hr.
    destruct (on_actor c (key_body key true) self) as [[[]|e] s o] eqn:E;
      cbn in Hr; [|done]. injection Hr as <- Ho.
    apply app_eq_nil in Ho as [-> _]. done.
Qed.

Lemma same_lookups_length {A} (f : nat → A → A) (l l' : list A) :
  (∀ i, l' !! i = f i <$> l !! i) → length l' = length l.
Proof.
  intros Hl. apply Nat.le_antisymm.
  - destruct (decide (length l' ≤ length l)) as [|Hgt]; [done|].
    destruct (lookup_lt_is_Some_2 l' (length l)) as [x Hx]; [lia|].
    rewrite Hl, lookup_ge_None_2 in Hx by lia. done.
  - destruct (decide (length l ≤ length l')) as [|Hgt]; [done|].
    destruct (lookup_lt_is_Some_2 l (length l')) as [x Hx]; [lia|].
    specialize (Hl (length l')). rewrite Hx, lookup_ge_None_2 in Hl by lia. done.
Qed.

(** X5. The keys [m], [,] and [.] never raise. They change the actors
    the key works on (the clicked actor if it is listed, else all pickable
    actors but the axes) and no other; afterwards such an actor has opacity
    0.02 for [m], between 0.01 and 1 for [,], and between 0 and 1 for [.].
    No actor is added or removed. *)
Theorem keypress_opacity_bounds (key : KeySym) (self : Plotter) :
  key ≠ Key_slash →
  ∃ self',
    _keypress key self = Run (Returned ()) self' [] ∧
    length (actors self') = length (actors self) ∧
    ∀ i a, actors self !! i = Some a →
      ∃ a', actors self' !! i = Some a' ∧
        (i ∉ key_targets self → a' = a) ∧
        (i ∈ key_targets self →
           match key with
           | Key_m => GetOpacity a' = 0.02%Q
           | Key_comma => (0.01 <= GetOpacity a' <= 1)%Q
           | _ => (0 <= GetOpacity a' <= 1)%Q
           end).
Proof.
  intros Hkey.
  set (f := λ a : SceneProp,
         match key with
         | Key_m => stash_backface (set_opacity 0.02 a)
         | Key_comma =>
             stash_backface (set_opacity (max2 (GetOpacity a * 0.75) 0.01) a)
         | _ =>
             let aal := min2 (GetOpacity a * 1.25) 1.0 in
             match Qeq_bool aal 1, stashed_bfprop (set_opacity aal a) with
             | true, Some bfp =>
                 SetBackfaceProperty (Some bfp) (set_opacity aal a)
             | _, _ => set_opacity aal a
             end
         end).
  destruct (keypress_returns key f self) as (self' & Hr & Hact).
  { intros i a _ _. generalize (clicked_listed self). intros on_clicked.
    unfold f. destruct key; try done.
    run_body. set (aal := min2 (GetOpacity a * 1.25) 1.0).
    by destruct (Qeq_bool aal 1), (stashed_bfprop (set_opacity aal a)). }
  exists self'. split; [done|]. split.
  { apply (same_lookups_length
             (λ i a, if bool_decide (i ∈ key_targets self) then f a else a)).
    intros i. rewrite Hact. by destruct (bool_decide _), (actors self !! i). }
  intros i a Ha. rewrite Hact, Ha.
  destruct (decide (i ∈ key_targets self)) as [Hin|Hout].
  - rewrite bool_decide_eq_true_2 by done. exists (f a).
    split_and!; [done | done |]. intros _. unfold f. destruct key; try done.
    + by rewrite GetOpacity_stash_backface, GetOpacity_set_opacity.
    + rewrite GetOpacity_stash_backface, GetOpacity_set_opacity.
      pose proof (max2_floor (GetOpacity a * 0.75)) as [Hlo _].
      pose proof (clamp01_bounds (max2 (GetOpacity a * 0.75) 0.01)) as Hb.
      split; [|apply Hb]. unfold clamp01 in *.
      destruct (Qle_bool _ 0) eqn:E0; [apply Qle_bool_iff in E0; lra|].
      destruct (Qle_bool 1 _) eqn:E1; [lra | done].
    + cbv zeta. set (aal := min2 (GetOpacity a * 1.25) 1.0).
      destruct (Qeq_bool aal 1), (stashed_bfprop (set_opacity aal a));
        rewrite ?GetOpacity_SetBackfaceProperty, GetOpacity_set_opacity;
        apply clamp01_bounds.
  - rewrite bool_decide_eq_false_2 by done. exists a. by split_and!.
Qed.

Lemma keypress_opacity_bounds_witness :
  ∃ self',
    _keypress Key_comma sample_plotter = Run (Returned ()) self' [] ∧
    length (actors self') = 2.
Proof.
  destruct (keypress_opacity_bounds Key_comma sample_plotter)
    as (self' & Hr & Hlen & _); [done|].
  by exists self'.
Defined.

Lemma stashed_bfprop_set_opacity (x : Q) (a : SceneProp) :
  stashed_bfprop (set_opacity x a) = stashed_bfprop a.
Proof. by destruct a. Qed.

(** The loop of [/] over the listed actors stops at the first one with a
    stashed back face. *)
Lemma for_listed_slash_raises (items : list nat) (self : Plotter) :
  (∃ j a, j ∈ items ∧ actors self !! j = Some a ∧ GetPickable a = true ∧
          stashed_bfprop a ≠ None) →
  result (for_listed Key_slash items self) = Raised AttributeError.
Proof.
  unfold for_listed. revert self.
  induction items as [|j0 items IH]; intros self (j & a & Hj & Ha & Hp & Hst).
  - by apply elem_of_nil in Hj.
  - cbn [for_each]. rewrite bind_run.
    destruct (on_actor j0 _ self) as [r s o] eqn:E. unfold on_actor in E.
    destruct (actors self !! j0) as [a0|] eqn:Ha0.
    + rewrite (bind_step _ _ a0 a0 a0) in E by done.
      destruct (GetPickable a0) eqn:Hp0.
      * revert E. run_body.
        destruct (stashed_bfprop (set_opacity 1 a0)) as [bfp|] eqn:Hst0;
          intros [= <- <- <-]; [done|].
        rewrite stashed_bfprop_set_opacity in Hst0.
        apply IH. exists j, a. apply elem_of_cons in Hj as [->|Hj].
        { congruence. }
        split_and!; [done| |done..]. cbn.
        rewrite list_lookup_insert_ne; [done|].
        intros <-. congruence.
      * injection E as <- <- <-. apply IH. exists j, a.
        apply elem_of_cons in Hj as [->|Hj]; [congruence|].
        split_and!; [done| |done..]. cbn.
        rewrite list_lookup_insert_ne; [done|]. intros <-. congruence.
    + injection E as <- <- <-. apply IH. exists j, a.
      apply elem_of_cons in Hj as [->|Hj]; [congruence|]. by split_and!.
Qed.

(** X6. The key [/] on a whole scene. If the clicked actor is listed it
    gets opacity 1 and its stashed back face back. Otherwise the key works
    on all listed actors: if none of them has a stashed back-face property
    each gets opacity 1, and if one has, the handler raises
    [AttributeError]. *)
Theorem keypress_slash_scene (self : Plotter) :
  (clicked_listed self = false → stash_listed self →
     result (_keypress Key_slash self) = Raised AttributeError) ∧
  (clicked_listed self = true ∨ ¬ stash_listed self →
     ∃ self',
       _keypress Key_slash self = Run (Returned ()) self' [] ∧
       ∀ i a, actors self !! i = Some a →
         ∃ a', actors self' !! i = Some a' ∧
           (i ∉ key_targets self → a' = a) ∧
           (i ∈ key_targets self →
              GetOpacity a' = 1%Q ∧
              ∀ bfp, stashed_bfprop a = Some bfp →
                     GetBackfaceProperty a' = Some bfp)).
Proof.
  split.
  - intros Hcl (i & a & Hi & Ha & Hst). rewrite keypress_targets.
    unfold clicked_listed in Hcl.
    assert (result (for_listed Key_slash (getActors self) self)
            = Raised AttributeError) as Hraise.
    { apply for_listed_slash_raises. exists i, a.
      destruct (getActors_pickable self i Hi) as (a' & Ha' & Hp).
      by simplify_eq. }
    destruct (clickedActor self) as [c|]; [|done]. by rewrite Hcl.
  - intros Hok.
    set (f := λ a : SceneProp,
           match stashed_bfprop (set_opacity 1 a) with
           | Some bfp => SetBackfaceProperty (Some bfp) (set_opacity 1 a)
           | None => set_opacity 1 a
           end).
    destruct (keypress_returns Key_slash f self) as (self' & Hr & Hact).
    { intros i a Hi Ha. unfold f. run_body.
      destruct (stashed_bfprop (set_opacity 1 a)) as [bfp|] eqn:Hst; [|done].
      destruct (clicked_listed self) eqn:Hon; [done|]. exfalso.
      destruct Hok as [|Hno]; [done|]. apply Hno. exists i, a.
      assert (key_targets self = getActors self) as <-.
      { unfold key_targets, clicked_listed in *.
        destruct (clickedActor self); [by rewrite Hon | done]. }
      split_and!; [done..|].
      destruct a as [act|]; cbn in *; congruence. }
    exists self'. split; [done|]. intros i a Ha. rewrite Hact, Ha.
    destruct (decide (i ∈ key_targets self)) as [Hin|Hout].
    + rewrite bool_decide_eq_true_2 by done. exists (f a).
      split_and!; [done | done |]. intros _. unfold f.
      destruct a as [act|prp bf pick]; cbn.
      * destruct (_bfprop act) as [bfp|] eqn:E; cbn; split; try done;
          by intros ? [= <-].
      * done.
    + rewrite bool_decide_eq_false_2 by done. exists a. by split_and!.
Qed.

Lemma keypress_slash_scene_witness :
  result (_keypress Key_slash sample_plotter) = Raised AttributeError.
Proof.
  apply (keypress_slash_scene sample_plotter); [done|].
  exists 0, (PropActor stashed_actor).
  split_and!; [|done..]. by apply (bool_decide_unpack _).
Defined.

(** ** Decimation and the store of meshes *)

Section DecimateFrame.
Context `{Native}.

Lemma alloc_frame (pd : vtkPolyData) (σ : store) :
  ∃ l σ',
    alloc pd σ = Run (Returned l) σ' [] ∧ (l ∉ dom σ) ∧ σ' !! l = Some pd ∧
    ∀ l', l' ∈ dom σ → σ' !! l' = σ !! l'.
Proof.
  exists (fresh (dom σ)), (<[fresh (dom σ) := pd]> σ).
  split_and!; [done | apply is_fresh | by rewrite lookup_insert_eq |].
  intros l' Hl'. rewrite lookup_insert_ne; [done|].
  intros <-. by apply (is_fresh (dom σ)).
Qed.

Lemma polydata_frame (transformed : bool) (self : Actor) (σ : store) :
  ∃ l σ',
    polydata transformed self σ = Run (Returned l) σ' [] ∧
    (∀ l', l' ∈ dom σ → σ' !! l' = σ !! l') ∧
    GetNumberOfPoints (σ' !!! l) = GetNumberOfPoints (σ !!! poly self) ∧
    (l = poly self ∧ σ' = σ ∨ l ∉ dom σ).
Proof.
  unfold polydata.
  destruct (negb transformed); [by exists (poly self), σ; split_and!; auto|].
  destruct (isIdentity identity_tolerance (matrix self));
    [by exists (poly self), σ; split_and!; auto|].
  rewrite (bind_step _ _ σ σ (σ !!! poly self)) by done.
  destruct (alloc_frame
              (vtkTransformPolyDataFilter (matrix self) (σ !!! poly self)) σ)
    as (l & σ' & Hr & Hfresh & Hl & Hframe).
  exists l, σ'. split_and!; [done | done | | by right].
  rewrite lookup_total_alt, Hl. apply GetNumberOfPoints_transformed.
Qed.

(** X7. [decimate] never changes a mesh object that exists: whatever
    its arguments, every mesh of the store is afterwards what it was. It
    raises [OverflowError] exactly when [N] is given and is too large for
    [float], and [ZeroDivisionError] exactly when [N] is given, is not
    zero, is not too large for [float] and the mesh has no points; it
    raises nothing else. When it returns, the actor is the one it was
    called on, or that actor on a new mesh object. *)
Theorem decimate_frame (fraction : Q) (N : option Z) (method : string)
    (boundaries : bool) (self : Actor) (σ : store) :
  poly self ∈ dom σ →
  let r := decimate fraction N method boundaries self σ in
  (∀ l, l ∈ dom σ → final r !! l = σ !! l) ∧
  (result r = Raised OverflowError ↔
     ∃ n, N = Some n ∧ float_fits n = false) ∧
  (result r = Raised ZeroDivisionError ↔
     ∃ n, N = Some n ∧ n ≠ 0%Z ∧ float_fits n = true ∧
          GetNumberOfPoints (σ !!! poly self) = 0) ∧
  (∀ e, result r = Raised e → e = OverflowError ∨ e = ZeroDivisionError) ∧
  (∀ a, result r = Returned a →
     a = self ∨ ((poly a ∉ dom σ) ∧ a = updateMesh (poly a) self)).
Proof.
  intros Hdom r. subst r. unfold decimate.
  destruct (polydata_frame true self σ) as (l & σ1 & Hp & Hframe & HN & Hl).
  rewrite (bind_step _ _ σ σ1 l) by done.
  rewrite (bind_step _ _ σ1 σ1 (σ1 !!! l)) by done.
  set (out := if str_in "quad" method then _ else _).
  assert (Hrun : ∀ fr : Q,
            let out := if str_in "quad" method
                       then vtkQuadricDecimation (1 - fr) (σ1 !!! l)
                       else vtkDecimatePro boundaries (1 - fr) (σ1 !!! l) in
            ∃ l' σ2,
              (l' ← alloc out; mret (updateMesh l' self)) σ1
                = Run (Returned (updateMesh l' self)) σ2 [] ∧
              (l' ∉ dom σ) ∧ ∀ l0, l0 ∈ dom σ → σ2 !! l0 = σ !! l0).
  { intros fr out'.
    destruct (alloc_frame out' σ1) as (l' & σ2 & Hr & Hfresh & _ & Hf2).
    exists l', σ2. rewrite (bind_step _ _ σ1 σ2 l') by done.
    split_and!; [done | |].
    - intros Hin. apply Hfresh. apply elem_of_dom.
      rewrite Hframe by done. by apply elem_of_dom.
    - intros l0 Hl0. rewrite Hf2, Hframe; [done..|].
      apply elem_of_dom. rewrite Hframe by done. by apply elem_of_dom. }
  assert (Hfilter : ∀ fr : Q,
            let r := (l' ← alloc (if str_in "quad" method
                                  then vtkQuadricDecimation (1 - fr) (σ1 !!! l)
                                  else vtkDecimatePro boundaries (1 - fr)
                                         (σ1 !!! l));
                      mret (updateMesh l' self)) σ1 in
            (∀ l0, l0 ∈ dom σ → final r !! l0 = σ !! l0) ∧
            (∀ e, result r ≠ Raised e) ∧
            (∀ a, result r = Returned a →
               a = self ∨ ((poly a ∉ dom σ) ∧ a = updateMesh (poly a) self))).
  { intros fr. destruct (Hrun fr) as (l' & σ2 & Hr & Hfresh & Hf2).
    cbv zeta. rewrite Hr. cbn [result final console]. split_and!; [done..|].
    intros a [= <-]. right. by destruct self. }
  destruct N as [n|].
  - destruct (n =? 0)%Z eqn:En.
    + apply Z.eqb_eq in En. subst n.
      destruct (Hfilter fraction) as (Hf & Hne & Hret).
      split_and!; [done | | | by intros e ?%Hne | done].
      * split; [by intros ?%Hne|]. by intros (n' & [= <-] & Hn').
      * split; [by intros ?%Hne|]. by intros (n' & [= <-] & Hn' & _).
    + apply Z.eqb_neq in En. rewrite HN.
      destruct (float_fits n) eqn:Efit; cbn [negb].
      * destruct (GetNumberOfPoints (σ !!! poly self) =? 0) eqn:Ep.
        -- apply Nat.eqb_eq in Ep. cbn [raise result final console].
           split_and!; [done | | | by intros e [= <-]; right | done].
           ++ split; [done|]. intros (n' & [= <-] & Hn'). congruence.
           ++ split; [|done]. intros _. by exists n.
        -- apply Nat.eqb_neq in Ep.
           destruct (Qle_bool 1 _).
           { cbn [mret M_ret ret result final console].
             split_and!; [done | | | done | by intros a [= <-]; left].
             - split; [done|]. intros (n' & [= <-] & Hn'). congruence.
             - split; [done|]. by intros (n' & _ & _ & _ & ?). }
           { destruct (Hfilter (inject_Z n / inject_Z
                        (Z.of_nat (GetNumberOfPoints (σ !!! poly self))))%Q)
               as (Hf & Hne & Hret).
             split_and!; [done | | | by intros e ?%Hne | done].
             - split; [by intros ?%Hne|].
               intros (n' & [= <-] & Hn'). congruence.
             - split; [by intros ?%Hne|]. by intros (n' & _ & _ & _ & ?). }
      * cbn [raise result final console].
        split_and!; [done | | | by intros e [= <-]; left | done].
        -- split; [|done]. intros _. by exists n.
        -- split; [done|]. intros (n' & [= <-] & _ & Hn' & _). congruence.
  - destruct (Hfilter fraction) as (Hf & Hne & Hret).
    split_and!; [done | | | by intros e ?%Hne | done].
    + split; [by intros ?%Hne|]. by intros (n' & ? & _).
    + split; [by intros ?%Hne|]. by intros (n' & ? & _).
Qed.

End DecimateFrame.

(** An actor on a mesh without points, asked for three. *)
Lemma decimate_frame_witness :
  result (decimate (H := pass_through) 0.5 (Some 3%Z) "quadric" false
            stashed_actor {[ 1%positive := emptyPolyData ]})
    = Raised ZeroDivisionError.
Proof.
  destruct (decimate_frame (H := pass_through) 0.5 (Some 3%Z) "quadric" false
              stashed_actor {[ 1%positive := emptyPolyData ]})
    as (_ & _ & Hraise & _).
  { apply elem_of_dom. by eexists. }
  apply Hraise. by exists 3%Z.
Defined.

(** ** Thresholding a volume twice *)

Lemma threshold_voxel_idem (ty : ScalarType) (vmin vmax : option Z) (r x : Z) :
  let th := threshold_filter vmin vmax r in
  threshold_voxel ty th (threshold_voxel ty th x) = threshold_voxel ty th x.
Proof.
  intros th. unfold threshold_voxel.
  assert (ReplaceIn th = true ∧ ReplaceOut th = false) as [-> ->]
    by (by destruct vmin, vmax).
  destruct (is_in ty th x) eqn:Hx.
  - by destruct (is_in ty th (clamp_to ty (InValue th))).
  - by rewrite Hx.
Qed.

(** X8. Thresholding is idempotent: when [float] can take the thresholds
    and the replacement value, [threshold] returns, and the same call on
    its result changes nothing more.  The dimensions, the scalar type and
    the number of voxels are kept. *)
Theorem threshold_idempotent (vmin vmax : option Z) (r : Z) (self : Volume) :
  given_fits vmin && given_fits vmax = true → float_fits r = true →
  ∃ self',
    threshold vmin vmax (Some r) self = Run (Returned ()) self' [] ∧
    threshold vmin vmax (Some r) self' = Run (Returned ()) self' [] ∧
    GetDimensions (imagedata self') = GetDimensions (imagedata self) ∧
    GetScalarType (imagedata self') = GetScalarType (imagedata self) ∧
    length (Voxels (imagedata self')) = length (Voxels (imagedata self)).
Proof.
  intros Hfits Hr.
  exists (mkVolume (threshold_output (threshold_filter vmin vmax r)
                                     (imagedata self))).
  split; [by apply threshold_Some|]. split_and!.
  - rewrite threshold_Some by done. f_equal.
    unfold threshold_output, imagedata.
    cbn [_image GetDimensions GetScalarType Voxels].
    do 2 f_equal. rewrite List.map_map. apply List.map_ext.
    intros x. apply threshold_voxel_idem.
  - done.
  - done.
  - cbn. by rewrite length_map.
Qed.

Lemma threshold_idempotent_witness :
  ∃ self',
    threshold (Some 10%Z) (Some 15%Z) (Some 300%Z) sample_volume
      = Run (Returned ()) self' [] ∧
    threshold (Some 10%Z) (Some 15%Z) (Some 300%Z) self'
      = Run (Returned ()) self' [].
Proof.
  destruct (threshold_idempotent (Some 10%Z) (Some 15%Z) 300%Z sample_volume)
    as (self' & Hr & Hr' & _); [reflexivity | reflexivity |].
  by exists self'.
Defined.

(** X9. [threshold(vmin, vmax, replaceWith)] with [vmin] above [vmax],
    both brought into the scalar type of the image, selects nothing: when
    [float] can take the three numbers it returns and the volume is what it
    was.  So it is for [vmin] above [vmax] when both are scalars of the
    type. *)
Theorem threshold_empty_range (lo hi r : Z) (self : Volume) :
  let ty := GetScalarType (imagedata self) in
  float_fits lo = true → float_fits hi = true → float_fits r = true →
  ((clamp_to ty hi < clamp_to ty lo)%Z →
     threshold (Some lo) (Some hi) (Some r) self = Run (Returned ()) self []) ∧
  (in_type ty lo → in_type ty hi → (hi < lo)%Z →
     threshold (Some lo) (Some hi) (Some r) self = Run (Returned ()) self []).
Proof.
  intros ty Hlo Hhi Hr.
  assert ((clamp_to ty hi < clamp_to ty lo)%Z →
          threshold (Some lo) (Some hi) (Some r) self
            = Run (Returned ()) self []) as Hempty.
  { intros Hlt. rewrite threshold_Some by (by cbn; rewrite ?Hlo, ?Hhi).
    f_equal. subst ty. destruct self as [[dims ty voxels]].
    unfold threshold_output, imagedata in *.
    cbn [_image GetDimensions GetScalarType Voxels] in *. do 2 f_equal.
    rewrite <- (List.map_id voxels) at 2. apply List.map_ext.
    intros x. unfold threshold_voxel, is_in, lower_of, upper_of. cbn.
    destruct (Z.leb_spec (clamp_to ty lo) x),
             (Z.leb_spec x (clamp_to ty hi)); cbn; try done. lia. }
  split; [done|]. intros Hlo' Hhi' Hlt. apply Hempty.
  by rewrite !clamp_to_id.
Qed.

Lemma threshold_empty_range_witness :
  threshold (Some 15%Z) (Some 10%Z) (Some 0%Z) sample_volume
    = Run (Returned ()) sample_volume [].
Proof.
  destruct (threshold_empty_range 15%Z 10%Z 0%Z sample_volume)
    as [Hempty _]; [reflexivity..|].
  apply Hempty. by vm_compute.
Defined.

(** Thresholds above the scalar type, the lower one above the upper one:
    both become the largest scalar, and the voxel that has it is replaced. *)
Example threshold_crossed_above_type :
  Voxels (imagedata (final (threshold (Some 400%Z) (Some 300%Z) (Some 1%Z)
                                      (mkVolume (mkImage (2, 1, 1)%Z
                                         VTK_UNSIGNED_CHAR [7; 255]%Z)))))
    = [7; 1]%Z.
Proof. reflexivity. Qed.

(** ** The warp and the store of meshes *)

Section WarpFrame.
Context `{Native}.

Lemma Actor_init_PolyData_frame (settings : Settings) (l : loc)
    (c : option ColorSpec) (alpha : option Q) (cn : bool) (σ : store) :
  l ∈ dom σ →
  ∃ a σ',
    Actor_init settings (InPolyData l) c alpha cn σ = Run (Returned a) σ' [] ∧
    (poly a = l ∨ poly a ∉ dom σ) ∧
    ∀ l', l' ∈ dom σ → l' ≠ l → σ' !! l' = σ !! l'.
Proof.
  intros Hdom. unfold Actor_init.
  rewrite bind_run. cbv [mbind M_bind bind mret M_ret ret update load].
  cbn [result final console].
  destruct (GetNumberOfCells (σ !!! l) =? 0) eqn:E; cbn [result final console app].
  - set (pd1 := SetVerts _ (σ !!! l)).
    destruct (Actor_finish_others settings c alpha cn l newMapper newProperty
                (<[l := pd1]> σ))
      as (a & σ' & -> & Hown & _ & _ & _ & Hothers & _).
    { apply elem_of_dom. rewrite lookup_insert_eq. by eexists. }
    exists a, σ'. split_and!; [done | |].
    + destruct Hown as [|Hnew]; [by left | right].
      intros Hin. apply Hnew. rewrite dom_insert_L. apply elem_of_union. by right.
    + intros l' Hl' Hne. rewrite Hothers; [by rewrite lookup_insert_ne | | done].
      rewrite dom_insert_L. apply elem_of_union. by right.
  - destruct (Actor_finish_others settings c alpha cn l newMapper newProperty σ)
      as (a & σ' & -> & Hown & _ & _ & _ & Hothers & _); [done|].
    by exists a, σ'.
Qed.

Lemma transformFilter_frame (settings : Settings) (l : loc)
    (transform : vtkThinPlateSplineTransform) (σ : store) :
  ∃ tfa σ',
    transformFilter settings l transform σ = Run (Returned tfa) σ' [] ∧
    (poly tfa ∉ dom σ) ∧
    ∀ l', l' ∈ dom σ → σ' !! l' = σ !! l'.
Proof.
  unfold transformFilter.
  rewrite (bind_step _ _ σ σ (σ !!! l)) by done.
  destruct (alloc_frame
              (vtkThinPlateSplineWarp (Basis transform)
                 (SourceLandmarks transform) (TargetLandmarks transform)
                 (σ !!! l)) σ)
    as (out & σ1 & Hr & Hfresh & Hout & Hframe).
  rewrite (bind_step _ _ σ σ1 out) by done.
  assert (Hsub : ∀ l', l' ∈ dom σ → l' ∈ dom σ1).
  { intros l' Hl'. apply elem_of_dom. rewrite Hframe by done.
    by apply elem_of_dom. }
  destruct (Actor_init_PolyData_frame settings out None (Some 1%Q) false σ1)
    as (a & σ' & Hinit & Hown & Hothers).
  { apply elem_of_dom. by eexists. }
  exists a, σ'. split_and!; [done | |].
  - destruct Hown as [->|Hnew]; [done|]. intros Hin. by apply Hnew, Hsub.
  - intros l' Hl'. rewrite Hothers, Hframe; [done.. | by apply Hsub |].
    by intros ->.
Qed.

(** X10. With as many target points as source points [thinPlateSpline]
    returns a new actor and the transform, whose landmarks are the points
    given, in their order, with sigma 1 and the basis asked for. Nothing is
    printed, the new actor is on a new mesh object, and no mesh that
    existed before is changed. *)
Theorem thinPlateSpline_equal_lengths (settings : Settings) (actor : Actor)
    (sourcePts targetPts : list Point)
    (userFunctions : option BasisFunctions) (σ : store) :
  length sourcePts = length targetPts →
  ∃ tfa transform σ',
    thinPlateSpline settings actor sourcePts targetPts userFunctions σ
      = Run (Returned (tfa, transform)) σ' [] ∧
    SourceLandmarks transform = sourcePts ∧
    TargetLandmarks transform = targetPts ∧
    Sigma transform = 1%Q ∧ Basis transform = userFunctions ∧
    (poly tfa ∉ dom σ) ∧
    ∀ l, l ∈ dom σ → σ' !! l = σ !! l.
Proof.
  intros Hlen. unfold thinPlateSpline.
  rewrite (bind_step _ _ σ σ sourcePts).
  2:{ rewrite set_landmarks_in_range by (cbn; lia). by rewrite drop_0, firstn_all. }
  rewrite Nat.eqb_refl. cbn [negb].
  rewrite (bind_step _ _ σ σ tt) by done.
  rewrite (bind_step _ _ σ σ targetPts).
  2:{ rewrite set_landmarks_in_range by (cbn; lia).
      by rewrite drop_0, Hlen, firstn_all. }
  destruct (polydata_frame true actor σ) as (l & σ1 & Hl & Hf1 & _ & _).
  rewrite (bind_step _ _ σ σ1 l) by done.
  set (transform := mkThinPlate _ _ _ _).
  destruct (transformFilter_frame settings l transform σ1)
    as (tfa & σ' & Htf & Hnew & Hf2).
  rewrite (bind_step _ _ σ1 σ' tfa) by done.
  assert (Hsub : ∀ l', l' ∈ dom σ → l' ∈ dom σ1).
  { intros l' Hl'. apply elem_of_dom. rewrite Hf1 by done.
    by apply elem_of_dom. }
  exists tfa, transform, σ'. split_and!; [done.. | |].
  - intros Hin. by apply Hnew, Hsub.
  - intros l0 Hl0. rewrite Hf2, Hf1; [done..|]. by apply Hsub.
Qed.

End WarpFrame.

Lemma thinPlateSpline_equal_lengths_witness :
  ∃ tfa transform σ',
    thinPlateSpline (H := pass_through) default_settings moved_actor
        [(0, 0, 0)%Q] [(1, 1, 1)%Q] None {[ 1%positive := sample_mesh ]}
      = Run (Returned (tfa, transform)) σ' [] ∧
    TargetLandmarks transform = [(1, 1, 1)%Q] ∧
    σ' !! 1%positive = Some sample_mesh.
Proof.
  destruct (thinPlateSpline_equal_lengths (H := pass_through) default_settings
              moved_actor [(0, 0, 0)%Q] [(1, 1, 1)%Q] None
              {[ 1%positive := sample_mesh ]})
    as (tfa & transform & σ' & Hr & _ & Ht & _ & _ & _ & Hf); [done|].
  exists tfa, transform, σ'. split_and!; [done..|].
  rewrite Hf; [done|]. apply elem_of_dom. by eexists.
Defined.

(** ** Moving an actor that has a trail or a shadow *)

(** On a buffer that is not empty [updateTrail] returns; the position and
    the length of the buffer are kept, and the last entry of the buffer is
    then a recorded point: the current position, or one closer to it than
    the segment size. *)
Lemma updateTrail_returns (self : Node) :
  trail self ≠ None → trailPoints self ≠ [] →
  is_array (trailOffset self) = false →
  ∃ b self' lastpos,
    updateTrail self = Run (Returned b) self' [] ∧
    GetPosition self' = GetPosition self ∧
    diagonalSize self' = diagonalSize self ∧
    trailSegmentSize self' = trailSegmentSize self ∧
    trailOffset self' = trailOffset self ∧
    trail self' ≠ None ∧
    length (trailPoints self') = length (trailPoints self) ∧
    last (trailPoints self') = Some (Some lastpos) ∧
    (lastpos = currentpos self ∨
     norm_below (vec_sub (currentpos self) lastpos) (trailSegmentSize self)
       = true).
Proof.
  intros Htrail Hne Ho.
  assert (0 < length (trailPoints self)) as Hlen
    by (destruct (trailPoints self); [done | cbn; lia]).
  destruct (last (trailPoints self)) as [[lastpos|]|] eqn:Hlast.
  - destruct (norm_below (vec_sub (currentpos self) lastpos)
                         (trailSegmentSize self)) eqn:Hn.
    + exists false, self, lastpos.
      rewrite (updateTrail_skip self lastpos) by done. by split_and!; auto.
    + rewrite (updateTrail_append self lastpos) by done. cbv zeta.
      eexists true, _, (currentpos self). split; [reflexivity|].
      cbn [GetPosition diagonalSize trailSegmentSize trailOffset trail
           trailPoints].
      split_and!; [done.. | apply length_tail_snoc | | by left].
      apply last_Some in Hlast as [l' Hl']. rewrite Hl'.
      destruct l' as [|x0 l'']; [done|]. cbn [app tail].
      by rewrite <- app_assoc, last_app.
  - rewrite updateTrail_fill by done.
    eexists false, _, (currentpos self). split; [reflexivity|].
    cbn [GetPosition diagonalSize trailSegmentSize trailOffset trail
         trailPoints].
    split_and!; [done.. | by rewrite length_replicate | | by left].
    rewrite last_lookup, length_replicate.
    apply lookup_replicate. split; [done | lia].
  - apply last_None in Hlast. done.
Qed.

Lemma move_unfold (c : Moving.Move) (self : Moving.Mover) :
  Moving.move c self =
    (Moving.on_node
       (SetPosition (Moving.destination c (GetPosition (Moving.node self))));;
     Moving.after_move) self.
Proof.
  destruct c; cbn [Moving.move];
    unfold Moving.pos, Moving.addPos, Moving.x, Moving.y, Moving.z,
           Moving.destination;
    rewrite ?(bind_step _ _ self self self) by done;
    by destruct (GetPosition (Moving.node self)) as [[p0 p1] p2].
Qed.

Lemma shadow_step (self : Moving.Mover) :
  ∃ self',
    (self ← get;
     match Moving.shadow self with
     | Some _ => Moving.updateShadow
     | None => mret ()
     end) self = Run (Returned ()) self' [] ∧
    Moving.node self' = Moving.node self ∧
    Moving.shadowX self' = Moving.shadowX self ∧
    Moving.shadowY self' = Moving.shadowY self ∧
    Moving.shadowZ self' = Moving.shadowZ self ∧
    Moving.shadow self' =
      shadow_place self (GetPosition (Moving.node self)) <$> Moving.shadow self.
Proof.
  rewrite (bind_step _ _ self self self) by done.
  destruct (Moving.shadow self) as [s|] eqn:Hs.
  - unfold Moving.updateShadow, shadow_place.
    rewrite (bind_step _ _ self self self) by done.
    destruct (GetPosition (Moving.node self)) as [[p0 p1] p2].
    unfold Moving.shadow_SetPosition.
    destruct (Moving.shadowX self) as [sx|] eqn:Hx;
      [|destruct (Moving.shadowY self) as [sy|] eqn:Hy;
        [|destruct (Moving.shadowZ self) as [sz|] eqn:Hz]];
      rewrite ?(bind_step _ _ self self self) by done; rewrite ?Hs;
      eexists; (split; [reflexivity|]); cbn; by rewrite ?Hs.
  - exists self. by rewrite Hs.
Qed.

Lemma after_move_returns (self : Moving.Mover) :
  trail_ok (Moving.node self) →
  ∃ self',
    Moving.after_move self = Run (Returned ()) self' [] ∧
    GetPosition (Moving.node self') = GetPosition (Moving.node self) ∧
    trailOffset (Moving.node self') = trailOffset (Moving.node self) ∧
    trailSegmentSize (Moving.node self') = trailSegmentSize (Moving.node self) ∧
    trail_ok (Moving.node self') ∧
    length (trailPoints (Moving.node self'))
      = length (trailPoints (Moving.node self)) ∧
    Moving.shadowX self' = Moving.shadowX self ∧
    Moving.shadowY self' = Moving.shadowY self ∧
    Moving.shadowZ self' = Moving.shadowZ self ∧
    Moving.shadow self' =
      shadow_place self (GetPosition (Moving.node self)) <$> Moving.shadow self ∧
    (trail (Moving.node self) ≠ None →
       ∃ lastpos,
         last (trailPoints (Moving.node self')) = Some (Some lastpos) ∧
         (lastpos = currentpos (Moving.node self) ∨
          norm_below (vec_sub (currentpos (Moving.node self)) lastpos)
                     (trailSegmentSize (Moving.node self)) = true)).
Proof.
  intros Hok. unfold Moving.after_move.
  rewrite (bind_step _ _ self self self) by done.
  destruct (trail (Moving.node self)) as [t|] eqn:Ht.
  - destruct Hok as [Hne Ho]; [by rewrite Ht|].
    destruct (updateTrail_returns (Moving.node self))
      as (b & n' & lastpos & Hr & Hpos & _ & Hseg & Hoff & Ht' & Hlen & Hlast & Hnear);
      [by rewrite Ht | done | done |].
    set (self1 := Moving.mkMover n' (Moving.shadow self) (Moving.shadowX self)
                    (Moving.shadowY self) (Moving.shadowZ self)).
    assert (Hon : Moving.on_node updateTrail self = Run (Returned b) self1 []).
    { unfold Moving.on_node. by rewrite Hr. }
    rewrite (bind_step _ _ self self1 tt)
      by (by rewrite (bind_step _ _ self self1 b)).
    destruct (shadow_step self1) as (self' & -> & Hn & Hx & Hy & Hz & Hsh).
    exists self'. rewrite Hn. unfold shadow_place in *. subst self1.
    cbn [Moving.node Moving.shadow Moving.shadowX Moving.shadowY
         Moving.shadowZ] in *.
    rewrite Hpos in Hsh. split_and!; try done.
    + intros _. split; [|by rewrite Hoff].
      intros Hnil. apply Hne. destruct (trailPoints (Moving.node self)); [done|].
      by rewrite Hnil in Hlen.
    + intros _. by exists lastpos.
  - rewrite (bind_step _ _ self self tt) by done.
    destruct (shadow_step self) as (self' & -> & Hn & Hx & Hy & Hz & Hsh).
    exists self'. rewrite Hn. by split_and!.
Qed.

(** When updating the trail raises, the moving method has moved the
    [Prop] and done nothing else. *)
Lemma after_move_raises (self : Moving.Mover) (e : exn) :
  trail (Moving.node self) ≠ None →
  updateTrail (Moving.node self) = Run (Raised e) (Moving.node self) [] →
  Moving.after_move self = Run (Raised e) self [].
Proof.
  intros Ht Hr. unfold Moving.after_move.
  rewrite (bind_step _ _ self self self) by done.
  destruct (trail (Moving.node self)) as [t|]; [|done].
  apply bind_raised, bind_raised. unfold Moving.on_node. rewrite Hr.
  by destruct self.
Qed.

(** One call that moves a [Prop]. *)
Lemma move_step (c : Moving.Move) (self : Moving.Mover) :
  trail_ok (Moving.node self) →
  ∃ self',
    Moving.move c self = Run (Returned ()) self' [] ∧
    GetPosition (Moving.node self')
      = Moving.destination c (GetPosition (Moving.node self)) ∧
    trailOffset (Moving.node self') = trailOffset (Moving.node self) ∧
    trailSegmentSize (Moving.node self') = trailSegmentSize (Moving.node self) ∧
    trail_ok (Moving.node self') ∧
    length (trailPoints (Moving.node self'))
      = length (trailPoints (Moving.node self)) ∧
    Moving.shadowX self' = Moving.shadowX self ∧
    Moving.shadowY self' = Moving.shadowY self ∧
    Moving.shadowZ self' = Moving.shadowZ self ∧
    Moving.shadow self' =
      shadow_place self (GetPosition (Moving.node self')) <$> Moving.shadow self ∧
    (trail (Moving.node self) ≠ None →
       ∃ lastpos,
         last (trailPoints (Moving.node self')) = Some (Some lastpos) ∧
         (lastpos = currentpos (Moving.node self') ∨
          norm_below (vec_sub (currentpos (Moving.node self')) lastpos)
                     (trailSegmentSize (Moving.node self')) = true)).
Proof.
  intros Hok. rewrite move_unfold.
  set (p := Moving.destination c (GetPosition (Moving.node self))).
  set (n1 := mkNode p (diagonalSize (Moving.node self)) (trail (Moving.node self))
               (trailPoints (Moving.node self))
               (trailSegmentSize (Moving.node self))
               (trailOffset (Moving.node self))).
  set (self1 := Moving.mkMover n1 (Moving.shadow self) (Moving.shadowX self)
                  (Moving.shadowY self) (Moving.shadowZ self)).
  rewrite (bind_step _ _ self self1 tt) by done.
  destruct (after_move_returns self1)
    as (self' & Hr & Hpos & Hoff & Hseg & Hok' & Hlen & Hx & Hy & Hz & Hsh & Hlast);
    [done|].
  exists self'. split_and!; try done.
  - rewrite Hsh, Hpos. unfold shadow_place. by subst self1.
  - intros Ht. destruct (Hlast Ht) as (lastpos & Hl & Hnear).
    exists lastpos. split; [done|].
    assert (currentpos (Moving.node self') = currentpos (Moving.node self1))
      as -> by (unfold currentpos; by rewrite Hoff, Hpos).
    by rewrite Hseg.
Qed.

(** The [Prop] moved by [c], with nothing else done. *)
Lemma move_raises (c : Moving.Move) (self : Moving.Mover) (e : exn) :
  trail (Moving.node self) ≠ None →
  (∀ n : Node, trailPoints n = trailPoints (Moving.node self) →
     trailOffset n = trailOffset (Moving.node self) →
     updateTrail n = Run (Raised e) n []) →
  ∃ self',
    Moving.move c self = Run (Raised e) self' [] ∧
    GetPosition (Moving.node self')
      = Moving.destination c (GetPosition (Moving.node self)) ∧
    Moving.shadow self' = Moving.shadow self.
Proof.
  intros Ht Hraise. rewrite move_unfold.
  set (p := Moving.destination c (GetPosition (Moving.node self))).
  set (n1 := mkNode p (diagonalSize (Moving.node self)) (trail (Moving.node self))
               (trailPoints (Moving.node self))
               (trailSegmentSize (Moving.node self))
               (trailOffset (Moving.node self))).
  set (self1 := Moving.mkMover n1 (Moving.shadow self) (Moving.shadowX self)
                  (Moving.shadowY self) (Moving.shadowZ self)).
  rewrite (bind_step _ _ self self1 tt) by done.
  exists self1. split; [|done].
  apply after_move_raises; [done|]. by apply Hraise.
Qed.

(** X11. Moving a [Prop] with [pos], [addPos], [x], [y] or [z] returns
    when the [Prop] has no trail, or a trail with a buffer that is not
    empty and an offset that is no numpy array.  The shadow, if there is
    one, goes to the new position with the coordinate of its plane kept.
    With a trail, the last point of the buffer is afterwards the new
    position (with the offset), or a recorded point closer to it than
    the segment size.  With a trail whose offset is a numpy array the
    call raises [ValueError], and with a trail whose buffer is empty (and
    whose offset is no array) [IndexError]: the [Prop] is then at its new
    position and the shadow where it was. *)
Theorem move_follows (c : Moving.Move) (self : Moving.Mover) :
  (trail_ok (Moving.node self) →
   ∃ self',
     Moving.move c self = Run (Returned ()) self' [] ∧
     GetPosition (Moving.node self')
       = Moving.destination c (GetPosition (Moving.node self)) ∧
     Moving.shadow self' =
       shadow_place self (GetPosition (Moving.node self')) <$> Moving.shadow self ∧
     (trail (Moving.node self) ≠ None →
        ∃ lastpos,
          last (trailPoints (Moving.node self')) = Some (Some lastpos) ∧
          (lastpos = currentpos (Moving.node self') ∨
           norm_below (vec_sub (currentpos (Moving.node self')) lastpos)
                      (trailSegmentSize (Moving.node self')) = true))) ∧
  (trail (Moving.node self) ≠ None →
   is_array (trailOffset (Moving.node self)) = true →
   ∃ self',
     Moving.move c self = Run (Raised ValueError) self' [] ∧
     GetPosition (Moving.node self')
       = Moving.destination c (GetPosition (Moving.node self)) ∧
     Moving.shadow self' = Moving.shadow self) ∧
  (trail (Moving.node self) ≠ None →
   is_array (trailOffset (Moving.node self)) = false →
   trailPoints (Moving.node self) = [] →
   ∃ self',
     Moving.move c self = Run (Raised IndexError) self' [] ∧
     GetPosition (Moving.node self')
       = Moving.destination c (GetPosition (Moving.node self)) ∧
     Moving.shadow self' = Moving.shadow self).
Proof.
  split_and!.
  - intros Hok.
    destruct (move_step c self Hok)
      as (self' & Hr & Hpos & _ & _ & _ & _ & _ & _ & _ & Hsh & Hlast).
    by exists self'.
  - intros Ht Ho. apply move_raises; [done|].
    intros n _ Hoff. apply updateTrail_array. by rewrite Hoff.
  - intros Ht Ho Hnil. apply move_raises; [done|].
    intros n Hpts Hoff. apply updateTrail_empty; by rewrite ?Hoff, ?Hpts.
Qed.

(** X12. Any sequence of moves returns on a [Prop] that has no trail, or
    a trail with a buffer that is not empty and an offset that is no numpy
    array; the [Prop] is then such a one still, the buffer keeps its
    length, and the position is the one the calls lead to. *)
Theorem moves_never_raise (calls : list Moving.Move) (self : Moving.Mover) :
  trail_ok (Moving.node self) →
  ∃ self',
    Moving.moves calls self = Run (Returned ()) self' [] ∧
    GetPosition (Moving.node self')
      = fold_left (λ p c, Moving.destination c p) calls
                  (GetPosition (Moving.node self)) ∧
    trail_ok (Moving.node self') ∧
    length (trailPoints (Moving.node self'))
      = length (trailPoints (Moving.node self)).
Proof.
  revert self. induction calls as [|c calls IH]; intros self Hok.
  - by exists self.
  - destruct (move_step c self Hok)
      as (self1 & Hr & Hpos & _ & _ & Hok1 & Hlen & _).
    destruct (IH self1 Hok1) as (self' & Hr' & Hpos' & Hok' & Hlen').
    exists self'. cbn [Moving.moves fold_left].
    rewrite (bind_step _ _ self self1 tt) by done.
    split_and!; [done | by rewrite Hpos', Hpos | done | lia].
Qed.

Lemma move_follows_witness :
  ∃ self',
    Moving.move (Moving.Move_x 2) sample_mover = Run (Returned ()) self' [] ∧
    GetPosition (Moving.node self') = (2, 0, 0)%Q ∧
    Moving.shadow self' = Some (2, 0, -1)%Q.
Proof.
  destruct (move_follows (Moving.Move_x 2) sample_mover) as [Hret _].
  destruct Hret as (self' & Hr & Hpos & Hsh & _); [done|].
  exists self'. split_and!; [done..|]. by rewrite Hsh, Hpos.
Defined.

Lemma moves_never_raise_witness :
  ∃ self',
    Moving.moves [Moving.Move_x 2; Moving.Move_addPos (1, 1, 1)%Q] sample_mover
      = Run (Returned ()) self' [] ∧
    GetPosition (Moving.node self') = (2 + 1, 0 + 1, 0 + 1)%Q.
Proof.
  destruct (moves_never_raise
              [Moving.Move_x 2; Moving.Move_addPos (1, 1, 1)%Q] sample_mover)
    as (self' & Hr & Hpos & _); [done|].
  by exists self'.
Defined.

(** X13. [addTrail] on a [Prop] that has a trail changes nothing.  On a
    [Prop] without a trail, with [n] above zero it attaches a trail with a
    buffer of [n] entries, the offset and a segment size that is a number.
    With [n = 0] it raises [ZeroDivisionError] and attaches no trail when
    [maxlength] is given (as a number of Python) or the diagonal size is
    zero; when [maxlength] is omitted and the diagonal size is not zero it
    returns: the [Prop] then has a trail with an empty buffer and an
    infinite segment size.  In both cases with [n = 0] an [updateTrail]
    after it raises, [ValueError] for an offset that is a numpy array and
    [IndexError] otherwise. *)
Theorem addTrail_edge_cases (offset : Offset) (maxlength : option Q)
    (n : nat) (self : Node) :
  let omitted :=
    match maxlength with
    | Some _ => false
    | None => negb (Qeq_bool (diagonalSize self * 20) 0)
    end in
  (trail self ≠ None →
     addTrail offset maxlength n self = Run (Returned ()) self []) ∧
  (trail self = None → 0 < n →
     ∃ self' seg,
       addTrail offset maxlength n self = Run (Returned ()) self' [] ∧
       trail self' ≠ None ∧ length (trailPoints self') = n ∧
       trailOffset self' = offset ∧ trailSegmentSize self' = Finite seg ∧
       GetPosition self' = GetPosition self) ∧
  (trail self = None → n = 0 → omitted = false →
     ∃ self',
       addTrail offset maxlength n self = Run (Raised ZeroDivisionError) self' [] ∧
       trail self' = None ∧ trailPoints self' = [] ∧
       trailOffset self' = trailOffset self ∧
       GetPosition self' = GetPosition self ∧
       updateTrail self' =
         Run (Raised (if is_array (trailOffset self) then ValueError
                      else IndexError)) self' []) ∧
  (trail self = None → n = 0 → omitted = true →
     ∃ self',
       addTrail offset maxlength n self = Run (Returned ()) self' [] ∧
       trail self' = Some [] ∧ trailPoints self' = [] ∧
       trailOffset self' = offset ∧
       trailSegmentSize self' =
         (if Qlt_bool 0 (diagonalSize self * 20) then PlusInf else MinusInf) ∧
       GetPosition self' = GetPosition self ∧
       updateTrail self' =
         Run (Raised (if is_array offset then ValueError else IndexError))
             self' []).
Proof.
  assert (Hup : ∀ n' : Node, trailPoints n' = [] →
            updateTrail n' =
              Run (Raised (if is_array (trailOffset n') then ValueError
                           else IndexError)) n' []).
  { intros n' Hnil. destruct (is_array (trailOffset n')) eqn:Ho.
    - by apply updateTrail_array.
    - by apply updateTrail_empty. }
  intros omitted. unfold addTrail.
  rewrite (bind_step _ _ self self self) by done.
  destruct (trail self) as [t|] eqn:Ht; [by split_and!|].
  split_and!; [done | | |].
  - intros _ Hn. unfold divide.
    destruct (Nat.eqb_spec n 0) as [->|_]; [lia|].
    destruct maxlength as [m|]; [|destruct (Qeq_bool _ 0)];
      eexists _, _; (split; [reflexivity|]);
      cbv [mbind M_bind bind mret M_ret ret put final result console
           trail trailPoints trailOffset trailSegmentSize GetPosition];
      by rewrite length_replicate.
  - intros _ -> Hom. subst omitted.
    exists (mkNode (GetPosition self) (diagonalSize self) None []
                   (trailSegmentSize self) (trailOffset self)).
    split; [|split_and!; [done..|]; by apply (Hup (mkNode _ _ _ _ _ _))].
    destruct maxlength as [m|]; [done|].
    by destruct (Qeq_bool _ 0).
  - intros _ -> Hom. subst omitted.
    destruct maxlength as [m|]; [done|].
    exists (mkNode (GetPosition self) (diagonalSize self) (Some []) []
                   (if Qlt_bool 0 (diagonalSize self * 20) then PlusInf
                    else MinusInf) offset).
    split; [|split_and!; [done..|]; by apply (Hup (mkNode _ _ _ _ _ _))].
    by destruct (Qeq_bool _ 0).
Qed.

(** A [Prop] of diagonal size 1 without a trail: [addTrail(n=0)] returns,
    and updating the trail then raises. *)
Lemma addTrail_edge_cases_witness :
  ∃ self',
    addTrail NoOffset None 0 resting_node = Run (Returned ()) self' [] ∧
    trailSegmentSize self' = PlusInf ∧
    updateTrail self' = Run (Raised IndexError) self' [].
Proof.
  destruct (addTrail_edge_cases NoOffset None 0 resting_node)
    as (_ & _ & _ & Hinf).
  destruct Hinf as (self' & Hr & _ & _ & _ & Hseg & _ & Hup); [done..|].
  by exists self'.
Defined.

(** ** Reading the cells back *)

Lemma read_cell_in_range {St} (arr1d : list nat) (i j m : nat) (s : St) :
  i + j + 1 + m ≤ length arr1d →
  read_cell arr1d i (seq j m) s
    = Run (Returned (take m (drop (i + j + 1) arr1d))) s [].
Proof.
  revert j. induction m as [|m IH]; intros j Hlen; [done|].
  cbn [seq read_cell].
  destruct (lookup_lt_is_Some_2 arr1d (i + j + 1)) as [v Hv]; [lia|].
  unfold getitem. rewrite Hv.
  rewrite (bind_step _ _ s s v) by done.
  rewrite (bind_step _ _ s s (take m (drop (i + S j + 1) arr1d)))
    by (apply IH; lia).
  rewrite (drop_S _ _ _ Hv). cbn [take mret M_ret ret].
  by replace (S (i + j + 1)) with (i + S j + 1) by lia.
Qed.

Lemma GetData_cons (cell : list nat) (cells : list (list nat)) :
  GetData (cell :: cells) = length cell :: cell ++ GetData cells.
Proof. reflexivity. Qed.

Lemma length_GetData (cells : list (list nat)) :
  length cells ≤ length (GetData cells).
Proof.
  induction cells as [|c cells IH]; [done|].
  rewrite GetData_cons. cbn [length]. rewrite length_app. lia.
Qed.

Lemma GetData_nil (cells : list (list nat)) :
  length (GetData cells) = 0 ↔ cells = [].
Proof.
  split; [|by intros ->]. by destruct cells.
Qed.

(** The loop reads back the cells that are still ahead of it. *)
Lemma connectivity_loop_decodes {St} (cells : list (list nat)) :
  ∀ (pre : list nat) (conn : list (list nat)) (dummies : nat) (s : St),
    cells ≠ [] → length cells ≤ dummies →
    connectivity_loop (pre ++ GetData cells) dummies (length pre) conn s
      = Run (Returned (conn ++ cells)) s [].
Proof.
  induction cells as [|c cells IH]; intros pre conn dummies s Hne Hfuel; [done|].
  destruct dummies as [|dummies]; [cbn in Hfuel; lia|].
  cbn [connectivity_loop]. rewrite GetData_cons.
  set (arr1d := pre ++ length c :: c ++ GetData cells).
  assert (Hlen : length arr1d
                 = length pre + (length c + 1) + length (GetData cells)).
  { unfold arr1d. rewrite length_app. cbn [length]. rewrite length_app. lia. }
  assert (Hi : arr1d !! length pre = Some (length c)).
  { unfold arr1d. by rewrite lookup_app_r, Nat.sub_diag by lia. }
  unfold getitem at 1. rewrite Hi.
  rewrite (bind_step _ _ s s (length c)) by done.
  rewrite (bind_step _ _ s s c).
  2:{ rewrite read_cell_in_range by lia.
      replace (length pre + 0 + 1) with (length (pre ++ [length c]))
        by (rewrite length_app; cbn; lia).
      replace arr1d with ((pre ++ [length c]) ++ c ++ GetData cells)
        by (unfold arr1d; by rewrite <- app_assoc).
      by rewrite drop_app_length, take_app_length. }
  cbv zeta. destruct cells as [|c' cells].
  - cbn [GetData map concat] in *.
    rewrite (proj2 (Nat.leb_le _ _)) by (cbn in Hlen; lia). done.
  - rewrite (proj2 (Nat.leb_gt _ _)).
    2:{ rewrite Hlen, GetData_cons. cbn [length]. lia. }
    replace (length pre + (length c + 1)) with (length (pre ++ length c :: c))
      by (rewrite length_app; cbn [length]; lia).
    unfold arr1d.
    replace (pre ++ length c :: c ++ GetData (c' :: cells))
      with ((pre ++ length c :: c) ++ GetData (c' :: cells))
      by (by rewrite <- app_assoc).
    rewrite IH; [|done|cbn in *; lia]. by rewrite <- app_assoc.
Qed.

Lemma connectivity_loop_GetData {St} (cells : list (list nat)) (s : St) :
  connectivity_loop (GetData cells) (length (GetData cells)) 0 [] s
    = Run (Returned cells) s [].
Proof.
  destruct cells as [|c cells]; [done|].
  apply (connectivity_loop_decodes (c :: cells) [] []); [done|].
  apply length_GetData.
Qed.

Section Connectivity.
Context `{Native}.

Lemma polydata_placed (self : Actor) (σ : store) :
  poly self ∈ dom σ →
  ∃ l σ',
    polydata true self σ = Run (Returned l) σ' [] ∧
    (∀ l', l' ∈ dom σ → σ' !! l' = σ !! l') ∧
    σ' !!! l = placed self (σ !!! poly self).
Proof.
  intros Hdom. unfold polydata, placed. cbn [negb].
  destruct (isIdentity identity_tolerance (matrix self));
    [by exists (poly self), σ|].
  rewrite (bind_step _ _ σ σ (σ !!! poly self)) by done.
  destruct (alloc_frame
              (vtkTransformPolyDataFilter (matrix self) (σ !!! poly self)) σ)
    as (l & σ' & Hr & Hfresh & Hl & Hframe).
  exists l, σ'. split_and!; [done | done |].
  by rewrite lookup_total_alt, Hl.
Qed.

Lemma placed_cells (self : Actor) (pd : vtkPolyData) :
  (is_Some (GetPoints pd) ∨
   isIdentity identity_tolerance (matrix self) = true →
     Polys (placed self pd) = Polys pd ∧ Strips (placed self pd) = Strips pd) ∧
  (GetPoints pd = None →
   isIdentity identity_tolerance (matrix self) = false →
     Polys (placed self pd) = [] ∧ Strips (placed self pd) = []).
Proof.
  unfold placed, vtkTransformPolyDataFilter.
  destruct (isIdentity identity_tolerance (matrix self)); split; try done.
  - intros [[pts ->]|]; done.
  - by intros -> _.
Qed.

(** X14. [getConnectivity] never raises on a mesh that exists and changes
    no mesh of the store.  It gives back the polygons of the mesh, cell by
    cell, as they are stored, and the triangle strips when the mesh has no
    polygons; this is so on a mesh that has a points object and on every
    actor that is not moved.  On a moved actor whose mesh has no points
    object it gives back no cell, whatever cells the mesh has. *)
Theorem getConnectivity_roundtrip (self : Actor) (σ : store) :
  poly self ∈ dom σ →
  ∃ cells σ',
    getConnectivity self σ = Run (Returned cells) σ' [] ∧
    (∀ l, l ∈ dom σ → σ' !! l = σ !! l) ∧
    (is_Some (GetPoints (σ !!! poly self)) ∨
     isIdentity identity_tolerance (matrix self) = true →
       cells = match Polys (σ !!! poly self) with
               | [] => Strips (σ !!! poly self)
               | _ :: _ => Polys (σ !!! poly self)
               end) ∧
    (GetPoints (σ !!! poly self) = None →
     isIdentity identity_tolerance (matrix self) = false → cells = []).
Proof.
  intros Hdom.
  set (pd := placed self (σ !!! poly self)).
  assert (∃ σ',
            getConnectivity self σ
              = Run (Returned (match Polys pd with
                               | [] => Strips pd
                               | _ :: _ => Polys pd
                               end)) σ' [] ∧
            ∀ l, l ∈ dom σ → σ' !! l = σ !! l) as (σ' & Hrun & Hframe).
  { unfold getConnectivity, getPolygons.
    destruct (polydata_placed self σ Hdom) as (l1 & σ1 & Hr1 & Hf1 & Hpd1).
    rewrite (bind_step _ _ σ σ1 (GetData (Polys pd))).
    2:{ rewrite (bind_step _ _ σ σ1 l1) by done.
        rewrite (bind_step _ _ σ1 σ1 (σ1 !!! l1)) by done. by rewrite Hpd1. }
    assert (Hdom1 : poly self ∈ dom σ1).
    { apply elem_of_dom. rewrite Hf1 by done. by apply elem_of_dom. }
    assert (Hsame : σ1 !!! poly self = σ !!! poly self)
      by (by rewrite !lookup_total_alt, Hf1).
    destruct (Polys pd) as [|c cells] eqn:Hp.
    - cbn [GetData map concat length Nat.eqb].
      destruct (polydata_placed self σ1 Hdom1) as (l2 & σ2 & Hr2 & Hf2 & Hpd2).
      rewrite (bind_step _ _ σ1 σ2 (GetData (Strips pd))).
      2:{ rewrite (bind_step _ _ σ1 σ2 l2) by done.
          rewrite (bind_step _ _ σ2 σ2 (σ2 !!! l2)) by done.
          by rewrite Hpd2, Hsame. }
      exists σ2. split; [apply connectivity_loop_GetData|].
      intros l Hl. rewrite Hf2, Hf1; [done..|].
      apply elem_of_dom. rewrite Hf1 by done. by apply elem_of_dom.
    - destruct (length (GetData (c :: cells)) =? 0) eqn:E.
      { apply Nat.eqb_eq, GetData_nil in E. done. }
      rewrite (bind_step _ _ σ1 σ1 (GetData (c :: cells))) by done.
      exists σ1. split; [apply connectivity_loop_GetData | done]. }
  destruct (placed_cells self (σ !!! poly self)) as [Hkept Hempty].
  eexists _, σ'. split; [exact Hrun|]. split; [done|]. split.
  - intros Hpts. destruct (Hkept Hpts) as [Hp Hs]. fold pd in Hp, Hs.
    by rewrite Hp, Hs.
  - intros Hnone Hmoved. destruct (Hempty Hnone Hmoved) as [Hp Hs].
    fold pd in Hp, Hs. by rewrite Hp, Hs.
Qed.

End Connectivity.

Lemma getConnectivity_roundtrip_witness :
  ∃ σ',
    getConnectivity (H := pass_through) moved_actor
        {[ 1%positive := sample_mesh ]}
      = Run (Returned (Polys sample_mesh)) σ' [].
Proof.
  destruct (getConnectivity_roundtrip (H := pass_through) moved_actor
              {[ 1%positive := sample_mesh ]}) as (cells & σ' & Hr & _ & Hc & _).
  { apply elem_of_dom. by eexists. }
  exists σ'. rewrite Hr, Hc; [done|]. left. by eexists.
Defined.

(** A moved actor on a mesh with a triangle but no points object. *)
Example getConnectivity_no_points :
  result (getConnectivity (H := pass_through) moved_actor
            {[ 1%positive := mkPolyData None [] [] [[0; 1; 2]] [] [] None []
                                        None ]})
    = Returned [].
Proof. by vm_compute. Qed.

(** ** The back face of an actor made transparent *)

(** X15. On an actor with a back-face property, [alpha(o)] with [o]
    below 1 puts that property away and removes the back face; a later
    [alpha(1)] does not bring it back, while the key [/] on the clicked
    actor does. [alpha(o)] with [o] at least 1 sets the back face to what
    was put away before, which is nothing on an actor that was never made
    transparent. *)
Theorem Actor_alpha_backface (self : Actor) (bfp : vtkProperty) :
  backface self = Some bfp →
  (∀ o : Q, (o < 1)%Q →
     let a1 := Actor_alpha o self in
     backface a1 = None ∧ _bfprop a1 = Some bfp ∧
     Opacity (property a1) = clamp01 o ∧
     backface (Actor_alpha 1 a1) = None ∧
     ∃ a3,
       key_body Key_slash true (PropActor a1)
         = Run (Returned ()) (PropActor a3) [] ∧
       backface a3 = Some bfp ∧ Opacity (property a3) = 1%Q) ∧
  (∀ o : Q, (1 <= o)%Q →
     backface (Actor_alpha o self) = _bfprop self ∧
     Opacity (property (Actor_alpha o self)) = 1%Q).
Proof.
  intros Hbf. split; intros o Ho.
  - assert (Qlt_bool o 1 = true) as Hlt.
    { unfold Qlt_bool. apply negb_true_iff, not_true_iff_false.
      rewrite Qle_bool_iff. lra. }
    unfold Actor_alpha. cbn [backface]. rewrite Hbf, Hlt. cbn.
    split_and!; [done..|]. eexists. split; [reflexivity|]. done.
  - assert (Qlt_bool o 1 = false) as Hlt.
    { unfold Qlt_bool. apply negb_false_iff. by apply Qle_bool_iff. }
    unfold Actor_alpha. cbn [backface]. rewrite Hbf, Hlt. cbn.
    split; [done|]. unfold clamp01.
    destruct (Qle_bool o 0) eqn:E0; [apply Qle_bool_iff in E0; lra|].
    apply Qle_bool_iff in Ho. by rewrite Ho.
Qed.

Lemma Actor_alpha_backface_witness :
  backface (Actor_alpha 1 (Actor_alpha 0.5
      (mkActor 1%positive newMapper newProperty None 0 identity4x4
               (Some newProperty) true))) = None.
Proof.
  destruct (Actor_alpha_backface
              (mkActor 1%positive newMapper newProperty None 0 identity4x4
                       (Some newProperty) true) newProperty)
    as [Hlow _]; [done|].
  destruct (Hlow 0.5%Q) as (_ & _ & _ & Hlost & _); [reflexivity|].
  exact Hlost.
Defined.

(** ** Cropping a volume *)

Lemma py_int_nonneg (v : Q) : (0 <= v)%Q → (0 ≤ py_int v)%Z.
Proof.
  intros Hv. unfold py_int. apply Z.quot_pos; [|done].
  unfold Qle in Hv. simpl in Hv. lia.
Qed.

Lemma py_int_mono (v w : Q) : (0 <= v)%Q → (v <= w)%Q → (py_int v ≤ py_int w)%Z.
Proof.
  intros Hv Hvw.
  assert (0 <= w)%Q as Hw by lra.
  unfold py_int. destruct v as [nv dv], w as [nw dw].
  unfold Qle in *. simpl in *.
  rewrite !Z.quot_div_nonneg by lia.
  apply Z.div_le_lower_bound; [lia|].
  pose proof (Z.mul_div_le nv (Z.pos dv) ltac:(lia)) as Hk.
  assert (0 ≤ nv / Z.pos dv)%Z as Hk0 by (apply Z.div_pos; lia).
  nia.
Qed.

Lemma py_int_inject_Z (n : Z) : py_int (inject_Z n) = n.
Proof. unfold py_int. simpl. apply Z.quot_1_r. Qed.

Section Crop.
Context `{ImageNative} `{HR : Rounding}.

Lemma fl_0 : (fl 0 == 0)%Q.
Proof. apply (fl_int 0). by vm_compute. Qed.

Lemma fl_1 : (fl 1 == 1)%Q.
Proof. apply (fl_int 1). by vm_compute. Qed.

(** The index [int((d - 1) * f)] for a fraction [f] of an axis of [d]
    voxels. *)
Lemma crop_index (d : Z) (f : Q) :
  (0 < d < 2 ^ 31)%Z → (0 <= f <= 1)%Q →
  (0 ≤ py_int (fl (inject_Z (d - 1) * f)) ≤ d - 1)%Z.
Proof.
  intros Hd [Hf0 Hf1].
  assert (0 <= inject_Z (d - 1))%Q as Hq by (unfold Qle; simpl; lia).
  assert (fl (inject_Z (d - 1)) == inject_Z (d - 1))%Q as Hflq.
  { apply fl_int. assert (2 ^ 31 < 2 ^ 53)%Z by (by vm_compute). lia. }
  set (q := inject_Z (d - 1)) in *.
  assert (0 <= q * f)%Q as H0 by (by apply Qmult_le_0_compat).
  assert (q * f <= q)%Q as H1.
  { assert (0 <= q * (1 - f))%Q by (apply Qmult_le_0_compat; lra). nra. }
  assert (0 <= fl (q * f))%Q as H2.
  { apply Qle_trans with (fl 0); [|by apply fl_mono].
    apply Qle_lteq. right. symmetry. apply fl_0. }
  assert (fl (q * f) <= q)%Q as H3.
  { apply Qle_trans with (fl q); [by apply fl_mono|].
    apply Qle_lteq. by right. }
  split.
  - by apply py_int_nonneg.
  - assert (py_int q = (d - 1)%Z) as <- by apply py_int_inject_Z.
    by apply py_int_mono.
Qed.

Lemma fl_complement (f : Q) : (0 <= f <= 1)%Q → (0 <= fl (1 - f) <= 1)%Q.
Proof.
  intros [Hf0 Hf1]. split.
  - apply Qle_trans with (fl 0); [|apply fl_mono; lra].
    apply Qle_lteq. right. symmetry. apply fl_0.
  - apply Qle_trans with (fl 1); [apply fl_mono; lra|].
    apply Qle_lteq. right. apply fl_1.
Qed.

Lemma crop_axis_opt (d : Z) (lo hi : option Q) :
  (0 < d < 2 ^ 31)%Z → fraction_ok lo → fraction_ok hi →
  let b0 := match lo with
            | Some f => py_int (fl (inject_Z (d - 1) * f))
            | None => 0%Z
            end in
  let b1 := match hi with
            | Some f => py_int (fl (inject_Z (d - 1) * fl (1 - f)))
            | None => (d - 1)%Z
            end in
  (0 ≤ b0 ≤ d - 1 ∧ 0 ≤ b1 ≤ d - 1)%Z.
Proof.
  intros Hd Hlo Hhi. cbv zeta. split.
  - destruct lo as [f|]; [by apply crop_index | lia].
  - destruct hi as [f|]; [|lia]. apply crop_index; [done|].
    by apply fl_complement.
Qed.

Lemma SetVOI_returns {St} (x0 x1 y0 y1 z0 z1 : Z) (s : St) :
  int_fits x0 = true → int_fits x1 = true → int_fits y0 = true →
  int_fits y1 = true → int_fits z0 = true → int_fits z1 = true →
  SetVOI (x0, x1, y0, y1, z0, z1) s =
    Run (Returned (x0, x1, y0, y1, z0, z1)) s [].
Proof.
  intros Hx0 Hx1 Hy0 Hy1 Hz0 Hz1. unfold SetVOI, as_int.
  rewrite Hx0, Hx1, Hy0, Hy1, Hz0, Hz1. reflexivity.
Qed.

Lemma SetVOI_within {St} (d0 d1 d2 : Z) (voi : Extent) (s : St) :
  (d0 < 2 ^ 31)%Z → (d1 < 2 ^ 31)%Z → (d2 < 2 ^ 31)%Z →
  within (d0, d1, d2) voi → SetVOI voi s = Run (Returned voi) s [].
Proof.
  destruct voi as [[[[[x0 x1] y0] y1] z0] z1]. unfold within.
  intros Hd0 Hd1 Hd2 (Hx & Hy & Hz).
  apply SetVOI_returns; apply int_fits_iff; lia.
Qed.

(** X16. In the arithmetic of [float], [crop] with fractions between 0
    and 1 on a volume that has voxels along each axis returns, and
    extracts a volume of interest whose six indices are indices of the
    image: none is negative and none reaches the dimension of its axis.
    When no fraction is given it is the whole image. *)
Theorem crop_within (top bottom right left front back : option Q)
    (self : Volume) (d0 d1 d2 : Z) :
  GetDimensions (imagedata self) = (d0, d1, d2) →
  axis_size d0 → axis_size d1 → axis_size d2 →
  fraction_ok left → fraction_ok right → fraction_ok back →
  fraction_ok front → fraction_ok bottom → fraction_ok top →
  ∃ voi,
    crop top bottom right left front back None self
      = Run (Returned ()) (mkVolume (vtkExtractVOI voi (imagedata self))) [] ∧
    within (d0, d1, d2) voi ∧
    (left = None → right = None → back = None → front = None →
     bottom = None → top = None →
     voi = (0, d0 - 1, 0, d1 - 1, 0, d2 - 1)%Z).
Proof.
  unfold axis_size. intros Hd Ha0 Ha1 Ha2 Hl Hr Hb Hf Hbo Ht.
  exists (crop_VOI (d0, d1, d2) top bottom right left front back).
  pose proof (crop_axis_opt d0 left right Ha0 Hl Hr) as Hx.
  pose proof (crop_axis_opt d1 back front Ha1 Hb Hf) as Hy.
  pose proof (crop_axis_opt d2 bottom top Ha2 Hbo Ht) as Hz.
  cbv zeta in Hx, Hy, Hz.
  assert (within (d0, d1, d2)
            (crop_VOI (d0, d1, d2) top bottom right left front back)) as Hin
    by (unfold within, crop_VOI; exact (conj Hx (conj Hy Hz))).
  split; [|split].
  - unfold crop. rewrite (bind_step _ _ self self self) by done.
    rewrite Hd.
    by rewrite (bind_step _ _ self self _
                  (SetVOI_within d0 d1 d2 _ self ltac:(lia) ltac:(lia)
                     ltac:(lia) Hin)).
  - done.
  - by intros -> -> -> -> -> ->.
Qed.

End Crop.

Lemma crop_within_witness :
  ∃ voi,
    crop (H := whole_image) (HR := exact_arithmetic)
         None None None (Some 0.5%Q) None None None sample_volume
      = Run (Returned ())
            (mkVolume (@vtkExtractVOI whole_image voi (imagedata sample_volume)))
            [] ∧
    within (2, 2, 1)%Z voi.
Proof.
  destruct (crop_within (H := whole_image) (HR := exact_arithmetic)
              None None None (Some 0.5%Q) None None sample_volume 2 2 1)
    as (voi & Hr & Hin & _);
    [reflexivity | by vm_compute | by vm_compute | by vm_compute
    | by vm_compute | done..|].
  by exists voi.
Defined.

(** ** The opacity transfer function of a volume *)

Lemma alpha_points_one {St} (smin smax : Q) (i : nat) (al : Q)
    (rest : list Q) (s : St) :
  alpha_points smin smax 1 i (al :: rest) s = Run (Raised ZeroDivisionError) s [].
Proof. reflexivity. Qed.

Lemma alpha_points_spread {St} (smin smax : Q) (n : nat) (als : list Q) :
  ∀ (i : nat) (s : St),
    n - 1 ≠ 0 →
    alpha_points smin smax n i als s =
      Run (Returned
             (imap (λ k al,
                      ((smin + (smax - smin) * inject_Z (Z.of_nat (i + k))
                        / inject_Z (Z.of_nat (n - 1)))%Q, al)) als)) s [].
Proof.
  induction als as [|al als IH]; intros i s Hn; [done|].
  cbn [alpha_points imap].
  destruct (Nat.eqb_spec (n - 1) 0) as [|_]; [done|].
  rewrite (bind_step _ _ s s _) by done.
  rewrite (bind_step _ _ s s _) by (by apply IH).
  rewrite Nat.add_0_r. unfold mret, M_ret, ret. do 3 f_equal.
  apply imap_ext. intros k x _. cbn [compose]. do 6 f_equal. lia.
Qed.

Lemma spread_first (smin smax d : Q) :
  (smin + (smax - smin) * inject_Z (Z.of_nat 0) / d == smin)%Q.
Proof. cbn. unfold Qdiv. ring. Qed.

Lemma spread_last (smin smax : Q) (m : nat) :
  m ≠ 0 →
  (smin + (smax - smin) * inject_Z (Z.of_nat m) / inject_Z (Z.of_nat m)
   == smax)%Q.
Proof.
  intros Hm. field. intros Hz.
  unfold Qeq in Hz. simpl in Hz. lia.
Qed.

Lemma spread_mono (smin smax : Q) (m i j : nat) :
  m ≠ 0 → (smin <= smax)%Q → i ≤ j →
  (smin + (smax - smin) * inject_Z (Z.of_nat i) / inject_Z (Z.of_nat m)
   <= smin + (smax - smin) * inject_Z (Z.of_nat j) / inject_Z (Z.of_nat m))%Q.
Proof.
  intros Hm Hs Hij.
  assert (0 < inject_Z (Z.of_nat m))%Q as Hd.
  { unfold Qlt. simpl. lia. }
  assert (inject_Z (Z.of_nat i) <= inject_Z (Z.of_nat j))%Q as Hle.
  { rewrite <- Zle_Qle. lia. }
  apply Qplus_le_r. unfold Qdiv.
  apply Qmult_le_compat_r; [|apply Qlt_le_weak, Qinv_lt_0_compat; done].
  rewrite !(Qmult_comm (smax - smin)).
  apply Qmult_le_compat_r; [done | lra].
Qed.

Lemma imap_snd {A B} (f : nat → B → A * B) (l : list B) :
  (∀ k a, (f k a).2 = a) → (imap f l).*2 = l.
Proof.
  revert f. induction l as [|b l IH]; intros f Hf; [done|].
  cbn. rewrite Hf. f_equal. apply IH. intros k a. apply Hf.
Qed.

Section Shade.
Context `{ImageNative}.

(** X17. [Volume.alpha] with a sequence of opacities. A sequence of
    one element raises [ZeroDivisionError], after the attribute [_alpha]
    was set and with the transfer function left as it was. Any other
    sequence gives the opacities, in their order, at points that start at
    the lowest scalar of the image, end at the highest and go up in
    between. *)
Theorem Volume_alpha_sequence (als : list Q) (self : Shaded) :
  let smin := (GetScalarRange (_image (volume self))).1 in
  let smax := (GetScalarRange (_image (volume self))).2 in
  (length als = 1 →
     Volume_alpha (AlphaSeq als) self =
       Run (Raised ZeroDivisionError)
           (mkShaded (volume self) (Some (AlphaSeq als)) (ScalarOpacity self)
                     (InterpolationTypeLinear self)) []) ∧
  (length als ≠ 1 →
     ∃ pts,
       Volume_alpha (AlphaSeq als) self =
         Run (Returned ())
             (mkShaded (volume self) (Some (AlphaSeq als)) pts true) [] ∧
       pts.*2 = als ∧
       (∀ p, head pts = Some p → (p.1 == smin)%Q) ∧
       (∀ p, last pts = Some p → (p.1 == smax)%Q) ∧
       ((smin <= smax)%Q →
          ∀ i j p q, i ≤ j → pts !! i = Some p → pts !! j = Some q →
                     (p.1 <= q.1)%Q)).
Proof.
  intros smin smax. subst smin smax. unfold Volume_alpha.
  rewrite (bind_step _ _ self self self) by done.
  destruct (GetScalarRange (_image (volume self))) as [smin smax].
  cbn [fst snd].
  set (self1 := mkShaded (volume self) (Some (AlphaSeq als)) (ScalarOpacity self)
                  (InterpolationTypeLinear self)).
  rewrite (bind_step _ _ self self1 tt) by done.
  split; intros Hlen.
  - by destruct als as [|al [|? ?]].
  - destruct als as [|al als].
    { exists []. rewrite (bind_step _ _ self1 self1 []) by done.
      by split_and!. }
    assert (length (al :: als) - 1 ≠ 0) as Hn by (cbn in *; lia).
    set (n := length (al :: als)) in *.
    set (f := λ (k : nat) (a : Q),
           ((smin + (smax - smin) * inject_Z (Z.of_nat (0 + k))
             / inject_Z (Z.of_nat (n - 1)))%Q, a)).
    exists (imap f (al :: als)).
    rewrite (bind_step _ _ self1 self1 (imap f (al :: als)))
      by (by apply alpha_points_spread).
    split_and!; [done | | | |].
    + by apply imap_snd.
    + intros p [= <-]. apply spread_first.
    + intros p Hp. rewrite last_lookup, list_lookup_imap, length_imap in Hp.
      fold n in Hp.
      destruct ((al :: als) !! pred n) as [a|]; [|done].
      injection Hp as <-. cbn [fst f]. rewrite Nat.add_0_l.
      replace (length als) with (n - 1) by (subst n; cbn; lia).
      by apply spread_last.
    + intros Hs i j p q Hij Hp Hq. rewrite list_lookup_imap in Hp, Hq.
      destruct ((al :: als) !! i) as [a|]; [|done].
      destruct ((al :: als) !! j) as [b|]; [|done].
      injection Hp as <-. injection Hq as <-. cbn [fst f].
      rewrite !Nat.add_0_l. by apply spread_mono.
Qed.

End Shade.

Lemma Volume_alpha_sequence_witness :
  result (Volume_alpha (H := whole_image) (AlphaSeq [0.5%Q])
            (mkShaded sample_volume None [] false))
    = Raised ZeroDivisionError.
Proof.
  destruct (Volume_alpha_sequence (H := whole_image) [0.5%Q]
              (mkShaded sample_volume None [] false)) as [Hone _].
  by rewrite Hone.
Defined.

(** ** The list of actors of a plotter *)

Section SceneActors.
Context `{Scene.SceneNative}.

Lemma on_renderer_actors (f : Scene.vtkRenderer → Scene.vtkRenderer)
    (self : Scene.Plotter) :
  ∃ self',
    Scene.on_renderer f self = Run (Returned ()) self' [] ∧
    Scene.actors self' = Scene.actors self.
Proof.
  unfold Scene.on_renderer. rewrite (bind_step _ _ self self self) by done.
  destruct (Scene.renderer self); by eexists.
Qed.

Lemma discard_renderedAt_actors (a : Scene.ident) (self : Scene.Plotter) :
  ∃ self',
    Scene.discard_renderedAt a self = Run (Returned ()) self' [] ∧
    Scene.actors self' = Scene.actors self.
Proof.
  unfold Scene.discard_renderedAt.
  rewrite (bind_step _ _ self self self) by done.
  destruct (Scene.renderer self), (Scene.renderedAt self !! a); by eexists.
Qed.

(** One round of the loop of [add] over a sequence. *)
Lemma add_round (a : Scene.ident) (render : bool) (self : Scene.Plotter) :
  ∃ self',
    (self ← get;
     if bool_decide (a ∈ Scene.actors self) then mret ()
     else Scene.append_actor a;;
          if render then Scene.on_renderer (Scene.AddActor a) else mret ()) self
      = Run (Returned ()) self' [] ∧
    Scene.actors self' =
      if bool_decide (a ∈ Scene.actors self) then Scene.actors self
      else Scene.actors self ++ [a].
Proof.
  rewrite (bind_step _ _ self self self) by done.
  destruct (bool_decide (a ∈ Scene.actors self)); [by exists self|].
  set (self1 := Scene.mkPlotter (Scene.actors self ++ [a]) (Scene.renderers self)
                  (Scene.renderer self) (Scene.interactor self)
                  (Scene.renderedAt self)).
  rewrite (bind_step _ _ self self1 tt) by done.
  destruct render; [|by exists self1].
  destruct (on_renderer_actors (Scene.AddActor a) self1) as (self' & -> & Ha).
  by exists self'.
Qed.

Lemma add_Sequence_actors (objs : list Scene.ident) (render : bool) :
  ∀ self : Scene.Plotter,
    ∃ self' new,
      Scene.add (Scene.Sequence objs) render self
        = Run (Returned None) self' [] ∧
      Scene.actors self' = Scene.actors self ++ new ∧
      NoDup new ∧
      ∀ a, a ∈ new ↔ a ∈ objs ∧ a ∉ Scene.actors self.
Proof.
  unfold Scene.add.
  induction objs as [|a objs IH]; intros self.
  - exists self, []. split_and!; [done | by rewrite app_nil_r | constructor |].
    intros a. split; [by intros ?%elem_of_nil | by intros [?%elem_of_nil _]].
  - cbn [for_each].
    destruct (add_round a render self) as (self1 & Hr & Ha).
    destruct (IH self1) as (self' & new & Hrest & Hact & Hnd & Hnew).
    assert (∃ u, for_each objs
              (λ a0, self0 ← get;
                 if bool_decide (a0 ∈ Scene.actors self0) then mret ()
                 else Scene.append_actor a0;;
                      if render then Scene.on_renderer (Scene.AddActor a0)
                      else mret ()) self1 = Run (Returned u) self' [])
      as [[] Hloop].
    { rewrite bind_run in Hrest.
      destruct (for_each objs _ self1) as [[u|e] s o]; cbn in Hrest; [|done].
      injection Hrest as <- Ho. apply app_eq_nil in Ho as [-> _].
      by exists u. }
    rewrite (bind_step _ _ self self' tt)
      by (by rewrite (bind_step _ _ self self1 tt)).
    destruct (decide (a ∈ Scene.actors self)) as [Hin|Hout].
    + rewrite bool_decide_eq_true_2 in Ha by done. rewrite Ha in Hact, Hnew.
      exists self', new. split_and!; [done..|].
      intros x. rewrite Hnew, elem_of_cons. split; [tauto|].
      intros [[->|Hx] Hnot]; [done | by split].
    + rewrite bool_decide_eq_false_2 in Ha by done. rewrite Ha in Hact, Hnew.
      exists self', (a :: new). split_and!; [done | | |].
      * by rewrite Hact, <- app_assoc.
      * constructor; [|done].
        rewrite Hnew, elem_of_app, list_elem_of_singleton. tauto.
      * intros x.
        rewrite !elem_of_cons, Hnew, elem_of_app, list_elem_of_singleton.
        destruct (decide (x = a)) as [->|]; [tauto|]. tauto.
Qed.

Lemma filter_ne_id (a : Scene.ident) (l : list Scene.ident) :
  a ∉ l → filter (λ x, x ≠ a) l = l.
Proof.
  induction l as [|b l IH]; [done|]. intros [Hne Hl]%not_elem_of_cons.
  rewrite filter_cons_True by done. by rewrite IH.
Qed.

Lemma del_first_NoDup (a : Scene.ident) (l : list Scene.ident) :
  NoDup l → Scene.del_first a l = filter (λ x, x ≠ a) l.
Proof.
  induction 1 as [|b l Hb Hnd IH]; [done|]. cbn [Scene.del_first].
  destruct (decide (a = b)) as [->|Hne].
  - rewrite bool_decide_eq_true_2 by done.
    rewrite filter_cons_False by (by intros ?). by rewrite filter_ne_id.
  - rewrite bool_decide_eq_false_2 by done.
    rewrite filter_cons_True by done. by rewrite IH.
Qed.

Lemma del_first_not_in (a : Scene.ident) (l : list Scene.ident) :
  a ∉ l → Scene.del_first a l = l.
Proof.
  induction l as [|b l IH]; [done|]. intros [Hne Hl]%not_elem_of_cons.
  cbn. rewrite bool_decide_eq_false_2 by done. by rewrite IH.
Qed.

(** One round of the loop of [remove]. *)
Lemma remove_round (a : Scene.ident) (self : Scene.Plotter) :
  ∃ self',
    (Scene.on_renderer (Scene.RemoveActor a);;
     Scene.discard_renderedAt a;;
     self ← get;
     if bool_decide (a ∈ Scene.actors self)
     then put (Scene.mkPlotter (Scene.del_first a (Scene.actors self))
                 (Scene.renderers self) (Scene.renderer self)
                 (Scene.interactor self) (Scene.renderedAt self))
     else mret ()) self = Run (Returned ()) self' [] ∧
    Scene.actors self' = Scene.del_first a (Scene.actors self).
Proof.
  destruct (on_renderer_actors (Scene.RemoveActor a) self) as (self1 & Hr1 & Ha1).
  destruct (discard_renderedAt_actors a self1) as (self2 & Hr2 & Ha2).
  rewrite (bind_step _ _ self self1 tt) by done.
  rewrite (bind_step _ _ self1 self2 tt) by done.
  rewrite (bind_step _ _ self2 self2 self2) by done.
  rewrite Ha2, Ha1.
  destruct (decide (a ∈ Scene.actors self)) as [Hin|Hout].
  - rewrite bool_decide_eq_true_2 by done. by eexists.
  - rewrite bool_decide_eq_false_2 by done. exists self2.
    split; [done|]. by rewrite del_first_not_in, Ha2, Ha1.
Qed.

Lemma remove_actors (objs : list Scene.ident) :
  ∀ self : Scene.Plotter,
    NoDup (Scene.actors self) →
    ∃ self',
      Scene.remove (Scene.Sequence objs) self = Run (Returned ()) self' [] ∧
      Scene.actors self' = filter (λ x, x ∉ objs) (Scene.actors self).
Proof.
  unfold Scene.remove.
  induction objs as [|a objs IH]; intros self Hnd.
  - exists self. split; [done|]. symmetry.
    induction (Scene.actors self) as [|b l IHl]; [done|].
    rewrite filter_cons_True by apply not_elem_of_nil.
    rewrite IHl; [done|]. by apply NoDup_cons in Hnd as [_ ?].
  - cbn [for_each].
    destruct (remove_round a self) as (self1 & Hr & Ha).
    rewrite del_first_NoDup in Ha by done.
    destruct (IH self1) as (self' & Hrest & Hact).
    { rewrite Ha. by apply NoDup_filter. }
    rewrite (bind_step _ _ self self1 tt) by done.
    exists self'. split; [done|].
    rewrite Hact, Ha, list_filter_filter.
    apply list_filter_iff. intros x. rewrite not_elem_of_cons. tauto.
Qed.

Lemma filter_all {A} (P : A → Prop) `{∀ x, Decision (P x)} (l : list A) :
  (∀ x, x ∈ l → P x) → filter P l = l.
Proof.
  induction l as [|b l IH]; [done|]. intros Hall.
  rewrite filter_cons_True by (apply Hall; left).
  rewrite IH; [done|]. intros x Hx. apply Hall. by right.
Qed.

Lemma filter_none {A} (P : A → Prop) `{∀ x, Decision (P x)} (l : list A) :
  (∀ x, x ∈ l → ¬ P x) → filter P l = [].
Proof.
  induction l as [|b l IH]; [done|]. intros Hall.
  rewrite filter_cons_False by (apply Hall; left).
  apply IH. intros x Hx. apply Hall. by right.
Qed.

Lemma del_first_keeps_second (a : Scene.ident) (l : list Scene.ident) :
  a ∈ Scene.del_first a (l ++ [a; a]).
Proof.
  induction l as [|b l IH]; cbn.
  - rewrite bool_decide_eq_true_2 by done. by left.
  - destruct (bool_decide (a = b)).
    + rewrite elem_of_app. right. by left.
    + by right.
Qed.

(** X18. [add] with a sequence appends each object that is not listed
    yet, once: the objects listed before stay in front, afterwards exactly
    those and the ones given are listed, and a list without duplicates
    stays without. [add] with one object appends it even when it is
    listed, and then one [remove] leaves it listed. *)
Theorem add_Sequence_no_duplicates (objs : list Scene.ident) (render : bool)
    (self : Scene.Plotter) :
  (∃ self',
     Scene.add (Scene.Sequence objs) render self = Run (Returned None) self' [] ∧
     Scene.actors self `prefix_of` Scene.actors self' ∧
     (∀ a, a ∈ Scene.actors self' ↔ a ∈ Scene.actors self ∨ a ∈ objs) ∧
     (NoDup (Scene.actors self) → NoDup (Scene.actors self'))) ∧
  (∀ a, ∃ self1 self2 self3,
     Scene.add (Scene.Single a) render self = Run (Returned (Some a)) self1 [] ∧
     Scene.actors self1 = Scene.actors self ++ [a] ∧
     Scene.add (Scene.Single a) render self1 = Run (Returned (Some a)) self2 [] ∧
     Scene.remove (Scene.Single a) self2 = Run (Returned ()) self3 [] ∧
     a ∈ Scene.actors self3).
Proof.
  split.
  - destruct (add_Sequence_actors objs render self)
      as (self' & new & Hr & Hact & Hnd & Hnew).
    exists self'. split_and!; [done | by exists new | |].
    + intros a. rewrite Hact, elem_of_app, Hnew.
      destruct (decide (a ∈ Scene.actors self)); tauto.
    + intros Hnd0. rewrite Hact. apply NoDup_app. split_and!; [done | | done].
      intros x Hx Hx'. apply Hnew in Hx'. tauto.
  - intros a.
    assert (Hsingle : ∀ s : Scene.Plotter, ∃ s',
              Scene.add (Scene.Single a) render s = Run (Returned (Some a)) s' [] ∧
              Scene.actors s' = Scene.actors s ++ [a]).
    { intros s. unfold Scene.add.
      set (s1 := Scene.mkPlotter (Scene.actors s ++ [a]) (Scene.renderers s)
                   (Scene.renderer s) (Scene.interactor s) (Scene.renderedAt s)).
      rewrite (bind_step _ _ s s1 tt) by done.
      destruct render.
      - destruct (on_renderer_actors (Scene.AddActor a) s1) as (s' & Hr & Ha).
        rewrite (bind_step _ _ s1 s' tt) by done. by exists s'.
      - rewrite (bind_step _ _ s1 s1 tt) by done. by exists s1. }
    destruct (Hsingle self) as (self1 & Hr1 & Ha1).
    destruct (Hsingle self1) as (self2 & Hr2 & Ha2).
    destruct (remove_round a self2) as (self3 & Hr3 & Ha3).
    exists self1, self2, self3. split_and!; [done.. | |].
    + unfold Scene.remove. cbn [for_each].
      by rewrite (bind_step _ _ self2 self3 tt).
    + rewrite Ha3, Ha2, Ha1, <- app_assoc. apply del_first_keeps_second.
Qed.

(** X19. On a list of actors without duplicates, [remove] with a
    sequence leaves the objects that are not in it, in their order; and it
    undoes an [add] of objects that were not listed. *)
Theorem remove_undoes_add (objs : list Scene.ident) (render : bool)
    (self : Scene.Plotter) :
  NoDup (Scene.actors self) →
  (∃ self',
     Scene.remove (Scene.Sequence objs) self = Run (Returned ()) self' [] ∧
     Scene.actors self' = filter (λ x, x ∉ objs) (Scene.actors self)) ∧
  ((∀ a, a ∈ objs → a ∉ Scene.actors self) →
   ∃ self1 self2,
     Scene.add (Scene.Sequence objs) render self = Run (Returned None) self1 [] ∧
     Scene.remove (Scene.Sequence objs) self1 = Run (Returned ()) self2 [] ∧
     Scene.actors self2 = Scene.actors self).
Proof.
  intros Hnd. split; [by apply remove_actors|]. intros Hnew.
  destruct (add_Sequence_actors objs render self)
    as (self1 & new & Hr & Hact & Hndnew & Hin).
  destruct (remove_actors objs self1) as (self2 & Hr2 & Hact2).
  { rewrite Hact. apply NoDup_app. split_and!; [done | | done].
    intros x Hx Hx'. apply Hin in Hx'. tauto. }
  exists self1, self2. split_and!; [done..|].
  rewrite Hact2, Hact, filter_app.
  rewrite (filter_all _ (Scene.actors self)).
  2:{ intros x Hx Hobj. by apply (Hnew x). }
  rewrite (filter_none _ new); [by rewrite app_nil_r|].
  intros x Hx Hnot. apply Hin in Hx. tauto.
Qed.

End SceneActors.

Lemma remove_undoes_add_witness :
  ∃ self1 self2,
    Scene.add (Scene.Sequence [3; 3; 4]) true sample_scene
      = Run (Returned None) self1 [] ∧
    Scene.remove (Scene.Sequence [3; 3; 4]) self1 = Run (Returned ()) self2 [] ∧
    Scene.actors self2 = [1; 2].
Proof.
  destruct (remove_undoes_add (H := listing_renderer) [3; 3; 4] true sample_scene)
    as [_ Hundo].
  { by apply (bool_decide_unpack _). }
  apply Hundo. apply Forall_forall. by apply (bool_decide_unpack _).
Defined.

(** ** The average size after normalisation *)

Section AverageSize.
Local Open Scope R_scope.

Lemma strided_all {A} (l : list A) : strided_from 0 1 l = l.
Proof. induction l as [|a l IH]; [done|]. cbn. by rewrite IH. Qed.

Lemma rsum_shift_sq (m : R) (l : list R) :
  rsum ((λ a, (a - m) * (a - m)) <$> l)
  = rsum ((λ a, a * a) <$> l) - 2 * m * rsum l + INR (length l) * m * m.
Proof.
  induction l as [|a l IH].
  - cbn. ring.
  - rewrite !fmap_cons, !rsum_cons, IH. cbn [length]. rewrite S_INR. ring.
Qed.

Lemma rsum_squares_nonneg (f : R → R) (l : list R) :
  0 <= rsum ((λ a, f a * f a) <$> l).
Proof.
  induction l as [|a l IH]; [cbn; lra|].
  rewrite fmap_cons, rsum_cons. pose proof (Rle_0_sqr (f a)) as Hsq.
  unfold Rsqr in Hsq. lra.
Qed.

(** The square of a sum is at most the number of terms times the sum of
    the squares. *)
Lemma rsum_mean_square (l : list R) :
  l ≠ [] →
  rsum l * rsum l <= INR (length l) * rsum ((λ a, a * a) <$> l).
Proof.
  intros Hne.
  assert (0 < INR (length l)) as Hn.
  { apply lt_0_INR. destruct l; [done | cbn; lia]. }
  set (n := INR (length l)) in *. set (tot := rsum l).
  set (Q := rsum ((λ a, a * a) <$> l)).
  pose proof (rsum_squares_nonneg (λ a, a - tot / n) l) as Hvar.
  cbv beta in Hvar.
  rewrite (rsum_shift_sq (tot / n) l) in Hvar. fold n tot Q in Hvar.
  assert (Q - 2 * (tot / n) * tot + n * (tot / n) * (tot / n)
          = Q - tot * tot / n) as Heq by (field; lra).
  rewrite Heq in Hvar.
  assert (tot * tot / n <= Q) as Hle by lra.
  apply (Rmult_le_compat_l n) in Hle; [|lra].
  replace (n * (tot * tot / n)) with (tot * tot) in Hle by (field; lra). done.
Qed.

Lemma mag_mag (v : RPoint) : mag v * mag v = sq v.
Proof.
  unfold mag, sq. apply sqrt_sqrt.
  pose proof (Rle_0_sqr (px v)). pose proof (Rle_0_sqr (py v)).
  pose proof (Rle_0_sqr (pz v)). unfold Rsqr in *. lra.
Qed.

Lemma mag_nonneg (v : RPoint) : 0 <= mag v.
Proof. unfold mag. apply sqrt_pos. Qed.

Lemma rsum_nonneg (l : list R) : Forall (λ a, 0 <= a) l → 0 <= rsum l.
Proof.
  induction 1 as [|a l Ha _ IH]; [cbn; lra|]. rewrite rsum_cons. lra.
Qed.

Lemma sqrt_eq_1 (v : R) : sqrt v = 1 → v = 1.
Proof.
  intros Hs. destruct (Rle_dec 0 v) as [Hv|Hv].
  - rewrite <- (sqrt_sqrt v Hv), Hs. ring.
  - rewrite sqrt_neg_0 in Hs by lra. lra.
Qed.

(** X20. On an actor that is not moved, with fewer than 10000 points
    that are not all in one place, [normalize] puts the centre of mass at
    the origin and makes the root mean square of the distances to it 1;
    the average size, the mean of these distances, is then at most 1. *)
Theorem normalize_average_size_le_1 (pts : list RPoint) :
  let self := mkRActor pts None in
  (Z.of_nat (length pts) < 10000)%Z →
  0 < rsum (sq <$> ((fun p => rsub p (centerOfMass self)) <$> pts)) →
  centerOfMass (normalize self) = (0, 0, 0) ∧
  rootMeanSquareSize (normalize self) = 1 ∧
  averageSize (normalize self) <= 1.
Proof.
  intros self Hlen HD.
  destruct (normalize_unmoved pts HD) as [Hcm Hrms]. fold self in Hcm, Hrms.
  split; [done|]. split; [done|].
  assert (∃ q qs, normalize self = mkRActor (q :: qs) None ∧
                  length (q :: qs) = length pts) as (q & qs & Hnorm & Hlq).
  { unfold normalize, placed_points. cbn [placement raw_points self].
    destruct pts as [|p0 pts']; [cbn in HD; lra|].
    cbv zeta. rewrite fmap_cons. eexists _, _. split; [reflexivity|].
    cbn [length]. by rewrite length_fmap. }
  rewrite Hnorm in Hcm, Hrms |- *.
  unfold rootMeanSquareSize in Hrms. rewrite Hcm in Hrms.
  unfold averageSize. rewrite Hcm.
  unfold placed_points in *. cbn [placement raw_points] in *.
  assert ((Z.to_nat (Z.of_nat (length (q :: qs)) / 10000) + 1)%nat = 1%nat)
    as ->.
  { rewrite Z.div_small by lia. done. }
  rewrite strided_all.
  set (l := q :: qs) in *. set (n := INR (length l)) in *.
  assert (0 < n) as Hn by (apply lt_0_INR; cbn; lia).
  apply sqrt_eq_1 in Hrms.
  set (mags := (λ p, mag (rsub p (0, 0, 0))) <$> l).
  assert (rsum ((λ a, a * a) <$> mags)
          = rsum ((λ p, sq (rsub p (0, 0, 0))) <$> l)) as Hsq.
  { unfold mags. rewrite <- list_fmap_compose. f_equal.
    apply list_fmap_ext. intros i p _. cbn. apply mag_mag. }
  assert (rsum ((λ p, sq (rsub p (0, 0, 0))) <$> l) = n) as HQ.
  { apply (Rmult_eq_compat_r n) in Hrms.
    replace (rsum ((λ p, sq (rsub p (0, 0, 0))) <$> l) / n * n)
      with (rsum ((λ p, sq (rsub p (0, 0, 0))) <$> l)) in Hrms by (field; lra).
    lra. }
  assert (0 <= rsum mags) as Hpos.
  { apply rsum_nonneg, Forall_fmap, Forall_forall. intros p _. apply mag_nonneg. }
  pose proof (rsum_mean_square mags) as Hcs.
  assert (length mags = length l) as Hlm by apply length_fmap.
  rewrite Hsq, HQ, Hlm in Hcs. fold n in Hcs. specialize (Hcs ltac:(done)).
  assert (rsum mags <= n) as Hle by nra.
  apply (Rmult_le_reg_r n); [done|].
  replace (rsum mags / n * n) with (rsum mags) by (field; lra). lra.
Qed.

End AverageSize.

Lemma normalize_average_size_le_1_witness :
  (averageSize (normalize four_on_a_line) <= 1)%R.
Proof.
  destruct (normalize_average_size_le_1 (raw_points four_on_a_line))
    as (_ & _ & Hle).
  - cbn. lia.
  - change (mkRActor (raw_points four_on_a_line) None) with four_on_a_line.
    rewrite centerOfMass_four. cbn. unfold sq, rsub, px, py, pz. cbn. lra.
  - exact Hle.
Defined.
